(** * open-trading-api: indicator engine, strategies and position book

    A shallow embedding of [app/strategies/base.py],
    [app/strategies/squeeze_momentum.py], [app/strategies/macd_strategy.py]
    and [app/analyzers/technical_analyzer.py].

    Numbers.  Python [int] is [Z].  Python / numpy [float] is modelled by
    exact rational arithmetic extended with the two infinities and NaN
    (type [float] below): rounding is idealised away and the two signed
    zeros are identified, every other IEEE-754 rule the code relies on
    (NaN propagation, comparisons with NaN being false, division by zero
    giving an infinity or NaN in numpy) is written out.  The sign of a zero
    divisor does not change any result below: the quotient by zero
    [avg_gain / avg_loss] in the RSI enters [100 - 100 / (1 + rs)], which
    is 100 for either infinity, and every other divisor that can be zero is
    a difference [x - x], a mean of absolute values or a sum of
    non-negative values, hence a positive zero.  A pandas [Series] is a
    [list], aligned by position. *)

From Stdlib Require Import ZArith QArith Qabs Qminmax Qround Lqa Lia Bool Sorted.
From stdpp Require Import base option list gmap strings.

Local Open Scope Q_scope.

(** ** Exceptions and outcomes of a call *)

Inductive exn :=
  | ZeroDivisionError
  | IndexError
  | KeyError
  | ValueError.

Inductive outcome (A : Type) :=
  | Returned (a : A)
  | Raised (e : exn).
Arguments Returned {A} a.
Arguments Raised {A} e.

Definition obind {A B} (x : outcome A) (k : A -> outcome B) : outcome B :=
  match x with
  | Returned a => k a
  | Raised e => Raised e
  end.

Notation "'do' x <- c ; k" := (obind c (fun x => k))
  (at level 10, x name, c at level 100, k at level 200).

(** ** Floats: rationals with infinities and NaN *)

Module Float.

Inductive float :=
  | Num (q : Q)
  | PInf
  | NInf
  | NaN.

Definition Qltb (a b : Q) : bool := negb (Qle_bool b a).

Definition of_Z (z : Z) : float := Num (inject_Z z).

Definition is_nan (x : float) : bool :=
  match x with NaN => true | _ => false end.

Definition neg (x : float) : float :=
  match x with
  | Num a => Num (- a)
  | PInf => NInf
  | NInf => PInf
  | NaN => NaN
  end.

Definition abs (x : float) : float :=
  match x with
  | Num a => Num (Qabs a)
  | PInf | NInf => PInf
  | NaN => NaN
  end.

Definition add (x y : float) : float :=
  match x, y with
  | NaN, _ => NaN
  | _, NaN => NaN
  | Num a, Num b => Num (a + b)
  | Num _, PInf => PInf
  | Num _, NInf => NInf
  | PInf, NInf => NaN
  | PInf, _ => PInf
  | NInf, PInf => NaN
  | NInf, _ => NInf
  end.

Definition sub (x y : float) : float := add x (neg y).

(** [signed a x]: the infinity [x] with its sign flipped when [a < 0];
    NaN when [a] is zero (0 * inf). *)
Definition signed (a : Q) (x : float) : float :=
  match a ?= 0 with
  | Gt => x
  | Lt => neg x
  | Eq => NaN
  end.

Definition mul (x y : float) : float :=
  match x, y with
  | NaN, _ => NaN
  | _, NaN => NaN
  | Num a, Num b => Num (a * b)
  | Num a, PInf => signed a PInf
  | Num a, NInf => signed a NInf
  | PInf, Num b => signed b PInf
  | NInf, Num b => signed b NInf
  | PInf, PInf => PInf
  | NInf, NInf => PInf
  | PInf, NInf => NInf
  | NInf, PInf => NInf
  end.

(** numpy division: a finite number divided by zero is an infinity of the
    sign of the numerator, 0/0 is NaN, nothing is raised. *)
Definition div (x y : float) : float :=
  match x, y with
  | NaN, _ => NaN
  | _, NaN => NaN
  | Num a, Num b => if Qeq_bool b 0 then signed a PInf else Num (a / b)
  | Num _, PInf => Num 0
  | Num _, NInf => Num 0
  | PInf, Num b => if Qltb b 0 then NInf else PInf
  | NInf, Num b => if Qltb b 0 then PInf else NInf
  | PInf, _ => NaN
  | NInf, _ => NaN
  end.

Definition ltb (x y : float) : bool :=
  match x, y with
  | NaN, _ => false
  | _, NaN => false
  | Num a, Num b => Qltb a b
  | Num _, PInf => true
  | Num _, NInf => false
  | PInf, _ => false
  | NInf, NInf => false
  | NInf, _ => true
  end.

Definition gtb (x y : float) : bool := ltb y x.

Definition eqb (x y : float) : bool :=
  match x, y with
  | Num a, Num b => Qeq_bool a b
  | PInf, PInf => true
  | NInf, NInf => true
  | _, _ => false
  end.

Definition leb (x y : float) : bool := ltb x y || eqb x y.
Definition geb (x y : float) : bool := leb y x.

(** Python's builtin [min(a, b)]: the first argument unless the second is
    strictly smaller. *)
Definition pymin (a b : float) : float := if ltb b a then b else a.

(** Python's builtin [max(a, b)]. *)
Definition pymax (a b : float) : float := if ltb a b then b else a.

(** A float that is a number (neither missing nor infinite). *)
Definition is_num (x : float) : Prop := exists q, x = Num q.

(** A float that is a number and is not negative. *)
Definition nonneg_num (x : float) : Prop := exists q, x = Num q /\ 0 <= q.

(** A float that is a number between two rational bounds. *)
Definition within (lo hi : Q) (x : float) : Prop :=
  exists q, x = Num q /\ lo <= q /\ q <= hi.

End Float.

Import Float.

(** ** Signed 64-bit integers: numpy's [int64] with its wrap-around *)

Module Int64.

Definition wrap (z : Z) : Z := ((z + 2 ^ 63) mod 2 ^ 64 - 2 ^ 63)%Z.

Definition add (a b : Z) : Z := wrap (a + b).

(** The sum of an [int64] column. *)
Definition sum (l : list Z) : Z := fold_left add l 0%Z.

End Int64.

(** ** [app/strategies/base.py]: the position book of a strategy *)

Module BaseStrategy.

(** One entry of [self.positions]: [{'quantity': q, 'avg_price': a}]. *)
Record position := Position { quantity : Z; avg_price : Q }.

Definition zero_position : position := Position 0 0.

(** [update_position(stock_code, action, quantity, price)]: the outcome of
    the call and [self.positions] afterwards (also when it raises). *)
Definition update_position (stock_code action : string) (qty : Z) (price : Q)
    (positions : gmap string position) : outcome unit * gmap string position :=
  let positions :=
    match positions !! stock_code with
    | None => <[stock_code := zero_position]> positions
    | Some _ => positions
    end in
  if String.eqb action "BUY" then
    match positions !! stock_code with
    | Some cur =>
        let current_qty := quantity cur in
        let current_avg := avg_price cur in
        let new_qty := (current_qty + qty)%Z in
        if (new_qty =? 0)%Z then (Raised ZeroDivisionError, positions)
        else
          let new_avg :=
            (inject_Z current_qty * current_avg + inject_Z qty * price)
            / inject_Z new_qty in
          (Returned tt, <[stock_code := Position new_qty new_avg]> positions)
    | None => (Raised KeyError, positions)
    end
  else if String.eqb action "SELL" then
    match positions !! stock_code with
    | Some cur =>
        let cur' := Position (quantity cur - qty) (avg_price cur) in
        let positions := <[stock_code := cur']> positions in
        if (quantity cur' <=? 0)%Z
        then (Returned tt, delete stock_code positions)
        else (Returned tt, positions)
    | None => (Raised KeyError, positions)
    end
  else (Returned tt, positions).

(** The quantity held for an instrument; nothing held when it has no entry. *)
Definition held (positions : gmap string position) (stock_code : string) : Z :=
  from_option quantity 0%Z (positions !! stock_code).

(** The behaviour the specification words for a rejected fill: an error is
    reported and the book is the one before the call. *)
Definition rejected_unchanged (positions : gmap string position)
    (r : outcome unit * gmap string position) : Prop :=
  (exists e, fst r = Raised e) /\ snd r = positions.


Section PositionSize.

(** Rounding of a real number to the nearest float.  It is kept as a
    parameter: the properties of [calculate_position_size] use only that
    it is monotone and leaves the whole numbers up to 2^53 as they are,
    which holds for the binary64 rounding of Python's floats. *)
Variable fl : Q -> Q.


End PositionSize.

End BaseStrategy.

Import BaseStrategy.

Definition sample_book : gmap string position :=
  {[ "005930"%string := Position 5 (100 # 1) ]}.


(** ** The pandas operations the analyzer uses

    A [Series] of floats is a [list float]; a missing value is [NaN]. *)

Module Pandas.

Definition of_nat (n : nat) : float := of_Z (Z.of_nat n).

(** [Series.iloc[-1]]: the last entry, [IndexError] on an empty series. *)
Definition iloc_last {A} (s : list A) : outcome A :=
  match last s with
  | Some x => Returned x
  | None => Raised IndexError
  end.

(** [s.iloc[-2] if len(s) > 1 else dflt]. *)
Definition iloc_prev {A} (s : list A) (dflt : A) : A :=
  if (1 <? length s)%nat then default dflt (s !! (length s - 2)%nat) else dflt.

(** [s.shift()]: every entry moves one position down, the first is missing. *)
Definition shift (s : list float) : list float := take (length s) (NaN :: s).

(** [s.diff()]. *)
Definition diff (s : list float) : list float := zip_with sub s (shift s).

(** [s.where(cond, other)]: keep the entries that satisfy [cond]. *)
Definition where_ (cond : float -> bool) (other : float) (s : list float)
    : list float :=
  map (fun x => if cond x then x else other) s.

Definition dropna (s : list float) : list float :=
  List.filter (fun x => negb (is_nan x)) s.

Definition sum (s : list float) : float := fold_left add s (Num 0).

(** Mean of the observations of a window; NaN for no observation. *)
Definition mean (obs : list float) : float := div (sum obs) (of_nat (length obs)).

Definition maximum (obs : list float) : float :=
  match obs with
  | [] => NaN
  | x :: r => fold_left pymax r x
  end.

Definition minimum (obs : list float) : float :=
  match obs with
  | [] => NaN
  | x :: r => fold_left pymin r x
  end.

(** The window that ends at position [i]: the last [window] entries up to
    and including [i], fewer near the start of the series. *)
Definition window_at (window i : nat) (s : list float) : list float :=
  drop (i + 1 - window) (take (i + 1) s).

(** [s.rolling(window=window).agg()]: [min_periods] defaults to the window
    size, so a position with fewer than [window] observations (too early in
    the series, or a missing value in the window) is NaN. *)
Definition rolling (window : nat) (agg : list float -> float) (s : list float)
    : list float :=
  map (fun i =>
         let obs := dropna (window_at window i s) in
         if (length obs <? window)%nat then NaN else agg obs)
      (seq 0 (length s)).

(** [DataFrame.max(axis=1)] on one row: the largest non-missing entry. *)
Definition row_max (row : list float) : float := maximum (dropna row).

Fixpoint ewm_from (alpha prev : float) (s : list float) : list float :=
  match s with
  | [] => []
  | x :: r =>
      let y := add (mul (sub (Num 1) alpha) prev) (mul alpha x) in
      y :: ewm_from alpha y r
  end.

(** [s.ewm(span=span, adjust=False).mean()] on a series without missing
    values: [y0 = x0], [y_t = (1 - alpha) y_(t-1) + alpha x_t] with
    [alpha = 2 / (span + 1)]; pandas refuses a span below 1. *)
Definition ewm_mean (span : nat) (s : list float) : outcome (list float) :=
  if (span <? 1)%nat then Raised ValueError
  else
    let alpha := div (Num 2) (of_nat (span + 1)) in
    Returned match s with
             | [] => []
             | x0 :: r => x0 :: ewm_from alpha x0 r
             end.

Section Std.

(** The square root on non-negative rationals. *)
Variable sqrt : Q -> Q.

Definition fsqrt (x : float) : float :=
  match x with
  | Num q => if Qltb q 0 then NaN else Num (sqrt q)
  | PInf => PInf
  | NInf => NaN
  | NaN => NaN
  end.

(** Sample standard deviation ([ddof=1], the default of [rolling().std()]);
    NaN with fewer than two observations. *)
Definition std (obs : list float) : float :=
  let n := length obs in
  if (n <=? 1)%nat then NaN
  else
    let m := mean obs in
    let sq := map (fun x => mul (sub x m) (sub x m)) obs in
    fsqrt (div (sum sq) (of_nat (n - 1))).

End Std.

End Pandas.

Import Pandas.

(** ** [app/analyzers/technical_analyzer.py] *)

Module TechnicalAnalyzer.

(** One row of the price DataFrame (the columns the analyzer reads). *)
Record bar := Bar { high : Q; low : Q; close : Q; volume : Q }.

(** [df[c]] as a float series. *)
Definition col (c : bar -> Q) (df : list bar) : list float :=
  map (fun b => Num (c b)) df.

Definition calculate_sma (s : list float) (period : nat) : list float :=
  rolling period mean s.

Definition calculate_ema (s : list float) (period : nat) : outcome (list float) :=
  ewm_mean period s.

Definition true_range (df : list bar) : list float :=
  let high_low := zip_with sub (col high df) (col low df) in
  let high_close :=
    map abs (zip_with sub (col high df) (shift (col close df))) in
  let low_close :=
    map abs (zip_with sub (col low df) (shift (col close df))) in
  zip_with (fun a bc => row_max [a; fst bc; snd bc])
           high_low (zip_with pair high_close low_close).

Definition calculate_atr (df : list bar) (period : nat) : list float :=
  rolling period mean (true_range df).

Section Bands.

Variable sqrt : Q -> Q.

(** Returns [(upper_band, sma, lower_band)]. *)
Definition calculate_bollinger_bands (df : list bar) (period : nat)
    (std_dev : float) : list float * list float * list float :=
  let sma := calculate_sma (col close df) period in
  let sd := rolling period (std sqrt) (col close df) in
  let upper_band := zip_with add sma (map (fun s => mul s std_dev) sd) in
  let lower_band := zip_with sub sma (map (fun s => mul s std_dev) sd) in
  (upper_band, sma, lower_band).

(** [np.polyfit(x, y, 1)[0]] for [x = 0 .. len(y) - 1]: the slope of the
    least-squares line, in closed form. *)
Definition polyfit_slope (y : list float) : float :=
  let n := of_nat (length y) in
  let x := map of_nat (seq 0 (length y)) in
  let sx := sum x in
  let sy := sum y in
  let sxy := sum (zip_with mul x y) in
  let sxx := sum (zip_with mul x x) in
  div (sub (mul n sxy) (mul sx sy)) (sub (mul n sxx) (mul sx sx)).

(** The result dictionary of [calculate_squeeze_momentum]. *)
Record squeeze_data := SqueezeData {
  squeeze_on : list bool;
  squeeze_off : list bool;
  no_squeeze : list bool;
  momentum : list float;
  bb_upper : list float;
  bb_lower : list float;
  kc_upper : list float;
  kc_lower : list float
}.

(** Lines 58-60 at one bar. *)
Definition squeeze_on_at (bbl bbu kcl kcu : float) : bool :=
  gtb bbl kcl && ltb bbu kcu.
Definition squeeze_off_at (bbl bbu kcl kcu : float) : bool :=
  ltb bbl kcl || gtb bbu kcu.
Definition no_squeeze_at (bbl bbu kcl kcu : float) : bool :=
  negb (squeeze_on_at bbl bbu kcl kcu || squeeze_off_at bbl bbu kcl kcu).

(** Applies [f] to the four band values of every bar. *)
Definition per_bar (f : float -> float -> float -> float -> bool)
    (bbl bbu kcl kcu : list float) : list bool :=
  zip_with (fun bb kc => f (fst bb) (snd bb) (fst kc) (snd kc))
           (zip_with pair bbl bbu) (zip_with pair kcl kcu).

Definition calculate_squeeze_momentum (df : list bar)
    (bb_length kc_length : nat) (kc_mult : float) (mom_length : nat)
    : squeeze_data :=
  let '(bb_upper, bb_middle, bb_lower) :=
    calculate_bollinger_bands df bb_length (Num 2) in
  let hl2 :=
    map (fun x => div x (Num 2)) (zip_with add (col high df) (col low df)) in
  let kc_middle := calculate_sma hl2 kc_length in
  let atr := calculate_atr df kc_length in
  let kc_upper := zip_with add kc_middle (map (fun a => mul a kc_mult) atr) in
  let kc_lower := zip_with sub kc_middle (map (fun a => mul a kc_mult) atr) in
  let highest := rolling mom_length maximum (col high df) in
  let lowest := rolling mom_length minimum (col low df) in
  let m1 := map (fun x => div x (Num 2)) (zip_with add highest lowest) in
  let m2 :=
    map (fun x => div x (Num 2))
        (zip_with add m1 (calculate_sma (col close df) mom_length)) in
  let mom := zip_with sub (col close df) m2 in
  let momentum_values :=
    map (fun i =>
           if (i <? mom_length)%nat then Num 0
           else
             let y := window_at mom_length i mom in
             if (1 <? length y)%nat then polyfit_slope y else Num 0)
        (seq 0 (length mom)) in
  {| squeeze_on := per_bar squeeze_on_at bb_lower bb_upper kc_lower kc_upper;
     squeeze_off := per_bar squeeze_off_at bb_lower bb_upper kc_lower kc_upper;
     no_squeeze := per_bar no_squeeze_at bb_lower bb_upper kc_lower kc_upper;
     momentum := momentum_values;
     bb_upper := bb_upper;
     bb_lower := bb_lower;
     kc_upper := kc_upper;
     kc_lower := kc_lower |}.

End Bands.

(** The result dictionary of [calculate_macd]. *)
Record macd_data := MacdData {
  macd : list float;
  signal : list float;
  histogram : list float
}.

Definition calculate_macd (df : list bar) (fast slow sig : nat)
    : outcome macd_data :=
  do ema_fast <- calculate_ema (col close df) fast;
  do ema_slow <- calculate_ema (col close df) slow;
  let macd_line := zip_with sub ema_fast ema_slow in
  do macd_signal <- calculate_ema macd_line sig;
  let macd_histogram := zip_with sub macd_line macd_signal in
  Returned {| macd := macd_line; signal := macd_signal;
              histogram := macd_histogram |}.

(** The [gain] and [loss] series of [calculate_rsi]. *)
Definition rsi_gain (df : list bar) : list float :=
  where_ (fun d => gtb d (Num 0)) (Num 0) (diff (col close df)).

Definition rsi_loss (df : list bar) : list float :=
  map neg (where_ (fun d => ltb d (Num 0)) (Num 0) (diff (col close df))).

(** The right-hand side of the assignment of the smoothing loop:
    [(prev * (period - 1) + value) / period]. *)
Definition wilder_value (period : nat) (prev value : float) : float :=
  div (add (mul prev (of_Z (Z.of_nat period - 1))) value) (of_nat period).

(** One pass of the loop body for one of the two series:
    [avg.iloc[i] = (avg.iloc[i - 1] * (period - 1) + value.iloc[i]) / period]. *)
Definition wilder_step (period : nat) (value : list float) (avg : list float)
    (i : nat) : list float :=
  <[ i := wilder_value period (default NaN (avg !! (i - 1)%nat))
                       (default NaN (value !! i)) ]> avg.

(** The rolling mean followed by the loop [for i in range(period, len(gain))],
    which overwrites the series in place from left to right. *)
Definition wilder_smooth (period : nat) (value : list float) : list float :=
  fold_left (wilder_step period value)
            (seq period (length value - period))
            (rolling period mean value).

Definition rsi_avg_gain (df : list bar) (period : nat) : list float :=
  wilder_smooth period (rsi_gain df).

Definition rsi_avg_loss (df : list bar) (period : nat) : list float :=
  wilder_smooth period (rsi_loss df).

Definition rsi_of_rs (rs : float) : float :=
  sub (Num 100) (div (Num 100) (add (Num 1) rs)).

Definition calculate_rsi (df : list bar) (period : nat) : list float :=
  let rs := zip_with div (rsi_avg_gain df period) (rsi_avg_loss df period) in
  map rsi_of_rs rs.

(** A right-closed price interval [(left, right]], a category of [pd.cut]. *)
Record interval := Interval { left : Q; right : Q }.

Definition mid (iv : interval) : Q := (left iv + right iv) / 2.

Definition contains (iv : interval) (v : Q) : bool :=
  Qltb (left iv) v && Qle_bool v (right iv).

(** [np.linspace(a, b, bins + 1)]. *)
Definition linspace (a b : Q) (bins : nat) : list Q :=
  map (fun k => a + inject_Z (Z.of_nat k) * ((b - a) / inject_Z (Z.of_nat bins)))
      (seq 0 (bins + 1)).

Definition Qlist_min (x0 : Q) (r : list Q) : Q := fold_left Qmin r x0.
Definition Qlist_max (x0 : Q) (r : list Q) : Q := fold_left Qmax r x0.

Fixpoint breaks_to_intervals (edges : list Q) : list interval :=
  match edges with
  | a :: (b :: _) as r => Interval a b :: breaks_to_intervals r
  | _ => []
  end.

(** How far [pd.cut] moves an end point of a range of zero width:
    0.1% of its magnitude, 0.001 at zero. *)
Definition degenerate_pad (v : Q) : Q :=
  if Qeq_bool v 0 then 1 # 1000 else (1 # 1000) * Qabs v.

(** The break points [pd.cut(x, bins=bins)] computes for an integer [bins]:
    [bins] equal-width buckets over the range of [x]; the range is widened
    by 0.1% on the left so that the minimum falls into the first bucket; a
    range of zero width is first widened by 0.1% of the value on each side
    (by 0.001 around zero).  pandas refuses [bins < 1] and an empty input. *)
Definition cut_edges (x : list Q) (bins : nat) : outcome (list Q) :=
  if (bins <? 1)%nat then Raised ValueError
  else
    match x with
    | [] => Raised ValueError
    | x0 :: r =>
        let mn := Qlist_min x0 r in
        let mx := Qlist_max x0 r in
        if Qeq_bool mn mx then
          Returned (linspace (mn - degenerate_pad mn) (mx + degenerate_pad mx)
                             bins)
        else
          match linspace mn mx bins with
          | e0 :: es => Returned ((e0 - (mx - mn) * (1 # 1000)) :: es)
          | [] => Returned []
          end
    end.

(** [pd.cut]: the categories (pandas also rounds their end points to a
    display precision, which is not modelled). *)
Definition cut (x : list Q) (bins : nat) : outcome (list interval) :=
  do edges <- cut_edges x bins;
  Returned (breaks_to_intervals edges).

(** [df.groupby(price_bins)['volume'].sum()] in exact arithmetic, with one
    row per category given: the volume of the bars whose close is in the
    category.  Which categories get a row is [observed_categories] below;
    the wrapping sums of an [int64] column are [groupby_volume_int64]. *)
Definition groupby_volume (cats : list interval) (df : list bar)
    : list (interval * Q) :=
  map (fun iv =>
         (iv, fold_left Qplus
                (map volume (List.filter (fun b => contains iv (close b)) df))
                0))
      cats.

Fixpoint idxmax_from (best : interval * Q) (rest : list (interval * Q))
    : interval :=
  match rest with
  | [] => fst best
  | c :: rest' =>
      idxmax_from (if Qltb (snd best) (snd c) then c else best) rest'
  end.

(** [Series.idxmax()]: the label of the first largest entry. *)
Definition idxmax (s : list (interval * Q)) : outcome interval :=
  match s with
  | [] => Raised ValueError
  | c :: rest => Returned (idxmax_from c rest)
  end.

(** The result dictionary of [calculate_volume_profile]. *)
Record volume_analysis := VolumeAnalysis {
  volume_profile : list (interval * Q);
  poc : Q;
  avg_volume : list float
}.

(** The body of the [try] block. *)
Definition volume_profile_try (df : list bar) (bins : nat)
    : outcome volume_analysis :=
  do price_bins <- cut (map close df) bins;
  let price_volume := groupby_volume price_bins df in
  do max_volume_idx <- idxmax price_volume;
  Returned {| volume_profile := price_volume;
              poc := mid max_volume_idx;
              avg_volume := rolling 20 mean (col volume df) |}.

(** The dictionary of the [except] branch. *)
Definition volume_profile_fallback (df : list bar) : volume_analysis :=
  {| volume_profile := [];
     poc := match last df with Some b => close b | None => 0 end;
     avg_volume := rolling 20 mean (col volume df) |}.

Definition calculate_volume_profile (df : list bar) (bins : nat)
    : volume_analysis :=
  match volume_profile_try df bins with
  | Returned r => r
  | Raised _ => volume_profile_fallback df
  end.

(** Line 188 passes no [observed=] to [groupby], so the rows of the profile
    follow the default of the installed pandas: one row for every category
    before pandas 3 ([observed=False], as [groupby_volume] is used above),
    from pandas 3 on only the categories that hold a bar
    ([observed=True]).  [observed_categories] are the categories that get a
    row under the default [observed]. *)
Definition observed_categories (observed : bool) (cats : list interval)
    (df : list bar) : list interval :=
  if observed
  then List.filter (fun iv => existsb (fun b => contains iv (close b)) df) cats
  else cats.

(** The [try] block and the whole function under the default [observed];
    for [observed = false] they are [volume_profile_try] and
    [calculate_volume_profile]. *)
Definition volume_profile_try_under (observed : bool) (df : list bar)
    (bins : nat) : outcome volume_analysis :=
  do price_bins <- cut (map close df) bins;
  let price_volume :=
    groupby_volume (observed_categories observed price_bins df) df in
  do max_volume_idx <- idxmax price_volume;
  Returned {| volume_profile := price_volume;
              poc := mid max_volume_idx;
              avg_volume := rolling 20 mean (col volume df) |}.

Definition calculate_volume_profile_under (observed : bool) (df : list bar)
    (bins : nat) : volume_analysis :=
  match volume_profile_try_under observed df bins with
  | Returned r => r
  | Raised _ => volume_profile_fallback df
  end.

(** The [volume] column as the strategies' [analyze] builds it:
    [pd.to_numeric] turns the broker's whole-number strings into an [int64]
    column, and the sums of [groupby] over it wrap around.  [int64_volume]
    is the entry of that column for a bar with a whole-number volume. *)
Definition int64_volume (b : bar) : Z := Int64.wrap (Qfloor (volume b)).

Definition groupby_volume_int64 (cats : list interval) (df : list bar)
    : list (interval * Z) :=
  map (fun iv =>
         (iv, Int64.sum
                (map int64_volume
                     (List.filter (fun b => contains iv (close b)) df))))
      cats.

(** Lines 187-188 on an [int64] volume column, under the default
    [observed]. *)
Definition price_volume_int64 (observed : bool) (df : list bar) (bins : nat)
    : outcome (list (interval * Z)) :=
  do price_bins <- cut (map close df) bins;
  Returned (groupby_volume_int64 (observed_categories observed price_bins df)
                                 df).

(** The result dictionary of [calculate_stochastic]. *)
Record stochastic := Stochastic {
  k_percent : list float;
  d_percent : list float
}.

(** [%D] is a rolling mean of [%K]; pandas' rolling mean is modelled on
    series without infinities, which is what bars with
    [low <= close <= high] give for [%K]. *)
Definition calculate_stochastic (df : list bar) (k_period d_period : nat)
    : stochastic :=
  let lowest_low := rolling k_period minimum (col low df) in
  let highest_high := rolling k_period maximum (col high df) in
  let k_percent :=
    map (mul (Num 100))
        (zip_with div (zip_with sub (col close df) lowest_low)
                      (zip_with sub highest_high lowest_low)) in
  let d_percent := rolling d_period mean k_percent in
  {| k_percent := k_percent; d_percent := d_percent |}.

Definition calculate_williams_r (df : list bar) (period : nat) : list float :=
  let highest_high := rolling period maximum (col high df) in
  let lowest_low := rolling period minimum (col low df) in
  map (mul (Num (-100)))
      (zip_with div (zip_with sub highest_high (col close df))
                    (zip_with sub highest_high lowest_low)).

(** [np.mean(np.abs(x - x.mean()))] on one window, in exact arithmetic.
    In floats the mean of equal values need not be that value, so nothing
    below relies on a deviation being exactly 0. *)
Definition mean_abs_deviation (obs : list float) : float :=
  mean (map (fun x => abs (sub x (mean obs))) obs).

Definition typical_price (df : list bar) : list float :=
  map (fun x => div x (Num 3))
      (zip_with add (zip_with add (col high df) (col low df)) (col close df)).

Definition calculate_cci (df : list bar) (period : nat) : list float :=
  let tp := typical_price df in
  let sma_tp := rolling period mean tp in
  let mad := rolling period mean_abs_deviation tp in
  zip_with div (zip_with sub tp sma_tp) (map (mul (Num (15 # 1000))) mad).

(** The loop of [calculate_obv] from the second bar on: the close and the
    OBV of the bar before are carried along. *)
Fixpoint obv_from (prev_close : Q) (prev_obv : float) (rest : list bar)
    : list float :=
  match rest with
  | [] => []
  | b :: rest' =>
      let o :=
        if Qltb prev_close (close b) then add prev_obv (Num (volume b))
        else if Qltb (close b) prev_close then sub prev_obv (Num (volume b))
        else prev_obv in
      o :: obv_from (close b) o rest'
  end.

(** [obv.iloc[0] = df['volume'].iloc[0]] raises [IndexError] on an empty
    frame. *)
Definition calculate_obv (df : list bar) : outcome (list float) :=
  match df with
  | [] => Raised IndexError
  | b0 :: rest =>
      Returned (Num (volume b0) :: obv_from (close b0) (Num (volume b0)) rest)
  end.

(** The two directional-movement series of [calculate_adx] after the two
    [where] filters; the second filter reads the first one's result. *)
Definition adx_plus_dm (df : list bar) : list float :=
  zip_with (fun p m => if gtb p m && gtb p (Num 0) then p else Num 0)
           (diff (col high df)) (map neg (diff (col low df))).

Definition adx_minus_dm (df : list bar) : list float :=
  zip_with (fun m p => if gtb m p && gtb m (Num 0) then m else Num 0)
           (map neg (diff (col low df))) (adx_plus_dm df).

Definition directional_index (dm_smooth tr_smooth : list float) : list float :=
  map (mul (Num 100)) (zip_with div dm_smooth tr_smooth).

(** [100 * np.abs(plus_di - minus_di) / (plus_di + minus_di)] at one bar. *)
Definition dx_at (plus minus : float) : float :=
  div (mul (Num 100) (abs (sub plus minus))) (add plus minus).

(** The result dictionary of [calculate_adx]. *)
Record adx_data := AdxData {
  adx : list float;
  plus_di : list float;
  minus_di : list float
}.

(** [tr], the directional movements and, on bars with [low <= high], [dx]
    hold no infinity, so the rolling means are taken over numbers and
    missing values only. *)
Definition calculate_adx (df : list bar) (period : nat) : adx_data :=
  let tr := map (fun x => mul x (Num 1)) (calculate_atr df 1) in
  let tr_smooth := rolling period mean tr in
  let plus_dm_smooth := rolling period mean (adx_plus_dm df) in
  let minus_dm_smooth := rolling period mean (adx_minus_dm df) in
  let plus_di := directional_index plus_dm_smooth tr_smooth in
  let minus_di := directional_index minus_dm_smooth tr_smooth in
  let dx := zip_with dx_at plus_di minus_di in
  {| adx := rolling period mean dx; plus_di := plus_di; minus_di := minus_di |}.

End TechnicalAnalyzer.

(** ** [app/strategies/squeeze_momentum.py] *)

Module SqueezeMomentumStrategy.

Record params := Params {
  bb_length : nat;
  kc_length : nat;
  kc_mult : float;
  mom_length : nat;
  min_momentum : float;
  volume_threshold : float
}.

Record strategy := Strategy {
  name : string;
  strategy_params : params;
  is_active : bool;
  positions : gmap string position
}.

(** [SqueezeMomentumStrategy()]. *)
Definition init : strategy :=
  {| name := "Squeeze Momentum";
     strategy_params :=
       {| bb_length := 20; kc_length := 20; kc_mult := Num (3 # 2);
          mom_length := 12; min_momentum := Num (1 # 2);
          volume_threshold := Num (3 # 2) |};
     is_active := true;
     positions := ∅ |}.

(** The dictionary [analyze] returns and [generate_signals] reads. *)
Record analysis := Analysis {
  squeeze_data : TechnicalAnalyzer.squeeze_data;
  volume_analysis : TechnicalAnalyzer.volume_analysis;
  current_price : float;
  current_volume : float
}.

Record signal := Signal {
  stock_code : string;
  action : string;
  reason : string;
  momentum : float;
  price : float;
  confidence : float
}.

Definition analyze (sqrt : Q -> Q) (df : list TechnicalAnalyzer.bar)
    : outcome analysis :=
  let squeeze :=
    TechnicalAnalyzer.calculate_squeeze_momentum sqrt df 20 20 (Num (3 # 2)) 12 in
  let vol := TechnicalAnalyzer.calculate_volume_profile df 20 in
  do price <- iloc_last (TechnicalAnalyzer.col TechnicalAnalyzer.close df);
  do volume <- iloc_last (TechnicalAnalyzer.col TechnicalAnalyzer.volume df);
  Returned {| squeeze_data := squeeze; volume_analysis := vol;
              current_price := price; current_volume := volume |}.

Definition generate_signals (self : strategy) (code : string) (a : analysis)
    : outcome (list signal) :=
  let sd := squeeze_data a in
  do current_momentum <- iloc_last (TechnicalAnalyzer.momentum sd);
  let prev_momentum := iloc_prev (TechnicalAnalyzer.momentum sd) (Num 0) in
  do squeeze_off_current <- iloc_last (TechnicalAnalyzer.squeeze_off sd);
  let squeeze_on_prev := iloc_prev (TechnicalAnalyzer.squeeze_on sd) false in
  do avg_volume <-
    iloc_last (TechnicalAnalyzer.avg_volume (volume_analysis a));
  let volume_surge :=
    gtb (current_volume a)
        (mul avg_volume (volume_threshold (strategy_params self))) in
  if squeeze_off_current && squeeze_on_prev
     && gtb current_momentum (min_momentum (strategy_params self))
     && gtb current_momentum prev_momentum && volume_surge
  then
    Returned [ {| stock_code := code;
                  action := "BUY";
                  reason := "Squeeze 해제 + 상승 모멘텀";
                  momentum := current_momentum;
                  price := current_price a;
                  confidence :=
                    pymin (mul (abs current_momentum) (Num 10)) (Num 100) |} ]
  else if ltb current_momentum (Num 0) && gtb prev_momentum (Num 0)
          && bool_decide (is_Some (positions self !! code))
  then
    Returned [ {| stock_code := code;
                  action := "SELL";
                  reason := "모멘텀 하락 전환";
                  momentum := current_momentum;
                  price := current_price a;
                  confidence :=
                    pymin (mul (abs current_momentum) (Num 10)) (Num 100) |} ]
  else Returned [].


End SqueezeMomentumStrategy.

(** ** [app/strategies/macd_strategy.py] *)

Module MACDStrategy.

Record params := Params {
  fast_period : nat;
  slow_period : nat;
  signal_period : nat;
  min_histogram : float;
  rsi_oversold : float;
  rsi_overbought : float
}.

Record strategy := Strategy {
  name : string;
  strategy_params : params;
  is_active : bool;
  positions : gmap string position
}.

(** [MACDStrategy()]. *)
Definition init : strategy :=
  {| name := "MACD Strategy";
     strategy_params :=
       {| fast_period := 12; slow_period := 26; signal_period := 9;
          min_histogram := Num (1 # 10); rsi_oversold := Num 30;
          rsi_overbought := Num 70 |};
     is_active := true;
     positions := ∅ |}.

Record analysis := Analysis {
  macd_data : TechnicalAnalyzer.macd_data;
  rsi : list float;
  volume_analysis : TechnicalAnalyzer.volume_analysis;
  current_price : float;
  current_volume : float
}.

(** A signal dictionary; its keys ['signal'] and ['rsi'] are the fields
    [signal_line] and [signal_rsi]. *)
Record signal := Signal {
  stock_code : string;
  action : string;
  reason : string;
  macd : float;
  signal_line : float;
  histogram : float;
  signal_rsi : float;
  price : float;
  confidence : float
}.

Definition analyze (df : list TechnicalAnalyzer.bar) : outcome analysis :=
  do md <- TechnicalAnalyzer.calculate_macd df 12 26 9;
  let r := TechnicalAnalyzer.calculate_rsi df 14 in
  let vol := TechnicalAnalyzer.calculate_volume_profile df 20 in
  do price <- iloc_last (TechnicalAnalyzer.col TechnicalAnalyzer.close df);
  do volume <- iloc_last (TechnicalAnalyzer.col TechnicalAnalyzer.volume df);
  Returned {| macd_data := md; rsi := r; volume_analysis := vol;
              current_price := price; current_volume := volume |}.

Definition generate_signals (self : strategy) (code : string) (a : analysis)
    : outcome (list signal) :=
  let md := macd_data a in
  do current_macd <- iloc_last (TechnicalAnalyzer.macd md);
  do current_signal <- iloc_last (TechnicalAnalyzer.signal md);
  do current_histogram <- iloc_last (TechnicalAnalyzer.histogram md);
  let prev_histogram := iloc_prev (TechnicalAnalyzer.histogram md) (Num 0) in
  do current_rsi <- iloc_last (rsi a);
  let min_hist := min_histogram (strategy_params self) in
  if gtb current_macd current_signal
     && leb prev_histogram (Num 0) && gtb current_histogram (Num 0)
     && ltb current_rsi (Num 50) && gtb current_histogram min_hist
  then
    Returned [ {| stock_code := code;
                  action := "BUY";
                  reason := "MACD 골든크로스 + RSI 과매도";
                  macd := current_macd;
                  signal_line := current_signal;
                  histogram := current_histogram;
                  signal_rsi := current_rsi;
                  price := current_price a;
                  confidence :=
                    pymin (mul (div current_histogram min_hist) (Num 20))
                          (Num 100) |} ]
  else if ltb current_macd current_signal
          && geb prev_histogram (Num 0) && ltb current_histogram (Num 0)
          && gtb current_rsi (Num 50)
          && bool_decide (is_Some (positions self !! code))
  then
    Returned [ {| stock_code := code;
                  action := "SELL";
                  reason := "MACD 데드크로스 + RSI 과매수";
                  macd := current_macd;
                  signal_line := current_signal;
                  histogram := current_histogram;
                  signal_rsi := current_rsi;
                  price := current_price a;
                  confidence :=
                    pymin (mul (div (abs current_histogram) min_hist) (Num 20))
                          (Num 100) |} ]
  else Returned [].

End MACDStrategy.

(** ** Sample inputs *)

Module Samples.

Import TechnicalAnalyzer.

Definition no_volume_analysis (avg : list float) : volume_analysis :=
  {| volume_profile := []; poc := 0; avg_volume := avg |}.

Definition squeeze_data_of (on_ off_ : list bool) (mom : list float)
    : squeeze_data :=
  {| squeeze_on := on_; squeeze_off := off_;
     no_squeeze := zip_with (fun a b => negb (a || b)) on_ off_;
     momentum := mom;
     bb_upper := []; bb_lower := []; kc_upper := []; kc_lower := [] |}.

(** A squeeze released on the last bar with a steep, rising slope and a
    volume surge. *)
Definition squeeze_breakout : SqueezeMomentumStrategy.analysis :=
  {| SqueezeMomentumStrategy.squeeze_data :=
       squeeze_data_of [true; false] [false; true] [Num (1 # 5); Num 12];
     SqueezeMomentumStrategy.volume_analysis := no_volume_analysis [Num 100];
     SqueezeMomentumStrategy.current_price := Num 1000;
     SqueezeMomentumStrategy.current_volume := Num 200 |}.



(** A squeeze strategy that holds the position of [sample_book]. *)
Definition squeeze_holding : SqueezeMomentumStrategy.strategy :=
  {| SqueezeMomentumStrategy.name := "Squeeze Momentum";
     SqueezeMomentumStrategy.strategy_params :=
       SqueezeMomentumStrategy.strategy_params SqueezeMomentumStrategy.init;
     SqueezeMomentumStrategy.is_active := true;
     SqueezeMomentumStrategy.positions := sample_book |}.

(** A golden cross: the histogram goes from -0.1 to 0.6 with RSI at 45. *)
Definition macd_golden_cross : MACDStrategy.analysis :=
  {| MACDStrategy.macd_data :=
       {| macd := [Num (-(1 # 2)); Num 1];
          signal := [Num (-(2 # 5)); Num (2 # 5)];
          histogram := [Num (-(1 # 10)); Num (3 # 5)] |};
     MACDStrategy.rsi := [Num 40; Num 45];
     MACDStrategy.volume_analysis := no_volume_analysis [Num 100];
     MACDStrategy.current_price := Num 1000;
     MACDStrategy.current_volume := Num 100 |}.

End Samples.

(** ** Expected outputs on the sample inputs *)

Module Expected.

Definition squeeze_breakout_signals : list SqueezeMomentumStrategy.signal :=
  [ SqueezeMomentumStrategy.Signal "005930" "BUY" "Squeeze 해제 + 상승 모멘텀"
      (Num 12) (Num 1000) (Num 100) ].


Definition macd_golden_cross_signals : list MACDStrategy.signal :=
  [ MACDStrategy.Signal "005930" "BUY" "MACD 골든크로스 + RSI 과매도"
      (Num 1) (Num (2 # 5)) (Num (3 # 5)) (Num 45) (Num 1000) (Num 100) ].

End Expected.

(** ** The squeeze states in the words of the specification *)

Module SqueezeSpec.

Inductive squeeze_state := On | Off | NoSqueeze.

(** [On]: the Bollinger band is strictly inside the Keltner channel;
    [Off]: it is strictly outside (both edges beyond the channel);
    [NoSqueeze]: neither, the bands straddle. *)
Definition spec_squeeze_state (bbl bbu kcl kcu : float) : squeeze_state :=
  if gtb bbl kcl && ltb bbu kcu then On
  else if ltb bbl kcl && gtb bbu kcu then Off
  else NoSqueeze.

Definition exactly_one (a b c : bool) : bool :=
  match a, b, c with
  | true, false, false => true
  | false, true, false => true
  | false, false, true => true
  | _, _, _ => false
  end.

End SqueezeSpec.

(** ** Sample bar series *)

Module Bars.

Import TechnicalAnalyzer.

(** A square root for the examples: exact on the squares of rationals. *)
Definition sqrt_floor (q : Q) : Q :=
  let r := Qred q in Z.sqrt (Qnum r) # Pos.sqrt (Qden r).

(** Two bars: shorter than any period above 2. *)
Definition two_bars : list bar :=
  [ Bar 11 9 10 500; Bar 12 10 11 700 ].

(** Three bars (closes 1, 2, 3) whose Bollinger band [0, 4] at the last bar
    has its lower edge below and its upper edge inside the Keltner channel
    [1/2, 13/2], for windows of 3 (Bollinger) and 1 (Keltner). *)
Definition straddle_bars : list bar :=
  [ Bar 1 1 1 100; Bar 2 2 2 100; Bar 4 3 3 100 ].

(** Flat closes. *)
Definition flat_bars : list bar :=
  [ Bar 10 10 10 500; Bar 10 10 10 700; Bar 10 10 10 600 ].

(** Fifteen flat bars, one more than the default RSI period. *)
Definition flat_fifteen : list bar := replicate 15 (Bar 10 10 10 500).

(** Closes 1, 2, 4: the close-to-close deltas are 1 and 2. *)
Definition rising_bars : list bar :=
  [ Bar 1 1 1 100; Bar 2 2 2 100; Bar 4 4 4 100 ].


End Bars.

(** ** The RSI seed in the words of the specification *)

Module RsiSpec.

(** The close-to-close deltas of a series of closes: one fewer than the
    closes. *)
Definition deltas (closes : list Q) : list Q :=
  zip_with (fun prev cur => cur - prev) closes (tail closes).

Definition gain_of (d : Q) : Q := if Qltb 0 d then d else 0.
Definition loss_of (d : Q) : Q := - (if Qltb d 0 then d else 0).

(** The simple arithmetic mean of the gains (or losses) of the first
    [period] close-to-close deltas. *)
Definition spec_first_average (part : Q -> Q) (closes : list Q) (period : nat)
    : Q :=
  fold_left Qplus (map part (take period (deltas closes))) 0
  / inject_Z (Z.of_nat period).

(** The seed the code computes: the gains (or losses) of the first
    [period - 1] close-to-close deltas, summed and divided by [period]. *)
Definition seed_average (part : Q -> Q) (closes : list Q) (period : nat) : Q :=
  fold_left Qplus (map part (take (period - 1) (deltas closes))) 0
  / inject_Z (Z.of_nat period).

End RsiSpec.

(** ** Ranges of series entries *)

Module Ranges.

(** An entry that is missing or a number between two bounds. *)
Definition nan_or_within (lo hi : Q) (x : float) : Prop :=
  x = NaN \/ within lo hi x.

End Ranges.

(** ** Totals of a volume column *)

Module Totals.

Import TechnicalAnalyzer.

(** The volume of a whole frame. *)
Definition total_volume (df : list bar) : Q :=
  fold_right Qplus 0 (map volume df).

(** Running totals [start + v1, start + v1 + v2, ...]. *)
Fixpoint running_total (start : Q) (vs : list Q) : list Q :=
  match vs with
  | [] => []
  | v :: r => (start + v) :: running_total (start + v) r
  end.

(** Running differences [start - v1, start - v1 - v2, ...]. *)
Fixpoint running_difference (start : Q) (vs : list Q) : list Q :=
  match vs with
  | [] => []
  | v :: r => (start - v) :: running_difference (start - v) r
  end.

(** The volume a profile holds, all buckets together. *)
Definition profile_volume (profile : list (interval * Q)) : Q :=
  fold_right Qplus 0 (map snd profile).

(** A volume as the broker reports it: a whole number, not negative. *)
Definition whole_volume (b : bar) : Prop :=
  0 <= volume b /\ volume b == inject_Z (Qfloor (volume b)).

(** How many of the categories contain a price. *)
Definition hits (cats : list interval) (v : Q) : nat :=
  length (List.filter (fun iv => contains iv v) cats).

End Totals.

(** * Properties *)

Import BaseStrategy.

(** ** Order on floats *)

Lemma Qltb_lt (a b : Q) : Qltb a b = true <-> a < b.
Proof.
  unfold Qltb. rewrite negb_true_iff. split.
  - intros H. apply Qnot_le_lt. intros Hle.
    apply Qle_bool_iff in Hle. congruence.
  - intros H. destruct (Qle_bool b a) eqn:E; [|reflexivity].
    apply Qle_bool_iff in E. lra.
Qed.

Lemma Qltb_ge (a b : Q) : Qltb a b = false <-> b <= a.
Proof.
  unfold Qltb. rewrite negb_false_iff. apply Qle_bool_iff.
Qed.

Lemma ltb_nan_r (x : float) : ltb x NaN = false.
Proof. destruct x; reflexivity. Qed.

Lemma ltb_asym (x y : float) : ltb x y = true -> ltb y x = false.
Proof.
  destruct x, y; simpl; try congruence; try reflexivity.
  rewrite Qltb_lt, Qltb_ge. lra.
Qed.

(** ** The position book *)

Lemma update_position_sell_ge (positions : gmap string position)
    (stock_code : string) (qty : Z) (price : Q) :
  (held positions stock_code <= qty)%Z ->
  update_position stock_code "SELL" qty price positions
  = (Returned tt, delete stock_code positions).
Proof.
  intros Hq. unfold update_position, held in *. simpl.
  destruct (positions !! stock_code) as [cur|] eqn:E; simpl in *.
  - rewrite E. simpl.
    destruct (Z.leb_spec (quantity cur - qty) 0); [|lia].
    f_equal. apply delete_insert_eq.
  - rewrite lookup_insert_eq. simpl.
    destruct (Z.leb_spec (0 - qty) 0); [|lia].
    f_equal. rewrite delete_insert_eq. apply delete_insert_eq.
Qed.

Lemma update_position_buy_new (positions : gmap string position)
    (stock_code : string) (qty : Z) (price : Q) :
  positions !! stock_code = None ->
  (qty <> 0)%Z ->
  update_position stock_code "BUY" qty price positions
  = (Returned tt,
     <[stock_code :=
         Position qty ((inject_Z 0 * 0 + inject_Z qty * price) / inject_Z qty)]>
       positions).
Proof.
  intros Hn Hq. unfold update_position. rewrite Hn. simpl.
  rewrite lookup_insert_eq. simpl quantity. simpl avg_price.
  rewrite Z.add_0_l.
  destruct (Z.eqb_spec qty 0); [contradiction|].
  f_equal. apply insert_insert_eq.
Qed.

Lemma update_position_buy_more (positions : gmap string position)
    (stock_code : string) (cur : position) (qty : Z) (price : Q) :
  positions !! stock_code = Some cur ->
  (quantity cur + qty <> 0)%Z ->
  update_position stock_code "BUY" qty price positions
  = (Returned tt,
     <[stock_code :=
         Position (quantity cur + qty)
           ((inject_Z (quantity cur) * avg_price cur + inject_Z qty * price)
            / inject_Z (quantity cur + qty))]>
       positions).
Proof.
  intros Hs Hq. unfold update_position. rewrite Hs. simpl. rewrite Hs.
  destruct (Z.eqb_spec (quantity cur + qty) 0); [contradiction|].
  reflexivity.
Qed.

(** C1, as the claim words it, fails: selling 8 of 5 held shares returns
    normally and empties the book; no error is reported and the position
    is not left unchanged. *)
Lemma update_position_oversell_not_rejected :
  update_position "005930" "SELL" 8 (100 # 1) sample_book = (Returned tt, ∅)
  /\ ~ rejected_unchanged sample_book
         (update_position "005930" "SELL" 8 (100 # 1) sample_book).
Proof.
  assert (E : update_position "005930" "SELL" 8 (100 # 1) sample_book
              = (Returned tt, ∅)).
  { rewrite update_position_sell_ge.
    - reflexivity.
    - unfold held, sample_book. rewrite lookup_singleton_eq. simpl. lia. }
  split; [exact E|].
  rewrite E. intros [[e He] _]. simpl in He. discriminate.
Qed.

(** C1 (amended): a SELL whose quantity exceeds the quantity held for the
    instrument raises nothing: the call returns normally and the
    instrument's position is removed from the book, every other position
    being untouched. *)
Theorem update_position_sell_more_than_held
    (positions : gmap string position) (stock_code : string)
    (qty : Z) (price : Q) :
  (held positions stock_code < qty)%Z ->
  update_position stock_code "SELL" qty price positions
  = (Returned tt, delete stock_code positions).
Proof.
  intros H. apply update_position_sell_ge. lia.
Qed.

Lemma update_position_sell_more_than_held_witness :
  (held sample_book "005930" < 8)%Z
  /\ update_position "005930" "SELL" 8 (100 # 1) sample_book
     = (Returned tt, delete "005930" sample_book).
Proof.
  assert (H : (held sample_book "005930" < 8)%Z).
  { unfold held, sample_book. rewrite lookup_singleton_eq. simpl. lia. }
  split; [exact H|].
  exact (update_position_sell_more_than_held sample_book "005930" 8 (100 # 1) H).
Defined.

(** C4: from a book without a position for the instrument, BUY q1 at p1
    then BUY q2 at p2 gives quantity q1 + q2 and average cost
    (q1 p1 + q2 p2) / (q1 + q2); selling q1 + q2 then removes the
    position. *)
Theorem buy_buy_sell_round_trip
    (positions : gmap string position) (stock_code : string)
    (q1 q2 : Z) (p1 p2 price : Q) :
  positions !! stock_code = None ->
  (1 <= q1)%Z -> (1 <= q2)%Z -> 0 < p1 -> 0 < p2 ->
  exists (a : Q) (b1 b2 b3 : gmap string position),
    update_position stock_code "BUY" q1 p1 positions = (Returned tt, b1)
    /\ update_position stock_code "BUY" q2 p2 b1 = (Returned tt, b2)
    /\ b2 !! stock_code = Some (Position (q1 + q2) a)
    /\ a == (inject_Z q1 * p1 + inject_Z q2 * p2) / inject_Z (q1 + q2)
    /\ update_position stock_code "SELL" (q1 + q2) price b2 = (Returned tt, b3)
    /\ b3 !! stock_code = None
    /\ b3 = positions.
Proof.
  intros Hn H1 H2 Hp1 Hp2.
  eexists _, _, _, _.
  split; [apply update_position_buy_new; [exact Hn | lia]|].
  split.
  { erewrite update_position_buy_more;
      [reflexivity | apply lookup_insert_eq | simpl; lia]. }
  split; [apply lookup_insert_eq|].
  split.
  { simpl. rewrite inject_Z_plus.
    assert (Hq1 : 0 < inject_Z q1).
    { change 0 with (inject_Z 0). rewrite <- Zlt_Qlt. lia. }
    assert (Hq2 : 0 < inject_Z q2).
    { change 0 with (inject_Z 0). rewrite <- Zlt_Qlt. lia. }
    field. split; lra. }
  split.
  { apply update_position_sell_ge. unfold held.
    rewrite lookup_insert_eq. simpl. lia. }
  split.
  - rewrite lookup_delete_eq. reflexivity.
  - rewrite insert_insert_eq, delete_insert_eq. apply delete_id. exact Hn.
Qed.

Lemma buy_buy_sell_round_trip_witness :
  exists (a : Q) (b1 b2 b3 : gmap string position),
    update_position "005930" "BUY" 3 (100 # 1) ∅ = (Returned tt, b1)
    /\ update_position "005930" "BUY" 1 (120 # 1) b1 = (Returned tt, b2)
    /\ b2 !! "005930" = Some (Position (3 + 1) a)
    /\ a == (inject_Z 3 * (100 # 1) + inject_Z 1 * (120 # 1)) / inject_Z (3 + 1)
    /\ update_position "005930" "SELL" (3 + 1) (130 # 1) b2 = (Returned tt, b3)
    /\ b3 !! "005930" = None
    /\ b3 = ∅.
Proof.
  apply (buy_buy_sell_round_trip ∅ "005930" 3 1 (100 # 1) (120 # 1) (130 # 1)).
  - apply lookup_empty.
  - lia.
  - lia.
  - reflexivity.
  - reflexivity.
Defined.

(** ** Signal generation *)


Lemma ltb_not_nan_r (x y : float) : ltb x y = true -> is_nan y = false.
Proof. destruct x, y; simpl; congruence. Qed.

Lemma ltb_not_nan_l (x y : float) : ltb x y = true -> is_nan x = false.
Proof. destruct x, y; simpl; congruence. Qed.

Lemma pymin_100_within (x : float) :
  (exists q, x = Num q /\ 0 <= q) \/ x = PInf ->
  within 0 100 (pymin x (Num 100)).
Proof.
  intros [[q [-> Hq]] | ->]; unfold pymin, within; simpl.
  - destruct (Qltb 100 q) eqn:E.
    + exists 100. split; [reflexivity | lra].
    + apply Qltb_ge in E. exists q. split; [reflexivity | lra].
  - exists 100. split; [reflexivity | lra].
Qed.

Lemma pymin_clamps (x : float) :
  ltb (Num 100) x = true -> pymin x (Num 100) = Num 100.
Proof. intros H. unfold pymin. rewrite H. reflexivity. Qed.

Lemma abs_nonneg (x : float) :
  is_nan x = false -> (exists q, abs x = Num q /\ 0 <= q) \/ abs x = PInf.
Proof.
  destruct x; simpl; intros H; try discriminate; auto.
  left. exists (Qabs q). split; [reflexivity | apply Qabs_nonneg].
Qed.

Lemma scale_nonneg (x : float) (k : Q) :
  0 < k ->
  (exists q, x = Num q /\ 0 <= q) \/ x = PInf ->
  (exists q, mul x (Num k) = Num q /\ 0 <= q) \/ mul x (Num k) = PInf.
Proof.
  intros Hk [[q [-> Hq]] | ->]; simpl.
  - left. exists (q * k). split; [reflexivity|]. apply Qmult_le_0_compat; lra.
  - right. unfold signed. apply Qgt_alt in Hk. rewrite Hk. reflexivity.
Qed.

Lemma ratio_nonneg (x : float) (m : Q) :
  0 < m ->
  (exists q, x = Num q /\ 0 <= q) \/ x = PInf ->
  (exists q, div x (Num m) = Num q /\ 0 <= q) \/ div x (Num m) = PInf.
Proof.
  intros Hm [[q [-> Hq]] | ->]; simpl.
  - destruct (Qeq_bool m 0) eqn:E.
    + apply Qeq_bool_iff in E. lra.
    + left. exists (q / m). split; [reflexivity|].
      apply Qle_shift_div_l; lra.
  - right. destruct (Qltb m 0) eqn:E; [|reflexivity].
    apply Qltb_lt in E. lra.
Qed.

Lemma positive_nonneg (x : float) :
  ltb (Num 0) x = true -> (exists q, x = Num q /\ 0 <= q) \/ x = PInf.
Proof.
  destruct x; simpl; intros H; try discriminate; auto.
  apply Qltb_lt in H. left. exists q. split; [reflexivity | lra].
Qed.

(** The three ways out of [SqueezeMomentumStrategy.generate_signals]. *)
Lemma squeeze_generate_signals_inv (self : SqueezeMomentumStrategy.strategy)
    (code : string) (a : SqueezeMomentumStrategy.analysis)
    (sigs : list SqueezeMomentumStrategy.signal) :
  SqueezeMomentumStrategy.generate_signals self code a = Returned sigs ->
  exists cur,
    iloc_last (TechnicalAnalyzer.momentum (SqueezeMomentumStrategy.squeeze_data a))
    = Returned cur
    /\ let prev :=
         iloc_prev (TechnicalAnalyzer.momentum
                      (SqueezeMomentumStrategy.squeeze_data a)) (Num 0) in
       let conf := pymin (mul (abs cur) (Num 10)) (Num 100) in
       (sigs = [SqueezeMomentumStrategy.Signal code "BUY"
                  "Squeeze 해제 + 상승 모멘텀" cur
                  (SqueezeMomentumStrategy.current_price a) conf]
        /\ gtb cur (SqueezeMomentumStrategy.min_momentum
                      (SqueezeMomentumStrategy.strategy_params self)) = true
        /\ gtb cur prev = true)
       \/ (sigs = [SqueezeMomentumStrategy.Signal code "SELL"
                     "모멘텀 하락 전환" cur
                     (SqueezeMomentumStrategy.current_price a) conf]
           /\ ltb cur (Num 0) = true /\ gtb prev (Num 0) = true
           /\ is_Some (SqueezeMomentumStrategy.positions self !! code))
       \/ (sigs = []
           /\ (ltb cur (Num 0) && gtb prev (Num 0)
               && bool_decide
                    (is_Some (SqueezeMomentumStrategy.positions self !! code))
               = false)).
Proof.
  unfold SqueezeMomentumStrategy.generate_signals.
  destruct (iloc_last (TechnicalAnalyzer.momentum _)) as [cur|] eqn:Ec;
    simpl; [|discriminate].
  destruct (iloc_last (TechnicalAnalyzer.squeeze_off _)) as [off|];
    simpl; [|discriminate].
  destruct (iloc_last (TechnicalAnalyzer.avg_volume _)) as [avg|];
    simpl; [|discriminate].
  intros H. exists cur. split; [reflexivity|]. simpl.
  match type of H with
  | (if ?c then _ else _) = _ => destruct c eqn:Eb
  end.
  - left. apply andb_prop in Eb as [Eb _]. apply andb_prop in Eb as [Eb E2].
    apply andb_prop in Eb as [_ E1].
    injection H as <-. auto.
  - match type of H with
    | (if ?c then _ else _) = _ => destruct c eqn:Es
    end.
    + right. left. apply andb_prop in Es as [Es E3].
      apply andb_prop in Es as [E1 E2].
      apply bool_decide_eq_true_1 in E3.
      injection H as <-. auto.
    + right. right. injection H as <-. auto.
Qed.

(** The three ways out of [MACDStrategy.generate_signals]. *)
Lemma macd_generate_signals_inv (self : MACDStrategy.strategy)
    (code : string) (a : MACDStrategy.analysis)
    (sigs : list MACDStrategy.signal) :
  MACDStrategy.generate_signals self code a = Returned sigs ->
  exists m s h r,
    let min_hist := MACDStrategy.min_histogram
                      (MACDStrategy.strategy_params self) in
    (sigs = [MACDStrategy.Signal code "BUY" "MACD 골든크로스 + RSI 과매도"
               m s h r (MACDStrategy.current_price a)
               (pymin (mul (div h min_hist) (Num 20)) (Num 100))]
     /\ gtb h (Num 0) = true /\ gtb h min_hist = true)
    \/ (sigs = [MACDStrategy.Signal code "SELL" "MACD 데드크로스 + RSI 과매수"
                  m s h r (MACDStrategy.current_price a)
                  (pymin (mul (div (abs h) min_hist) (Num 20)) (Num 100))]
        /\ ltb h (Num 0) = true
        /\ is_Some (MACDStrategy.positions self !! code))
    \/ sigs = [].
Proof.
  unfold MACDStrategy.generate_signals.
  destruct (iloc_last (TechnicalAnalyzer.macd _)) as [m|]; simpl; [|discriminate].
  destruct (iloc_last (TechnicalAnalyzer.signal _)) as [s|]; simpl; [|discriminate].
  destruct (iloc_last (TechnicalAnalyzer.histogram _)) as [h|]; simpl; [|discriminate].
  destruct (iloc_last (MACDStrategy.rsi a)) as [r|]; simpl; [|discriminate].
  intros H. exists m, s, h, r. simpl.
  match type of H with
  | (if ?c then _ else _) = _ => destruct c eqn:Eb
  end.
  - left. apply andb_prop in Eb as [Eb E5]. apply andb_prop in Eb as [Eb _].
    apply andb_prop in Eb as [_ E3].
    injection H as <-. auto.
  - match type of H with
    | (if ?c then _ else _) = _ => destruct c eqn:Es
    end.
    + right. left. apply andb_prop in Es as [Es E5].
      apply andb_prop in Es as [Es _]. apply andb_prop in Es as [_ E3].
      apply bool_decide_eq_true_1 in E5.
      injection H as <-. auto.
    + right. right. injection H as <-. reflexivity.
Qed.

(** Both functions return as soon as the series they read are not empty. *)
Lemma iloc_last_returns {A} (s : list A) :
  s <> [] -> exists x, iloc_last s = Returned x.
Proof.
  intros H. unfold iloc_last. destruct (last s) as [x|] eqn:E; [eauto|].
  apply last_None in E. contradiction.
Qed.

Lemma squeeze_generate_signals_returns
    (self : SqueezeMomentumStrategy.strategy) (code : string)
    (a : SqueezeMomentumStrategy.analysis) :
  TechnicalAnalyzer.momentum (SqueezeMomentumStrategy.squeeze_data a) <> [] ->
  TechnicalAnalyzer.squeeze_off (SqueezeMomentumStrategy.squeeze_data a) <> [] ->
  TechnicalAnalyzer.avg_volume (SqueezeMomentumStrategy.volume_analysis a) <> [] ->
  exists sigs, SqueezeMomentumStrategy.generate_signals self code a = Returned sigs.
Proof.
  intros H1 H2 H3. unfold SqueezeMomentumStrategy.generate_signals.
  destruct (iloc_last_returns _ H1) as [x1 ->].
  destruct (iloc_last_returns _ H2) as [x2 ->].
  destruct (iloc_last_returns _ H3) as [x3 ->]. simpl.
  repeat match goal with
         | |- context [if ?c then _ else _] => destruct c
         end; eauto.
Qed.

Lemma macd_generate_signals_returns
    (self : MACDStrategy.strategy) (code : string) (a : MACDStrategy.analysis) :
  TechnicalAnalyzer.macd (MACDStrategy.macd_data a) <> [] ->
  TechnicalAnalyzer.signal (MACDStrategy.macd_data a) <> [] ->
  TechnicalAnalyzer.histogram (MACDStrategy.macd_data a) <> [] ->
  MACDStrategy.rsi a <> [] ->
  exists sigs, MACDStrategy.generate_signals self code a = Returned sigs.
Proof.
  intros H1 H2 H3 H4. unfold MACDStrategy.generate_signals.
  destruct (iloc_last_returns _ H1) as [x1 ->].
  destruct (iloc_last_returns _ H2) as [x2 ->].
  destruct (iloc_last_returns _ H3) as [x3 ->].
  destruct (iloc_last_returns _ H4) as [x4 ->]. simpl.
  repeat match goal with
         | |- context [if ?c then _ else _] => destruct c
         end; eauto.
Qed.

(** C5: every signal either strategy produces carries a confidence that is
    a number in [0, 100]; it is the raw formula value clamped by
    [min(_, 100)], hence exactly 100 whenever the raw value exceeds 100.
    For the MACD strategy the minimum-histogram parameter is a positive
    number, as the constructor sets it. *)
Theorem confidence_within_0_100
    (sq : SqueezeMomentumStrategy.strategy) (mc : MACDStrategy.strategy)
    (code : string)
    (a1 : SqueezeMomentumStrategy.analysis) (a2 : MACDStrategy.analysis)
    (sigs1 : list SqueezeMomentumStrategy.signal)
    (sigs2 : list MACDStrategy.signal) (min_hist : Q) :
  MACDStrategy.min_histogram (MACDStrategy.strategy_params mc) = Num min_hist ->
  0 < min_hist ->
  (SqueezeMomentumStrategy.generate_signals sq code a1 = Returned sigs1 ->
   forall s, In s sigs1 ->
     let raw := mul (abs (SqueezeMomentumStrategy.momentum s)) (Num 10) in
     SqueezeMomentumStrategy.confidence s = pymin raw (Num 100)
     /\ within 0 100 (SqueezeMomentumStrategy.confidence s)
     /\ (ltb (Num 100) raw = true ->
         SqueezeMomentumStrategy.confidence s = Num 100))
  /\ (MACDStrategy.generate_signals mc code a2 = Returned sigs2 ->
      forall s, In s sigs2 ->
        let raw :=
          mul (div (if String.eqb (MACDStrategy.action s) "BUY"
                    then MACDStrategy.histogram s
                    else abs (MACDStrategy.histogram s))
                   (Num min_hist))
              (Num 20) in
        MACDStrategy.confidence s = pymin raw (Num 100)
        /\ within 0 100 (MACDStrategy.confidence s)
        /\ (ltb (Num 100) raw = true -> MACDStrategy.confidence s = Num 100)).
Proof.
  intros Hm Hpos. split.
  - intros H s Hin.
    destruct (squeeze_generate_signals_inv _ _ _ _ H) as [cur [_ Hc]].
    simpl in Hc.
    assert (Hnn : forall c, is_nan c = false ->
              within 0 100 (pymin (mul (abs c) (Num 10)) (Num 100))).
    { intros c Hc'. apply pymin_100_within, scale_nonneg; [lra|].
      apply abs_nonneg, Hc'. }
    destruct Hc as [[-> [H1 _]] | [[-> [H1 _]] | [-> _]]].
    + destruct Hin as [<- | []]. simpl.
      split; [reflexivity|]. split; [|apply pymin_clamps].
      apply Hnn. exact (ltb_not_nan_r _ _ H1).
    + destruct Hin as [<- | []]. simpl.
      split; [reflexivity|]. split; [|apply pymin_clamps].
      apply Hnn. exact (ltb_not_nan_l _ _ H1).
    + destruct Hin.
  - intros H s Hin.
    destruct (macd_generate_signals_inv _ _ _ _ H) as [m [sg [h [r Hc]]]].
    simpl in Hc. rewrite Hm in Hc.
    destruct Hc as [[-> [H1 _]] | [[-> [H1 _]] | ->]].
    + destruct Hin as [<- | []]. simpl.
      split; [reflexivity|]. split; [|apply pymin_clamps].
      apply pymin_100_within, scale_nonneg; [lra|].
      apply ratio_nonneg; [exact Hpos|]. apply positive_nonneg. exact H1.
    + destruct Hin as [<- | []]. simpl.
      split; [reflexivity|]. split; [|apply pymin_clamps].
      apply pymin_100_within, scale_nonneg; [lra|].
      apply ratio_nonneg; [exact Hpos|].
      apply abs_nonneg. exact (ltb_not_nan_l _ _ H1).
    + destruct Hin.
Qed.

Lemma confidence_within_0_100_witness :
  (forall s, In s Expected.squeeze_breakout_signals ->
     within 0 100 (SqueezeMomentumStrategy.confidence s))
  /\ (forall s, In s Expected.macd_golden_cross_signals ->
        within 0 100 (MACDStrategy.confidence s)).
Proof.
  destruct (confidence_within_0_100
              SqueezeMomentumStrategy.init MACDStrategy.init "005930"
              Samples.squeeze_breakout Samples.macd_golden_cross
              Expected.squeeze_breakout_signals
              Expected.macd_golden_cross_signals
              (1 # 10) eq_refl eq_refl) as [H1 H2].
  split; intros s Hs.
  - apply (H1 eq_refl s Hs).
  - apply (H2 eq_refl s Hs).
Defined.

(** On the breakout sample the raw value |12| * 10 = 120 is clamped to 100. *)
Example squeeze_breakout_clamped :
  SqueezeMomentumStrategy.generate_signals SqueezeMomentumStrategy.init
    "005930" Samples.squeeze_breakout
  = Returned Expected.squeeze_breakout_signals.
Proof. reflexivity. Qed.




(** C10: a call of [generate_signals] of either strategy that returns,
    returns at most one signal; a BUY and a SELL signal never come out of
    the same call. *)
Theorem generate_signals_at_most_one
    (sq : SqueezeMomentumStrategy.strategy) (mc : MACDStrategy.strategy)
    (code : string)
    (a1 : SqueezeMomentumStrategy.analysis) (a2 : MACDStrategy.analysis)
    (sigs1 : list SqueezeMomentumStrategy.signal)
    (sigs2 : list MACDStrategy.signal) :
  (SqueezeMomentumStrategy.generate_signals sq code a1 = Returned sigs1 ->
   (length sigs1 <= 1)%nat
   /\ ~ (exists b s, In b sigs1 /\ In s sigs1
                     /\ SqueezeMomentumStrategy.action b = "BUY"
                     /\ SqueezeMomentumStrategy.action s = "SELL"))
  /\ (MACDStrategy.generate_signals mc code a2 = Returned sigs2 ->
      (length sigs2 <= 1)%nat
      /\ ~ (exists b s, In b sigs2 /\ In s sigs2
                        /\ MACDStrategy.action b = "BUY"
                        /\ MACDStrategy.action s = "SELL")).
Proof.
  split; intros H.
  - destruct (squeeze_generate_signals_inv _ _ _ _ H) as [cur [_ Hc]].
    simpl in Hc.
    destruct Hc as [[-> _] | [[-> _] | [-> _]]]; (split; [simpl; lia|]).
    + intros [b [s [_ [[<- | []] [_ Hs]]]]]. discriminate.
    + intros [b [s [[<- | []] [_ [Hb _]]]]]. discriminate.
    + intros [b [s [[] _]]].
  - destruct (macd_generate_signals_inv _ _ _ _ H) as [m [sg [h [r Hc]]]].
    simpl in Hc.
    destruct Hc as [[-> _] | [[-> _] | ->]]; (split; [simpl; lia|]).
    + intros [b [s [_ [[<- | []] [_ Hs]]]]]. discriminate.
    + intros [b [s [[<- | []] [_ [Hb _]]]]]. discriminate.
    + intros [b [s [[] _]]].
Qed.

Lemma generate_signals_at_most_one_witness :
  (length Expected.squeeze_breakout_signals <= 1)%nat
  /\ (length Expected.macd_golden_cross_signals <= 1)%nat.
Proof.
  destruct (generate_signals_at_most_one
              SqueezeMomentumStrategy.init MACDStrategy.init "005930"
              Samples.squeeze_breakout Samples.macd_golden_cross
              Expected.squeeze_breakout_signals
              Expected.macd_golden_cross_signals) as [H1 H2].
  split.
  - exact (proj1 (H1 eq_refl)).
  - exact (proj1 (H2 eq_refl)).
Defined.

(** ** Series operations *)

Import TechnicalAnalyzer.

Lemma lookup_map {A B} (f : A -> B) (l : list A) (i : nat) :
  map f l !! i = f <$> (l !! i).
Proof.
  revert i. induction l as [|x l IH]; intros [|i]; simpl; auto.
Qed.

Lemma map_seq_lookup {B} (f : nat -> B) (n i : nat) :
  (i < n)%nat -> map f (seq 0 n) !! i = Some (f i).
Proof.
  intros H. rewrite lookup_map, lookup_seq_lt by exact H. reflexivity.
Qed.

Lemma map_const_replicate {A B} (f : A -> B) (y : B) (l : list A) :
  (forall x, In x l -> f x = y) -> map f l = replicate (length l) y.
Proof.
  induction l as [|x l IH]; intros H; simpl; [reflexivity|].
  rewrite (H x) by (left; reflexivity).
  f_equal. apply IH. intros z Hz. apply H. right. exact Hz.
Qed.

Lemma map_replicate {A B} (f : A -> B) (n : nat) (x : A) :
  map f (replicate n x) = replicate n (f x).
Proof. induction n as [|n IH]; simpl; congruence. Qed.

Lemma zip_with_replicate_nan (f : float -> float -> float) (n : nat)
    (ys : list float) :
  (forall y, f NaN y = NaN) -> length ys = n ->
  zip_with f (replicate n NaN) ys = replicate n NaN.
Proof.
  intros Hf. revert ys. induction n as [|n IH]; intros [|y ys] Hl;
    simpl in *; try discriminate; [reflexivity|].
  rewrite Hf. f_equal. apply IH. lia.
Qed.

Lemma length_col (c : bar -> Q) (df : list bar) : length (col c df) = length df.
Proof. apply length_map. Qed.

Lemma length_shift (s : list float) : length (shift s) = length s.
Proof. unfold shift. rewrite length_take. simpl. lia. Qed.

Lemma length_rolling (w : nat) (agg : list float -> float) (s : list float) :
  length (rolling w agg s) = length s.
Proof. unfold rolling. rewrite length_map. apply length_seq. Qed.

Lemma length_dropna_le (s : list float) : (length (dropna s) <= length s)%nat.
Proof. apply filter_length_le. Qed.

Lemma length_window_at_le (w i : nat) (s : list float) :
  (length (window_at w i s) <= i + 1)%nat.
Proof.
  unfold window_at. rewrite length_drop, length_take. lia.
Qed.

Lemma rolling_lookup (w : nat) (agg : list float -> float) (s : list float)
    (i : nat) :
  (i < length s)%nat ->
  rolling w agg s !! i
  = Some (if (length (dropna (window_at w i s)) <? w)%nat then NaN
          else agg (dropna (window_at w i s))).
Proof. intros H. unfold rolling. apply map_seq_lookup. exact H. Qed.

(** The first [w - 1] entries of a rolling aggregate are missing. *)
Lemma rolling_warmup (w : nat) (agg : list float -> float) (s : list float)
    (i : nat) :
  (i + 1 < w)%nat -> (i < length s)%nat -> rolling w agg s !! i = Some NaN.
Proof.
  intros Hw Hi. rewrite rolling_lookup by exact Hi.
  pose proof (length_dropna_le (window_at w i s)).
  pose proof (length_window_at_le w i s).
  destruct (Nat.ltb_spec (length (dropna (window_at w i s))) w);
    [reflexivity | lia].
Qed.

(** On a series shorter than the window every entry is missing. *)
Lemma rolling_short (w : nat) (agg : list float -> float) (s : list float) :
  (length s < w)%nat -> rolling w agg s = replicate (length s) NaN.
Proof.
  intros H. unfold rolling.
  rewrite <- (length_seq (length s) 0) at 2.
  apply map_const_replicate. intros i Hi. apply in_seq in Hi.
  pose proof (length_dropna_le (window_at w i s)).
  pose proof (length_window_at_le w i s).
  destruct (Nat.ltb_spec (length (dropna (window_at w i s))) w);
    [reflexivity | lia].
Qed.

Lemma length_true_range (df : list bar) : length (true_range df) = length df.
Proof.
  unfold true_range.
  rewrite !length_zip_with, !length_map, !length_zip_with, !length_col,
    length_shift, length_col.
  lia.
Qed.

Lemma of_nat_succ_nonzero (n : nat) :
  Qeq_bool (inject_Z (Z.of_nat (n + 1))) 0 = false.
Proof.
  destruct (Qeq_bool _ 0) eqn:E; [|reflexivity].
  apply Qeq_bool_iff in E. unfold Qeq in E. simpl in E. lia.
Qed.

Lemma ewm_from_num (a : Q) (prev : Q) (s : list Q) :
  Forall is_num (ewm_from (Num a) (Num prev) (map Num s)).
Proof.
  revert prev. induction s as [|x s IH]; intros prev; simpl; constructor.
  - eexists. reflexivity.
  - apply IH.
Qed.

Lemma length_ewm_from (alpha prev : float) (s : list float) :
  length (ewm_from alpha prev s) = length s.
Proof.
  revert prev. induction s as [|x s IH]; intros prev; simpl; [reflexivity|].
  rewrite IH. reflexivity.
Qed.

(** [calculate_ema] on a series of numbers: no warm-up, the first entry is
    the first input. *)
Lemma calculate_ema_defined (closes : list Q) (period : nat) :
  (1 <= period)%nat ->
  exists ema,
    calculate_ema (map Num closes) period = Returned ema
    /\ length ema = length closes
    /\ Forall is_num ema
    /\ ema !! 0%nat = Num <$> closes !! 0%nat.
Proof.
  intros Hp. unfold calculate_ema, ewm_mean.
  destruct (Nat.ltb_spec period 1); [lia|].
  eexists. split; [reflexivity|].
  unfold div, of_nat, of_Z. rewrite of_nat_succ_nonzero.
  destruct closes as [|c closes]; simpl.
  - repeat split; constructor.
  - rewrite length_ewm_from, length_map. split; [reflexivity|].
    split; [|reflexivity].
    constructor; [eexists; reflexivity|]. apply ewm_from_num.
Qed.

(** C7: on a bar series shorter than the period, SMA, ATR and the three
    Bollinger series are series of the length of the input whose entries
    are all missing; EMA returns a series of numbers whose first entry is
    the first close; all four calls return (EMA is the only one that can
    raise, and does not). *)
Theorem short_series_indicators (sqrt : Q -> Q) (df : list bar)
    (period : nat) (std_dev : float) :
  (length df < period)%nat ->
  calculate_sma (col close df) period = replicate (length df) NaN
  /\ calculate_atr df period = replicate (length df) NaN
  /\ calculate_bollinger_bands sqrt df period std_dev
     = (replicate (length df) NaN, replicate (length df) NaN,
        replicate (length df) NaN)
  /\ exists ema,
       calculate_ema (col close df) period = Returned ema
       /\ length ema = length df
       /\ Forall is_num ema
       /\ ema !! 0%nat = (col close df) !! 0%nat.
Proof.
  intros Hn.
  assert (Hsma : calculate_sma (col close df) period
                 = replicate (length df) NaN).
  { unfold calculate_sma. rewrite rolling_short; rewrite length_col; auto. }
  split; [exact Hsma|]. split.
  { unfold calculate_atr.
    rewrite rolling_short; rewrite length_true_range; auto. }
  split.
  { unfold calculate_bollinger_bands. rewrite Hsma.
    rewrite rolling_short by (rewrite length_col; exact Hn).
    rewrite length_col, map_replicate. simpl.
    unfold sub.
    rewrite !zip_with_replicate_nan;
      auto using length_replicate. }
  unfold col at 1. rewrite <- (map_map close Num).
  destruct (calculate_ema_defined (map close df) period) as [ema [H1 [H2 [H3 H4]]]];
    [lia|].
  exists ema. split; [exact H1|]. rewrite length_map in H2.
  split; [exact H2|]. split; [exact H3|].
  rewrite H4. unfold col. rewrite !lookup_map.
  destruct (df !! 0%nat); reflexivity.
Qed.

Lemma short_series_indicators_witness :
  calculate_sma (col close Bars.two_bars) 3 = replicate 2 NaN
  /\ calculate_atr Bars.two_bars 3 = replicate 2 NaN
  /\ calculate_bollinger_bands Bars.sqrt_floor Bars.two_bars 3 (Num 2)
     = (replicate 2 NaN, replicate 2 NaN, replicate 2 NaN)
  /\ exists ema,
       calculate_ema (col close Bars.two_bars) 3 = Returned ema
       /\ length ema = 2%nat
       /\ Forall is_num ema
       /\ ema !! 0%nat = (col close Bars.two_bars) !! 0%nat.
Proof.
  apply (short_series_indicators Bars.sqrt_floor Bars.two_bars 3 (Num 2)).
  simpl. lia.
Defined.

(** ** Squeeze states *)

Import SqueezeSpec.

Lemma per_bar_lookup (f : float -> float -> float -> float -> bool)
    (bbl bbu kcl kcu : list float) (i : nat) (a b c d : float) :
  bbl !! i = Some a -> bbu !! i = Some b ->
  kcl !! i = Some c -> kcu !! i = Some d ->
  per_bar f bbl bbu kcl kcu !! i = Some (f a b c d).
Proof.
  intros Ha Hb Hc Hd. unfold per_bar.
  apply lookup_zip_with_Some. exists (a, b), (c, d).
  split; [reflexivity|].
  split; apply lookup_zip_with_Some; eauto.
Qed.

(** At one bar: exactly one flag is set, and [on] and [off] exclude each
    other, whatever the band values are (missing ones included). *)
Lemma squeeze_flags_exactly_one (bbl bbu kcl kcu : float) :
  exactly_one (squeeze_on_at bbl bbu kcl kcu) (squeeze_off_at bbl bbu kcl kcu)
              (no_squeeze_at bbl bbu kcl kcu) = true
  /\ squeeze_on_at bbl bbu kcl kcu && squeeze_off_at bbl bbu kcl kcu = false.
Proof.
  unfold no_squeeze_at, squeeze_on_at, squeeze_off_at, gtb.
  destruct (ltb kcl bbl) eqn:E1; simpl.
  - rewrite (ltb_asym _ _ E1). simpl.
    destruct (ltb bbu kcu) eqn:E2; simpl.
    + rewrite (ltb_asym _ _ E2). auto.
    + destruct (ltb kcu bbu); auto.
  - destruct (ltb bbl kcl), (ltb kcu bbu); auto.
Qed.

Lemma squeeze_momentum_lengths (sqrt : Q -> Q) (df : list bar)
    (bb_length kc_length : nat) (kc_mult : float) (mom_length : nat) :
  let r := calculate_squeeze_momentum sqrt df bb_length kc_length kc_mult
             mom_length in
  length (bb_lower r) = length df /\ length (bb_upper r) = length df
  /\ length (kc_lower r) = length df /\ length (kc_upper r) = length df.
Proof.
  unfold calculate_squeeze_momentum, calculate_bollinger_bands,
    calculate_sma, calculate_atr. simpl.
  rewrite !length_zip_with, !length_map, !length_rolling, !length_map,
    !length_zip_with, !length_col, length_true_range.
  lia.
Qed.

(** C2, as the claim words it, fails: at the last of [Bars.straddle_bars]
    the Bollinger band is [0, 4] and the Keltner channel [1/2, 13/2]; the
    bands straddle, which the claim calls "none", and the code sets
    [squeeze_off] and clears [no_squeeze]. *)
Lemma squeeze_straddle_is_off :
  let r := calculate_squeeze_momentum Bars.sqrt_floor Bars.straddle_bars
             3 1 (Num (3 # 2)) 12 in
  match bb_lower r !! 2%nat, bb_upper r !! 2%nat,
        kc_lower r !! 2%nat, kc_upper r !! 2%nat with
  | Some bbl, Some bbu, Some kcl, Some kcu =>
      eqb bbl (Num 0) = true /\ eqb bbu (Num 4) = true
      /\ eqb kcl (Num (1 # 2)) = true /\ eqb kcu (Num (13 # 2)) = true
      /\ spec_squeeze_state bbl bbu kcl kcu = NoSqueeze
  | _, _, _, _ => False
  end
  /\ squeeze_on r !! 2%nat = Some false
  /\ squeeze_off r !! 2%nat = Some true
  /\ no_squeeze r !! 2%nat = Some false.
Proof. vm_compute. repeat split. Qed.

(** C2 (amended): at every bar exactly one of the three squeeze flags is
    set, and [on] and [off] are never set together; [on] is set exactly
    when the Bollinger band is strictly inside the Keltner channel, [off]
    exactly when at least one Bollinger edge is strictly outside the
    channel (so also when the bands straddle an edge), and [none] exactly
    when neither is set. *)
Theorem squeeze_state_exclusive (sqrt : Q -> Q) (df : list bar)
    (bb_length kc_length : nat) (kc_mult : float) (mom_length : nat)
    (i : nat) :
  (i < length df)%nat ->
  let r := calculate_squeeze_momentum sqrt df bb_length kc_length kc_mult
             mom_length in
  exists (bbl bbu kcl kcu : float) (on_ off_ none_ : bool),
    bb_lower r !! i = Some bbl /\ bb_upper r !! i = Some bbu
    /\ kc_lower r !! i = Some kcl /\ kc_upper r !! i = Some kcu
    /\ squeeze_on r !! i = Some on_
    /\ squeeze_off r !! i = Some off_
    /\ no_squeeze r !! i = Some none_
    /\ exactly_one on_ off_ none_ = true
    /\ on_ && off_ = false
    /\ (on_ = true <-> ltb kcl bbl = true /\ ltb bbu kcu = true)
    /\ (off_ = true <-> ltb bbl kcl = true \/ ltb kcu bbu = true)
    /\ (none_ = true <-> on_ = false /\ off_ = false).
Proof.
  intros Hi r.
  destruct (squeeze_momentum_lengths sqrt df bb_length kc_length kc_mult
              mom_length) as [L1 [L2 [L3 L4]]].
  fold r in L1, L2, L3, L4.
  destruct (lookup_lt_is_Some_2 (bb_lower r) i) as [bbl Hbbl]; [lia|].
  destruct (lookup_lt_is_Some_2 (bb_upper r) i) as [bbu Hbbu]; [lia|].
  destruct (lookup_lt_is_Some_2 (kc_lower r) i) as [kcl Hkcl]; [lia|].
  destruct (lookup_lt_is_Some_2 (kc_upper r) i) as [kcu Hkcu]; [lia|].
  exists bbl, bbu, kcl, kcu.
  exists (squeeze_on_at bbl bbu kcl kcu), (squeeze_off_at bbl bbu kcl kcu),
    (no_squeeze_at bbl bbu kcl kcu).
  repeat (split; [assumption|]).
  assert (Hflag : forall f,
            per_bar f (bb_lower r) (bb_upper r) (kc_lower r) (kc_upper r) !! i
            = Some (f bbl bbu kcl kcu)).
  { intros f. apply per_bar_lookup; assumption. }
  split; [apply (Hflag squeeze_on_at)|].
  split; [apply (Hflag squeeze_off_at)|].
  split; [apply (Hflag no_squeeze_at)|].
  destruct (squeeze_flags_exactly_one bbl bbu kcl kcu) as [H1 H2].
  split; [exact H1|]. split; [exact H2|].
  unfold no_squeeze_at, squeeze_on_at, squeeze_off_at, gtb.
  split; [apply andb_true_iff|].
  split; [apply orb_true_iff|].
  rewrite negb_true_iff. apply orb_false_iff.
Qed.

Lemma squeeze_state_exclusive_witness :
  let r := calculate_squeeze_momentum Bars.sqrt_floor Bars.straddle_bars
             3 1 (Num (3 # 2)) 12 in
  exists (bbl bbu kcl kcu : float) (on_ off_ none_ : bool),
    bb_lower r !! 2%nat = Some bbl /\ bb_upper r !! 2%nat = Some bbu
    /\ kc_lower r !! 2%nat = Some kcl /\ kc_upper r !! 2%nat = Some kcu
    /\ squeeze_on r !! 2%nat = Some on_
    /\ squeeze_off r !! 2%nat = Some off_
    /\ no_squeeze r !! 2%nat = Some none_
    /\ exactly_one on_ off_ none_ = true
    /\ on_ && off_ = false
    /\ (on_ = true <-> ltb kcl bbl = true /\ ltb bbu kcu = true)
    /\ (off_ = true <-> ltb bbl kcl = true \/ ltb kcu bbu = true)
    /\ (none_ = true <-> on_ = false /\ off_ = false).
Proof.
  apply (squeeze_state_exclusive Bars.sqrt_floor Bars.straddle_bars
           3 1 (Num (3 # 2)) 12 2).
  simpl. lia.
Defined.

(** ** RSI: the smoothing loop *)

Lemma wilder_fold_spec (period : nat) (value avg0 : list float) (k : nat) :
  (1 <= period)%nat -> length avg0 = length value ->
  (k <= length value - period)%nat ->
  let R := fold_left (wilder_step period value) (seq period k) avg0 in
  length R = length avg0
  /\ (forall i, (i < period \/ period + k <= i)%nat -> R !! i = avg0 !! i)
  /\ (forall i, (period <= i < period + k)%nat ->
        R !! i = Some (wilder_value period (default NaN (R !! (i - 1)%nat))
                                    (default NaN (value !! i)))).
Proof.
  intros Hp Hl. induction k as [|k IH]; intros Hk R.
  - subst R. simpl. split; [reflexivity|]. split; [reflexivity|]. lia.
  - destruct IH as [IH1 [IH2 IH3]]; [lia|].
    subst R. rewrite seq_S, fold_left_app. simpl.
    set (R := fold_left (wilder_step period value) (seq period k) avg0) in *.
    assert (Estep : wilder_step period value R (period + k)
                    = <[ (period + k)%nat :=
                           wilder_value period
                             (default NaN (R !! (period + k - 1)%nat))
                             (default NaN (value !! (period + k)%nat)) ]> R)
      by reflexivity.
    rewrite Estep. clear Estep.
    split; [rewrite length_insert; exact IH1|]. split.
    + intros i Hi. rewrite list_lookup_insert_ne by lia. apply IH2. lia.
    + intros i Hi. destruct (Nat.eq_dec i (period + k)%nat) as [->|Hne].
      * rewrite list_lookup_insert_eq by lia.
        rewrite list_lookup_insert_ne by lia. reflexivity.
      * rewrite list_lookup_insert_ne by lia.
        rewrite IH3 by lia. f_equal. f_equal.
        destruct (Nat.eq_dec (i - 1)%nat (period + k)%nat); [lia|].
        rewrite list_lookup_insert_ne by lia. reflexivity.
Qed.

Lemma length_wilder_smooth (period : nat) (value : list float) :
  (1 <= period)%nat -> length (wilder_smooth period value) = length value.
Proof.
  intros Hp. unfold wilder_smooth.
  destruct (wilder_fold_spec period value (rolling period mean value)
              (length value - period) Hp (length_rolling _ _ _) (le_n _))
    as [H _].
  rewrite H. apply length_rolling.
Qed.

(** Before position [period] the loop leaves the rolling mean in place. *)
Lemma wilder_smooth_seed (period : nat) (value : list float) (i : nat) :
  (1 <= period)%nat -> (i < period)%nat ->
  wilder_smooth period value !! i = rolling period mean value !! i.
Proof.
  intros Hp Hi. unfold wilder_smooth.
  destruct (wilder_fold_spec period value (rolling period mean value)
              (length value - period) Hp (length_rolling _ _ _) (le_n _))
    as [_ [H _]].
  apply H. lia.
Qed.

(** From position [period] on, every entry is Wilder's recursion applied to
    the entry before it. *)
Lemma wilder_smooth_rec (period : nat) (value : list float) (i : nat) :
  (1 <= period)%nat -> (period <= i < length value)%nat ->
  wilder_smooth period value !! i
  = Some (wilder_value period
            (default NaN (wilder_smooth period value !! (i - 1)%nat))
            (default NaN (value !! i))).
Proof.
  intros Hp Hi. unfold wilder_smooth.
  destruct (wilder_fold_spec period value (rolling period mean value)
              (length value - period) Hp (length_rolling _ _ _) (le_n _))
    as [_ [_ H]].
  apply H. lia.
Qed.

(** ** RSI: gains, losses and their averages *)

Import RsiSpec.

Lemma diff_tail (c0 : Q) (rest : list Q) :
  zip_with sub (map Num rest)
           (take (length (map Num rest)) (Num c0 :: map Num rest))
  = map Num (zip_with (fun prev cur => cur - prev) (c0 :: rest) rest).
Proof.
  revert c0. induction rest as [|c1 r IH]; intros c0; [reflexivity|].
  simpl. f_equal. apply IH.
Qed.

(** The difference series of the closes: missing at the first bar, the
    close-to-close deltas after it. *)
Lemma diff_closes (b0 : bar) (df : list bar) :
  diff (col close (b0 :: df)) = NaN :: map Num (deltas (map close (b0 :: df))).
Proof.
  unfold diff, shift, col, deltas. simpl. f_equal.
  rewrite <- (map_map close Num). apply diff_tail.
Qed.

(** The gain series: 0 at the first bar (which has no delta), then the
    gain of every close-to-close delta. *)
Lemma rsi_gain_shape (b0 : bar) (df : list bar) :
  rsi_gain (b0 :: df)
  = Num 0 :: map (fun d => Num (gain_of d)) (deltas (map close (b0 :: df))).
Proof.
  unfold rsi_gain. rewrite diff_closes. unfold where_. simpl. f_equal.
  rewrite map_map. apply map_ext. intros d. unfold gtb, gain_of. simpl.
  destruct (Qltb 0 d); reflexivity.
Qed.

Lemma rsi_loss_shape (b0 : bar) (df : list bar) :
  rsi_loss (b0 :: df)
  = Num 0 :: map (fun d => Num (loss_of d)) (deltas (map close (b0 :: df))).
Proof.
  unfold rsi_loss. rewrite diff_closes. unfold where_. simpl. f_equal.
  rewrite !map_map. apply map_ext. intros d. unfold loss_of. simpl.
  destruct (Qltb d 0); reflexivity.
Qed.

Lemma gain_of_nonneg (d : Q) : 0 <= gain_of d.
Proof.
  unfold gain_of. destruct (Qltb 0 d) eqn:E; [|lra].
  apply Qltb_lt in E. lra.
Qed.

Lemma loss_of_nonneg (d : Q) : 0 <= loss_of d.
Proof.
  unfold loss_of. destruct (Qltb d 0) eqn:E; [|lra].
  apply Qltb_lt in E. lra.
Qed.

Lemma Forall_map_nonneg (f : Q -> Q) (l : list Q) :
  (forall d, 0 <= f d) -> Forall nonneg_num (map (fun d => Num (f d)) l).
Proof.
  intros Hf. induction l as [|d l IH]; simpl; constructor; [|exact IH].
  exists (f d). split; [reflexivity | apply Hf].
Qed.

Lemma rsi_gain_nonneg (df : list bar) : Forall nonneg_num (rsi_gain df).
Proof.
  destruct df as [|b0 df]; [constructor|].
  rewrite rsi_gain_shape. constructor.
  - exists 0. split; [reflexivity | lra].
  - apply Forall_map_nonneg, gain_of_nonneg.
Qed.

Lemma rsi_loss_nonneg (df : list bar) : Forall nonneg_num (rsi_loss df).
Proof.
  destruct df as [|b0 df]; [constructor|].
  rewrite rsi_loss_shape. constructor.
  - exists 0. split; [reflexivity | lra].
  - apply Forall_map_nonneg, loss_of_nonneg.
Qed.

Lemma length_rsi_gain (df : list bar) : length (rsi_gain df) = length df.
Proof.
  unfold rsi_gain, where_, diff.
  rewrite length_map, length_zip_with, length_shift, length_col. lia.
Qed.

Lemma length_rsi_loss (df : list bar) : length (rsi_loss df) = length df.
Proof.
  unfold rsi_loss, where_, diff.
  rewrite !length_map, length_zip_with, length_shift, length_col. lia.
Qed.

Lemma dropna_nonneg (l : list float) : Forall nonneg_num l -> dropna l = l.
Proof.
  induction 1 as [|x l [q [-> _]] _ IH]; [reflexivity|].
  unfold dropna in *. simpl. f_equal. exact IH.
Qed.

Lemma sum_from_nonneg (l : list float) (a : Q) :
  0 <= a -> Forall nonneg_num l -> nonneg_num (fold_left add l (Num a)).
Proof.
  intros Ha H. revert a Ha.
  induction H as [|x l [q [-> Hq]] _ IH]; intros a Ha; simpl.
  - exists a. split; [reflexivity | exact Ha].
  - apply IH. lra.
Qed.

Lemma of_nat_pos (n : nat) : (1 <= n)%nat -> 0 < inject_Z (Z.of_nat n).
Proof.
  intros H. change 0 with (inject_Z 0). rewrite <- Zlt_Qlt. lia.
Qed.

Lemma mean_nonneg (l : list float) :
  (1 <= length l)%nat -> Forall nonneg_num l -> nonneg_num (mean l).
Proof.
  intros Hl H. unfold mean, sum.
  destruct (sum_from_nonneg l 0 (Qle_refl 0) H) as [s [-> Hs]].
  pose proof (of_nat_pos _ Hl) as Hp.
  unfold of_nat, of_Z, div.
  destruct (Qeq_bool _ 0) eqn:E.
  - apply Qeq_bool_iff in E. lra.
  - exists (s / inject_Z (Z.of_nat (length l))). split; [reflexivity|].
    apply Qle_shift_div_l; lra.
Qed.

Lemma wilder_value_nonneg (period : nat) (a v : Q) :
  (1 <= period)%nat -> 0 <= a -> 0 <= v ->
  nonneg_num (wilder_value period (Num a) (Num v)).
Proof.
  intros Hp Ha Hv. unfold wilder_value, of_nat, of_Z. simpl.
  pose proof (of_nat_pos _ Hp) as Hpos.
  assert (Hm : 0 <= inject_Z (Z.of_nat period - 1)).
  { change 0 with (inject_Z 0). rewrite <- Zle_Qle. lia. }
  destruct (Qeq_bool _ 0) eqn:E.
  - apply Qeq_bool_iff in E. lra.
  - eexists. split; [reflexivity|].
    apply Qle_shift_div_l; [lra|].
    pose proof (Qmult_le_0_compat _ _ Ha Hm). lra.
Qed.

(** The rolling mean at the last warm-up position is the mean of the first
    [period] entries. *)
Lemma rolling_mean_first (period : nat) (value : list float) :
  (1 <= period <= length value)%nat -> Forall nonneg_num value ->
  rolling period mean value !! (period - 1)%nat
  = Some (mean (take period value)).
Proof.
  intros Hp Hv. rewrite rolling_lookup by lia.
  unfold window_at.
  replace (period - 1 + 1 - period)%nat with 0%nat by lia.
  replace (period - 1 + 1)%nat with period by lia.
  rewrite drop_0. rewrite dropna_nonneg by (apply Forall_take; exact Hv).
  pose proof (length_take value period) as Hl.
  destruct (Nat.ltb_spec (length (take period value)) period); [lia|].
  reflexivity.
Qed.

(** The smoothed average of a series of non-negative numbers: missing
    during the first [period - 1] positions, a non-negative number from
    position [period - 1] on. *)
Lemma wilder_smooth_defined (period : nat) (value : list float) (i : nat) :
  (1 <= period)%nat -> Forall nonneg_num value -> (i < length value)%nat ->
  ((i + 1 < period)%nat -> wilder_smooth period value !! i = Some NaN)
  /\ ((period <= i + 1)%nat ->
      exists a, wilder_smooth period value !! i = Some (Num a) /\ 0 <= a).
Proof.
  intros Hp Hv Hi. split.
  - intros Hw. rewrite wilder_smooth_seed by lia.
    apply rolling_warmup; assumption.
  - assert (Hbase : forall j, (j + 1 = period)%nat -> (j < length value)%nat ->
              exists a, wilder_smooth period value !! j = Some (Num a)
                        /\ 0 <= a).
    { intros j Ej Hj. rewrite wilder_smooth_seed by lia.
      replace j with (period - 1)%nat by lia.
      rewrite rolling_mean_first by (try assumption; lia).
      destruct (mean_nonneg (take period value)) as [a [-> Ha]];
        [rewrite length_take; lia | apply Forall_take; exact Hv |].
      exists a. split; [reflexivity | exact Ha]. }
    induction i as [|j IH]; intros Hw.
    + apply Hbase; lia.
    + destruct (Nat.eq_dec (S j + 1)%nat period) as [E|E].
      * apply Hbase; lia.
      * rewrite wilder_smooth_rec by lia.
        replace (S j - 1)%nat with j by lia.
        destruct IH as [a [-> Ha]]; [lia | lia |].
        destruct (lookup_lt_is_Some_2 value (S j) Hi) as [v Hlk].
        rewrite Hlk. simpl.
        assert (Hvn : nonneg_num v).
        { rewrite Forall_lookup in Hv. exact (Hv _ _ Hlk). }
        destruct Hvn as [q [-> Hq]].
        destruct (wilder_value_nonneg period a q Hp Ha Hq) as [w [-> Hw']].
        exists w. split; [reflexivity | exact Hw'].
Qed.

Lemma take_gain_window (f : Q -> Q) (ds : list Q) (period : nat) :
  (1 <= period)%nat ->
  take period (Num 0 :: map (fun d => Num (f d)) ds)
  = Num 0 :: map (fun d => Num (f d)) (take (period - 1) ds).
Proof.
  intros Hp. destruct period as [|p]; [lia|].
  replace (S p - 1)%nat with p by lia.
  change (take (S p) (Num 0 :: map (fun d => Num (f d)) ds))
    with (Num 0 :: take p (map (fun d => Num (f d)) ds)).
  f_equal. clear Hp.
  revert ds. induction p as [|p IH]; intros ds; [reflexivity|].
  destruct ds as [|d ds]; [reflexivity|].
  simpl. f_equal. apply IH.
Qed.

Lemma wilder_smooth_step (period : nat) (value : list float) (i : nat) :
  (1 <= period)%nat -> (period <= i < length value)%nat ->
  exists prev v,
    wilder_smooth period value !! (i - 1)%nat = Some prev
    /\ value !! i = Some v
    /\ wilder_smooth period value !! i = Some (wilder_value period prev v).
Proof.
  intros Hp Hi.
  destruct (lookup_lt_is_Some_2 (wilder_smooth period value) (i - 1))
    as [prev Hprev]; [rewrite length_wilder_smooth by exact Hp; lia|].
  destruct (lookup_lt_is_Some_2 value i) as [v Hv]; [lia|].
  exists prev, v. split; [exact Hprev|]. split; [exact Hv|].
  rewrite wilder_smooth_rec by assumption.
  rewrite Hprev, Hv. reflexivity.
Qed.

Lemma length_deltas (closes : list Q) :
  length (deltas closes) = (length closes - 1)%nat.
Proof.
  unfold deltas. rewrite length_zip_with.
  destruct closes as [|c r]; [reflexivity|].
  change (tail (c :: r)) with r.
  change (length (c :: r)) with (S (length r)). lia.
Qed.

Lemma sum_nums (l : list Q) (a : Q) :
  fold_left add (map Num l) (Num a) = Num (fold_left Qplus l a).
Proof.
  revert a. induction l as [|x l IH]; intros a; [reflexivity|].
  simpl. apply IH.
Qed.

Lemma fold_Qplus_acc (l : list Q) (a b : Q) :
  a == b -> fold_left Qplus l a == fold_left Qplus l b.
Proof.
  revert a b. induction l as [|x l IH]; intros a b H; simpl; [exact H|].
  apply IH. rewrite H. reflexivity.
Qed.

(** The mean of a zero followed by [period - 1] numbers, as a rational. *)
Lemma mean_seed_window (f : Q -> Q) (ds : list Q) (period : nat) :
  (1 <= period)%nat -> length ds = (period - 1)%nat ->
  exists a,
    mean (Num 0 :: map (fun d => Num (f d)) ds) = Num a
    /\ a == fold_left Qplus (map f ds) 0 / inject_Z (Z.of_nat period).
Proof.
  intros Hp Hl. unfold mean, sum.
  rewrite <- (map_map f Num).
  change (Num 0 :: map Num (map f ds)) with (map Num (0 :: map f ds)).
  rewrite sum_nums, length_map. simpl length. rewrite length_map, Hl.
  replace (S (period - 1)) with period by lia.
  pose proof (of_nat_pos _ Hp) as Hpos.
  unfold of_nat, of_Z, div.
  destruct (Qeq_bool _ 0) eqn:E.
  - apply Qeq_bool_iff in E. lra.
  - eexists. split; [reflexivity|]. simpl fold_left.
    rewrite (fold_Qplus_acc (map f ds) (0 + 0) 0) by lra. reflexivity.
Qed.

(** C9, as the claim words it, fails: for closes 1, 2, 4 and period 2 the
    deltas are 1 and 2, whose gains have mean 3/2, and the first defined
    average gain (position 1) is 1/2: the window of the seed holds the
    zero of the first bar and one delta only. *)
Lemma rsi_seed_is_not_mean_of_first_deltas :
  rsi_avg_gain Bars.rising_bars 2 !! 0%nat = Some NaN
  /\ exists g,
       rsi_avg_gain Bars.rising_bars 2 !! 1%nat = Some (Num g)
       /\ g == 1 # 2
       /\ spec_first_average gain_of (map close Bars.rising_bars) 2 == 3 # 2
       /\ ~ g == spec_first_average gain_of (map close Bars.rising_bars) 2.
Proof.
  split; [reflexivity|].
  exists (1 # 2). split; [reflexivity|]. split; [reflexivity|].
  split; [reflexivity|]. intros H. vm_compute in H. discriminate.
Qed.

(** C9 (amended): the first defined average gain (loss), at position
    period - 1, is the simple mean of the first [period] entries of the
    gain (loss) series, and these are the 0 of the first bar, which has no
    delta, followed by the gains (losses) of the first period - 1
    close-to-close deltas; before it the averages are missing, and at every
    position from [period] on Wilder's recursion
    avg[i] = (avg[i-1] * (period - 1) + value[i]) / period is applied. *)
Theorem rsi_seed_and_wilder_recursion (df : list bar) (period : nat) :
  (1 <= period <= length df)%nat ->
  (forall i, (i + 1 < period)%nat ->
     rsi_avg_gain df period !! i = Some NaN
     /\ rsi_avg_loss df period !! i = Some NaN)
  /\ rsi_avg_gain df period !! (period - 1)%nat
     = Some (mean (take period (rsi_gain df)))
  /\ rsi_avg_loss df period !! (period - 1)%nat
     = Some (mean (take period (rsi_loss df)))
  /\ take period (rsi_gain df)
     = Num 0 :: map (fun d => Num (gain_of d))
                    (take (period - 1) (deltas (map close df)))
  /\ take period (rsi_loss df)
     = Num 0 :: map (fun d => Num (loss_of d))
                    (take (period - 1) (deltas (map close df)))
  /\ (exists g l,
        rsi_avg_gain df period !! (period - 1)%nat = Some (Num g)
        /\ g == seed_average gain_of (map close df) period
        /\ rsi_avg_loss df period !! (period - 1)%nat = Some (Num l)
        /\ l == seed_average loss_of (map close df) period)
  /\ (forall i, (period <= i < length df)%nat ->
        exists prev_gain gain prev_loss loss,
          rsi_avg_gain df period !! (i - 1)%nat = Some prev_gain
          /\ rsi_gain df !! i = Some gain
          /\ rsi_avg_gain df period !! i
             = Some (wilder_value period prev_gain gain)
          /\ rsi_avg_loss df period !! (i - 1)%nat = Some prev_loss
          /\ rsi_loss df !! i = Some loss
          /\ rsi_avg_loss df period !! i
             = Some (wilder_value period prev_loss loss)).
Proof.
  intros [Hp Hn]. unfold rsi_avg_gain, rsi_avg_loss.
  pose proof (length_rsi_gain df) as Lg.
  pose proof (length_rsi_loss df) as Ll.
  split.
  { intros i Hi. split.
    - apply (wilder_smooth_defined period (rsi_gain df) i Hp
               (rsi_gain_nonneg df)); lia.
    - apply (wilder_smooth_defined period (rsi_loss df) i Hp
               (rsi_loss_nonneg df)); lia. }
  assert (Sg : wilder_smooth period (rsi_gain df) !! (period - 1)%nat
               = Some (mean (take period (rsi_gain df)))).
  { rewrite wilder_smooth_seed by lia.
    apply rolling_mean_first; [lia | apply rsi_gain_nonneg]. }
  assert (Sl : wilder_smooth period (rsi_loss df) !! (period - 1)%nat
               = Some (mean (take period (rsi_loss df)))).
  { rewrite wilder_smooth_seed by lia.
    apply rolling_mean_first; [lia | apply rsi_loss_nonneg]. }
  split; [exact Sg|]. split; [exact Sl|].
  destruct df as [|b0 df]; [simpl in Hn; lia|].
  assert (Tg : take period (rsi_gain (b0 :: df))
               = Num 0 :: map (fun d => Num (gain_of d))
                   (take (period - 1) (deltas (map close (b0 :: df))))).
  { rewrite rsi_gain_shape. apply take_gain_window. exact Hp. }
  assert (Tl : take period (rsi_loss (b0 :: df))
               = Num 0 :: map (fun d => Num (loss_of d))
                   (take (period - 1) (deltas (map close (b0 :: df))))).
  { rewrite rsi_loss_shape. apply take_gain_window. exact Hp. }
  split; [exact Tg|]. split; [exact Tl|].
  split.
  { assert (Hd : length (take (period - 1) (deltas (map close (b0 :: df))))
                 = (period - 1)%nat).
    { rewrite length_take, length_deltas, length_map. simpl in *. lia. }
    destruct (mean_seed_window gain_of _ period Hp Hd) as [g [Eg Hg]].
    destruct (mean_seed_window loss_of _ period Hp Hd) as [l [El Hl]].
    exists g, l. rewrite Sg, Sl, Tg, Tl, Eg, El.
    unfold seed_average. auto. }
  intros i Hi.
  destruct (wilder_smooth_step period (rsi_gain (b0 :: df)) i Hp)
    as [pg [g [H1 [H2 H3]]]]; [lia|].
  destruct (wilder_smooth_step period (rsi_loss (b0 :: df)) i Hp)
    as [pl [l [H4 [H5 H6]]]]; [lia|].
  exists pg, g, pl, l. auto 10.
Qed.

Lemma rsi_seed_and_wilder_recursion_witness :
  rsi_avg_gain Bars.rising_bars 2 !! (2 - 1)%nat
  = Some (mean (take 2 (rsi_gain Bars.rising_bars)))
  /\ take 2 (rsi_gain Bars.rising_bars)
     = Num 0 :: map (fun d => Num (gain_of d))
                    (take (2 - 1) (deltas (map close Bars.rising_bars))).
Proof.
  assert (H : (1 <= 2 <= length Bars.rising_bars)%nat) by (simpl; lia).
  destruct (rsi_seed_and_wilder_recursion Bars.rising_bars 2 H)
    as [_ [H1 [_ [H2 _]]]].
  split; [exact H1 | exact H2].
Defined.

(** ** RSI: a zero average loss *)

Lemma calculate_rsi_lookup (df : list bar) (period i : nat) (g l : float) :
  rsi_avg_gain df period !! i = Some g ->
  rsi_avg_loss df period !! i = Some l ->
  calculate_rsi df period !! i = Some (rsi_of_rs (div g l)).
Proof.
  intros Hg Hl. unfold calculate_rsi. rewrite lookup_map.
  rewrite (proj2 (lookup_zip_with_Some div _ _ i (div g l)));
    [reflexivity|].
  exists g, l. auto.
Qed.

(** C3, as the claim words it, fails: on three flat closes with period 2
    the smoothed average loss at position 1 is 0, and so is the average
    gain; the RSI there is 0/0 carried through, that is NaN, not 100. *)
Lemma rsi_flat_closes_is_nan :
  exists l,
    rsi_avg_loss Bars.flat_bars 2 !! 1%nat = Some (Num l)
    /\ l == 0
    /\ calculate_rsi Bars.flat_bars 2 !! 1%nat = Some NaN
    /\ calculate_rsi Bars.flat_bars 2 !! 1%nat <> Some (Num 100).
Proof.
  exists (0 # 2). split; [reflexivity|]. split; [reflexivity|].
  split; [reflexivity|]. vm_compute. discriminate.
Qed.

(** The same with the default period 14, on fifteen flat bars. *)
Example rsi_flat_closes_default_period :
  rsi_avg_loss Bars.flat_fifteen 14 !! 13%nat = Some (Num (0 # 14))
  /\ calculate_rsi Bars.flat_fifteen 14 !! 13%nat = Some NaN
  /\ calculate_rsi Bars.flat_fifteen 14 !! 14%nat = Some NaN.
Proof. vm_compute. repeat split. Qed.

(** C3 (amended): at every position where the smoothed average loss equals
    0, the average gain is a non-negative number; the RSI there is the
    number 100 when the average gain is positive, and is missing (NaN)
    when the average gain is 0 too, as on a flat-close series.  Nothing is
    raised either way. *)
Theorem rsi_at_zero_average_loss (df : list bar) (period i : nat) (l : Q) :
  (1 <= period)%nat ->
  rsi_avg_loss df period !! i = Some (Num l) ->
  l == 0 ->
  exists g,
    rsi_avg_gain df period !! i = Some (Num g)
    /\ 0 <= g
    /\ (0 < g -> calculate_rsi df period !! i = Some (Num 100))
    /\ (g == 0 -> calculate_rsi df period !! i = Some NaN).
Proof.
  intros Hp Hl Hz.
  assert (Hi : (i < length df)%nat).
  { apply lookup_lt_Some in Hl. unfold rsi_avg_loss in Hl.
    rewrite length_wilder_smooth, length_rsi_loss in Hl; assumption. }
  assert (Hw : (period <= i + 1)%nat).
  { destruct (Nat.le_gt_cases period (i + 1)) as [H|H]; [exact H|].
    destruct (wilder_smooth_defined period (rsi_loss df) i Hp
                (rsi_loss_nonneg df)) as [Hnan _];
      [rewrite length_rsi_loss; exact Hi|].
    unfold rsi_avg_loss in Hl. rewrite Hnan in Hl by lia. discriminate. }
  destruct (wilder_smooth_defined period (rsi_gain df) i Hp
              (rsi_gain_nonneg df)) as [_ Hg];
    [rewrite length_rsi_gain; exact Hi|].
  destruct (Hg Hw) as [g [Hgi Hg0]].
  exists g. split; [exact Hgi|]. split; [exact Hg0|].
  rewrite (calculate_rsi_lookup df period i (Num g) (Num l) Hgi Hl).
  unfold div. apply Qeq_bool_iff in Hz. rewrite Hz. unfold signed.
  split.
  - intros Hpos. apply Qgt_alt in Hpos. rewrite Hpos. reflexivity.
  - intros Hgz. apply Qeq_alt in Hgz. rewrite Hgz. reflexivity.
Qed.

Lemma rsi_at_zero_average_loss_witness :
  exists g,
    rsi_avg_gain Bars.rising_bars 2 !! 1%nat = Some (Num g)
    /\ 0 <= g
    /\ (0 < g -> calculate_rsi Bars.rising_bars 2 !! 1%nat = Some (Num 100))
    /\ (g == 0 -> calculate_rsi Bars.rising_bars 2 !! 1%nat = Some NaN).
Proof.
  apply (rsi_at_zero_average_loss Bars.rising_bars 2 1 (0 # 2)).
  - lia.
  - reflexivity.
  - reflexivity.
Defined.

(** ** Volume profile *)

Lemma length_linspace (a b : Q) (bins : nat) :
  length (linspace a b bins) = (bins + 1)%nat.
Proof. unfold linspace. rewrite length_map. apply length_seq. Qed.

Lemma length_breaks_to_intervals (edges : list Q) :
  length (breaks_to_intervals edges) = (length edges - 1)%nat.
Proof.
  induction edges as [|a [|b r] IH]; try reflexivity.
  change (breaks_to_intervals (a :: b :: r))
    with (Interval a b :: breaks_to_intervals (b :: r)).
  simpl length in *. rewrite IH. lia.
Qed.

(** [pd.cut] accepts every non-empty series when asked for at least one
    bucket, a series of identical values included, and makes [bins]
    categories. *)
Lemma cut_returns (x : list Q) (bins : nat) :
  x <> [] -> (1 <= bins)%nat ->
  exists cats, cut x bins = Returned cats /\ length cats = bins.
Proof.
  intros Hx Hb. unfold cut, cut_edges.
  destruct (Nat.ltb_spec bins 1); [lia|].
  destruct x as [|x0 r]; [contradiction|].
  destruct (Qeq_bool _ _).
  - cbn [obind]. eexists. split; [reflexivity|].
    rewrite length_breaks_to_intervals, length_linspace. lia.
  - pose proof (length_linspace (Qlist_min x0 r) (Qlist_max x0 r) bins) as Hl.
    destruct (linspace _ _ bins) as [|e0 es]; [simpl in Hl; lia|].
    cbn [obind]. eexists. split; [reflexivity|].
    rewrite length_breaks_to_intervals. simpl in *. lia.
Qed.

Lemma Qmin_same (a b c : Q) : a == c -> b == c -> Qmin a b == c.
Proof.
  intros Ha Hb. destruct (Q.min_spec a b) as [[_ ->] | [_ ->]]; assumption.
Qed.

Lemma Qmax_same (a b c : Q) : a == c -> b == c -> Qmax a b == c.
Proof.
  intros Ha Hb. destruct (Q.max_spec a b) as [[_ ->] | [_ ->]]; assumption.
Qed.

Lemma Qlist_min_same (c x0 : Q) (r : list Q) :
  x0 == c -> Forall (fun v => v == c) r -> Qlist_min x0 r == c.
Proof.
  intros H0 Hr. unfold Qlist_min. revert x0 H0.
  induction Hr as [|v r Hv _ IH]; intros x0 H0; simpl; [exact H0|].
  apply IH. apply Qmin_same; assumption.
Qed.

Lemma Qlist_max_same (c x0 : Q) (r : list Q) :
  x0 == c -> Forall (fun v => v == c) r -> Qlist_max x0 r == c.
Proof.
  intros H0 Hr. unfold Qlist_max. revert x0 H0.
  induction Hr as [|v r Hv _ IH]; intros x0 H0; simpl; [exact H0|].
  apply IH. apply Qmax_same; assumption.
Qed.

(** On identical values the range has zero width and [pd.cut] widens it on
    both sides before it places the break points. *)
Lemma cut_edges_identical (c x0 : Q) (r : list Q) (bins : nat) :
  (1 <= bins)%nat -> x0 == c -> Forall (fun v => v == c) r ->
  exists mn mx,
    mn == c /\ mx == c
    /\ cut_edges (x0 :: r) bins
       = Returned (linspace (mn - degenerate_pad mn) (mx + degenerate_pad mx)
                            bins).
Proof.
  intros Hb H0 Hr. unfold cut_edges.
  destruct (Nat.ltb_spec bins 1); [lia|].
  pose proof (Qlist_min_same c x0 r H0 Hr) as Hmn.
  pose proof (Qlist_max_same c x0 r H0 Hr) as Hmx.
  exists (Qlist_min x0 r), (Qlist_max x0 r).
  split; [exact Hmn|]. split; [exact Hmx|].
  assert (E : Qeq_bool (Qlist_min x0 r) (Qlist_max x0 r) = true).
  { apply Qeq_bool_iff. rewrite Hmn, Hmx. reflexivity. }
  rewrite E. reflexivity.
Qed.

Lemma length_groupby_volume (cats : list interval) (df : list bar) :
  length (groupby_volume cats df) = length cats.
Proof. unfold groupby_volume. apply length_map. Qed.

Lemma idxmax_from_in (best : interval * Q) (rest : list (interval * Q)) :
  In (idxmax_from best rest) (map fst (best :: rest)).
Proof.
  revert best. induction rest as [|c rest IH]; intros best; simpl.
  - left. reflexivity.
  - destruct (IH (if Qltb (snd best) (snd c) then c else best)) as [H|H].
    + destruct (Qltb (snd best) (snd c)); simpl in H; auto.
    + right. right. exact H.
Qed.

Import Totals.

Lemma hits_cons (iv : interval) (cats : list interval) (v : Q) :
  hits (iv :: cats) v
  = if contains iv v then S (hits cats v) else hits cats v.
Proof. unfold hits. simpl. destruct (contains iv v); reflexivity. Qed.

Lemma contains_left_ge (iv : interval) (x : Q) :
  x <= left iv -> contains iv x = false.
Proof.
  intros H. unfold contains.
  assert (E : Qltb (left iv) x = false) by (apply Qltb_ge; exact H).
  rewrite E. reflexivity.
Qed.

(** No interval made of increasing break points contains a price that is
    not above the first break point. *)
Lemma hits_below (edges : list Q) (a x : Q) :
  Sorted Qlt (a :: edges) -> x <= a ->
  hits (breaks_to_intervals (a :: edges)) x = 0%nat.
Proof.
  revert a. induction edges as [|b r IH]; intros a Hs Hx; [reflexivity|].
  change (breaks_to_intervals (a :: b :: r))
    with (Interval a b :: breaks_to_intervals (b :: r)).
  rewrite hits_cons, contains_left_ge by exact Hx.
  apply Sorted_inv in Hs as [Hs Hd]. apply HdRel_inv in Hd.
  apply IH; [exact Hs | lra].
Qed.

(** A price above the first of increasing break points and not above all
    of them is in exactly one of their intervals. *)
Lemma hits_once (edges : list Q) (a x : Q) :
  Sorted Qlt (a :: edges) -> a < x ->
  (exists e, In e (a :: edges) /\ x <= e) ->
  hits (breaks_to_intervals (a :: edges)) x = 1%nat.
Proof.
  revert a. induction edges as [|b r IH]; intros a Hs Hx [e [He Hxe]].
  - destruct He as [<- | []]. lra.
  - change (breaks_to_intervals (a :: b :: r))
      with (Interval a b :: breaks_to_intervals (b :: r)).
    rewrite hits_cons. apply Sorted_inv in Hs as [Hs Hd].
    apply HdRel_inv in Hd. unfold contains. simpl.
    assert (E1 : Qltb a x = true) by (apply Qltb_lt; exact Hx).
    rewrite E1. simpl.
    destruct (Qle_bool x b) eqn:E2.
    + apply Qle_bool_iff in E2. f_equal. apply hits_below; assumption.
    + assert (Hbx : b < x).
      { apply Qnot_le_lt. intros Hle. apply Qle_bool_iff in Hle. congruence. }
      apply IH; [exact Hs | exact Hbx|].
      exists e. split; [|exact Hxe].
      destruct He as [<- | He]; [lra | exact He].
Qed.

Lemma map_seq_sorted (f : nat -> Q) (s n : nat) :
  (forall k, f k < f (S k)) -> Sorted Qlt (map f (seq s n)).
Proof.
  intros Hf. revert s. induction n as [|n IH]; intros s; simpl; [constructor|].
  constructor; [apply IH|].
  destruct n; simpl; constructor. apply Hf.
Qed.

Lemma linspace_sorted (a b : Q) (bins : nat) :
  a < b -> (1 <= bins)%nat -> Sorted Qlt (linspace a b bins).
Proof.
  intros Hab Hb. unfold linspace. apply map_seq_sorted. intros k.
  assert (Hs : 0 < (b - a) / inject_Z (Z.of_nat bins)).
  { apply Qlt_shift_div_l; [apply of_nat_pos; exact Hb | lra]. }
  rewrite Nat2Z.inj_succ. unfold Z.succ. rewrite inject_Z_plus.
  change (inject_Z 1) with 1.
  set (st := (b - a) / inject_Z (Z.of_nat bins)) in *.
  assert (E : (inject_Z (Z.of_nat k) + 1) * st
              == inject_Z (Z.of_nat k) * st + st) by ring.
  rewrite E. set (t := inject_Z (Z.of_nat k) * st). lra.
Qed.

Lemma linspace_ends (a b : Q) (bins : nat) :
  (1 <= bins)%nat ->
  exists e0 es e,
    linspace a b bins = e0 :: es /\ e0 == a /\ In e es /\ e == b.
Proof.
  intros Hb. unfold linspace. rewrite Nat.add_1_r. simpl seq.
  set (f := fun k => a + inject_Z (Z.of_nat k)
                         * ((b - a) / inject_Z (Z.of_nat bins))).
  exists (f 0%nat), (map f (seq 1 bins)), (f bins).
  split; [reflexivity|]. split; [unfold f; simpl; ring|].
  split.
  - apply in_map, in_seq. lia.
  - unfold f. pose proof (of_nat_pos _ Hb). field. lra.
Qed.

Lemma fold_Qmin_le_acc (r : list Q) (a : Q) : fold_left Qmin r a <= a.
Proof.
  revert a. induction r as [|y r IH]; intros a; simpl; [lra|].
  pose proof (IH (Qmin a y)). pose proof (Q.le_min_l a y). lra.
Qed.

Lemma fold_Qmax_ge_acc (r : list Q) (a : Q) : a <= fold_left Qmax r a.
Proof.
  revert a. induction r as [|y r IH]; intros a; simpl; [lra|].
  pose proof (IH (Qmax a y)). pose proof (Q.le_max_l a y). lra.
Qed.

Lemma Qlist_min_le (x0 : Q) (r : list Q) (v : Q) :
  In v (x0 :: r) -> Qlist_min x0 r <= v.
Proof.
  unfold Qlist_min. revert x0. induction r as [|y r IH]; intros x0 Hv.
  - destruct Hv as [<- | []]. simpl. lra.
  - simpl. destruct Hv as [<- | [<- | Hv]].
    + pose proof (fold_Qmin_le_acc r (Qmin x0 y)).
      pose proof (Q.le_min_l x0 y). lra.
    + pose proof (fold_Qmin_le_acc r (Qmin x0 y)).
      pose proof (Q.le_min_r x0 y). lra.
    + apply IH. right. exact Hv.
Qed.

Lemma Qlist_max_ge (x0 : Q) (r : list Q) (v : Q) :
  In v (x0 :: r) -> v <= Qlist_max x0 r.
Proof.
  unfold Qlist_max. revert x0. induction r as [|y r IH]; intros x0 Hv.
  - destruct Hv as [<- | []]. simpl. lra.
  - simpl. destruct Hv as [<- | [<- | Hv]].
    + pose proof (fold_Qmax_ge_acc r (Qmax x0 y)).
      pose proof (Q.le_max_l x0 y). lra.
    + pose proof (fold_Qmax_ge_acc r (Qmax x0 y)).
      pose proof (Q.le_max_r x0 y). lra.
    + apply IH. right. exact Hv.
Qed.

Lemma degenerate_pad_pos (v : Q) : 0 < degenerate_pad v.
Proof.
  unfold degenerate_pad. destruct (Qeq_bool v 0) eqn:E; [reflexivity|].
  assert (Hv : ~ v == 0).
  { intros H. apply Qeq_bool_iff in H. congruence. }
  assert (0 < Qabs v).
  { destruct (Qlt_le_dec 0 (Qabs v)) as [H|H]; [exact H|].
    exfalso. apply Hv. apply Qabs_Qle_condition in H. lra. }
  lra.
Qed.

Lemma Sorted_lower_head (a a' : Q) (es : list Q) :
  a' < a -> Sorted Qlt (a :: es) -> Sorted Qlt (a' :: es).
Proof.
  intros Ha Hs. apply Sorted_inv in Hs as [Hs Hd].
  constructor; [exact Hs|].
  destruct es as [|e es]; constructor. apply HdRel_inv in Hd. lra.
Qed.

(** The break points of [pd.cut] increase, start below every value and do
    not end below any. *)
Lemma cut_edges_ok (x : list Q) (bins : nat) (edges : list Q) :
  cut_edges x bins = Returned edges ->
  exists a rest,
    edges = a :: rest
    /\ Sorted Qlt (a :: rest)
    /\ forall v, In v x -> a < v /\ exists e, In e (a :: rest) /\ v <= e.
Proof.
  unfold cut_edges. destruct (Nat.ltb_spec bins 1) as [|Hb]; [discriminate|].
  destruct x as [|x0 r]; [discriminate|].
  set (mn := Qlist_min x0 r). set (mx := Qlist_max x0 r).
  assert (Hmn : forall v, In v (x0 :: r) -> mn <= v)
    by (intros v; apply Qlist_min_le).
  assert (Hmx : forall v, In v (x0 :: r) -> v <= mx)
    by (intros v; apply Qlist_max_ge).
  assert (Hmm : mn <= mx).
  { pose proof (Hmn x0 ltac:(left; reflexivity)).
    pose proof (Hmx x0 ltac:(left; reflexivity)). lra. }
  destruct (Qeq_bool mn mx) eqn:E.
  - intros [= <-].
    pose proof (degenerate_pad_pos mn) as P1.
    pose proof (degenerate_pad_pos mx) as P2.
    destruct (linspace_ends (mn - degenerate_pad mn) (mx + degenerate_pad mx)
                bins Hb) as [e0 [es [e [El [H0 [He Hee]]]]]].
    pose proof (linspace_sorted (mn - degenerate_pad mn)
                  (mx + degenerate_pad mx) bins ltac:(lra) Hb) as Hs.
    rewrite El in *. exists e0, es. split; [reflexivity|].
    split; [exact Hs|]. intros v Hv.
    pose proof (Hmn v Hv). pose proof (Hmx v Hv).
    split; [lra|]. exists e. split; [right; exact He | lra].
  - assert (Hlt : mn < mx).
    { destruct (Qlt_le_dec mn mx) as [H|H]; [exact H|].
      assert (Heq : mn == mx) by lra. apply Qeq_bool_iff in Heq. congruence. }
    destruct (linspace_ends mn mx bins Hb) as [e0 [es [e [El [H0 [He Hee]]]]]].
    pose proof (linspace_sorted mn mx bins Hlt Hb) as Hs.
    rewrite El in *. intros [= <-].
    exists (e0 - (mx - mn) * (1 # 1000)), es. split; [reflexivity|].
    split; [apply (Sorted_lower_head e0); [lra | exact Hs]|].
    intros v Hv. pose proof (Hmn v Hv). pose proof (Hmx v Hv).
    split; [lra|]. exists e. split; [right; exact He | lra].
Qed.

(** The [try] block goes through on every non-empty series with at least
    one bucket. *)
Lemma volume_profile_try_returns (df : list bar) (bins : nat) :
  df <> [] -> (1 <= bins)%nat ->
  exists r,
    volume_profile_try df bins = Returned r
    /\ length (volume_profile r) = bins
    /\ (exists iv, In iv (map fst (volume_profile r)) /\ poc r = mid iv)
    /\ avg_volume r = rolling 20 mean (col volume df).
Proof.
  intros Hdf Hb. unfold volume_profile_try.
  destruct (cut_returns (map close df) bins) as [cats [-> Hl]];
    [destruct df; [contradiction | discriminate] | exact Hb |].
  simpl obind.
  pose proof (length_groupby_volume cats df) as Hg.
  destruct (groupby_volume cats df) as [|c rest] eqn:E; [simpl in Hg; lia|].
  simpl. eexists. split; [reflexivity|]. simpl in Hg |- *.
  split; [lia|]. split; [|reflexivity].
  exists (idxmax_from c rest). split; [|reflexivity].
  apply (idxmax_from_in c rest).
Qed.

Lemma calculate_volume_profile_under_false (df : list bar) (bins : nat) :
  calculate_volume_profile_under false df bins
  = calculate_volume_profile df bins.
Proof. reflexivity. Qed.

(** A category that contains the close of a bar of the frame holds a bar, so
    it has a row under either default. *)
Lemma observed_hits (observed : bool) (cats : list interval) (df : list bar)
    (b : bar) :
  In b df ->
  hits (observed_categories observed cats df) (close b) = hits cats (close b).
Proof.
  intros Hb. destruct observed; [|reflexivity].
  unfold observed_categories, hits. f_equal.
  induction cats as [|iv cats IH]; simpl; [reflexivity|].
  destruct (contains iv (close b)) eqn:E.
  - assert (Hex : existsb (fun b' => contains iv (close b')) df = true).
    { apply existsb_exists. exists b. split; assumption. }
    rewrite Hex. simpl. rewrite E. f_equal. exact IH.
  - destruct (existsb _ df); simpl; [rewrite E|]; exact IH.
Qed.

(** Every value that was cut falls into exactly one of the categories. *)
Lemma cut_hits_once (x : list Q) (bins : nat) (cats : list interval) :
  cut x bins = Returned cats -> forall v, In v x -> hits cats v = 1%nat.
Proof.
  unfold cut. destruct (cut_edges x bins) as [edges|] eqn:E; [|discriminate].
  cbn [obind]. intros [= <-] v Hv.
  destruct (cut_edges_ok _ _ _ E) as [a [rest [-> [Hs Hx]]]].
  destruct (Hx v Hv) as [Ha He]. apply hits_once; assumption.
Qed.

(** Under either default the [try] block goes through on every non-empty
    series with at least one bucket, and its profile has a row. *)
Lemma volume_profile_try_under_returns (observed : bool) (df : list bar)
    (bins : nat) :
  df <> [] -> (1 <= bins)%nat ->
  exists r,
    volume_profile_try_under observed df bins = Returned r
    /\ volume_profile r <> []
    /\ (exists iv, In iv (map fst (volume_profile r)) /\ poc r = mid iv).
Proof.
  intros Hdf Hb. unfold volume_profile_try_under.
  destruct (cut_returns (map close df) bins) as [cats [Hc Hl]];
    [destruct df; [contradiction | discriminate] | exact Hb |].
  rewrite Hc. cbn [obind].
  destruct df as [|b0 df']; [contradiction|].
  assert (H1 : hits (observed_categories observed cats (b0 :: df')) (close b0)
               = 1%nat).
  { rewrite observed_hits by (left; reflexivity).
    apply (cut_hits_once _ _ _ Hc). left. reflexivity. }
  pose proof (length_groupby_volume
                (observed_categories observed cats (b0 :: df')) (b0 :: df'))
    as Hg.
  destruct (groupby_volume (observed_categories observed cats (b0 :: df'))
              (b0 :: df')) as [|c rest] eqn:Eg.
  - exfalso.
    destruct (observed_categories observed cats (b0 :: df'));
      [unfold hits in H1; simpl in H1; discriminate | simpl in Hg; discriminate].
  - cbn [idxmax obind]. eexists. split; [reflexivity|].
    cbn [volume_profile poc]. split; [discriminate|].
    exists (idxmax_from c rest). split; [apply idxmax_from_in | reflexivity].
Qed.

(** C8, as the claim words it, fails: on three bars that all close at 10,
    with the default 20 buckets, the computation goes through under either
    default of pandas; the profile is not empty and the point of control
    is 9.9995, the middle of the bucket (9.999, 10], not the last close. *)
Lemma volume_profile_flat_closes_no_fallback :
  (let r := calculate_volume_profile_under false Bars.flat_bars 20 in
   volume_profile r <> []
   /\ poc r == 19999 # 2000
   /\ ~ poc r == 10
   /\ r <> volume_profile_fallback Bars.flat_bars)
  /\ (let r := calculate_volume_profile_under true Bars.flat_bars 20 in
      volume_profile r <> []
      /\ poc r == 19999 # 2000
      /\ ~ poc r == 10
      /\ r <> volume_profile_fallback Bars.flat_bars).
Proof.
  split.
  - split; [intros H; vm_compute in H; discriminate|].
    split; [reflexivity|].
    split; [intros H; vm_compute in H; discriminate|].
    intros H. apply (f_equal (fun v => length (volume_profile v))) in H.
    vm_compute in H. discriminate.
  - split; [intros H; vm_compute in H; discriminate|].
    split; [reflexivity|].
    split; [intros H; vm_compute in H; discriminate|].
    intros H. apply (f_equal (fun v => length (volume_profile v))) in H.
    vm_compute in H. discriminate.
Qed.

(** C8 (amended): for every non-empty bar series in which all closes are
    identical, and at least one bucket, the computation does not fail and
    the fallback is not taken, under either default of [groupby]: the
    zero-width range is widened on both sides (0.1% of the close, 0.001 at
    zero), the profile is not empty and the point of control is the middle
    of one of its buckets.  The fallback result, point of control equal to
    the last close and an empty profile, is what an empty series gets (with
    0 for the point of control). *)
Theorem volume_profile_identical_closes (df : list bar) (bins : nat) (c : Q) :
  df <> [] -> (1 <= bins)%nat ->
  Forall (fun b => close b == c) df ->
  (exists mn mx,
     mn == c /\ mx == c
     /\ cut_edges (map close df) bins
        = Returned (linspace (mn - degenerate_pad mn) (mx + degenerate_pad mx)
                             bins))
  /\ (forall observed,
        volume_profile_try_under observed df bins
        = Returned (calculate_volume_profile_under observed df bins)
        /\ volume_profile (calculate_volume_profile_under observed df bins)
           <> []
        /\ (exists iv,
              In iv (map fst (volume_profile
                                (calculate_volume_profile_under observed df
                                   bins)))
              /\ poc (calculate_volume_profile_under observed df bins)
                 = mid iv)
        /\ calculate_volume_profile_under observed df bins
           <> volume_profile_fallback df)
  /\ (forall observed,
        calculate_volume_profile_under observed [] bins
        = volume_profile_fallback []).
Proof.
  intros Hdf Hb Hc. split.
  { destruct df as [|b0 df]; [contradiction|].
    apply Forall_cons in Hc as [H0 Hr]. simpl map.
    apply (cut_edges_identical c); [exact Hb | exact H0 |].
    clear -Hr. induction Hr; simpl; constructor; assumption. }
  split.
  - intros observed.
    destruct (volume_profile_try_under_returns observed df bins Hdf Hb)
      as [r [Hr [Hne Hpoc]]].
    assert (Er : calculate_volume_profile_under observed df bins = r).
    { unfold calculate_volume_profile_under. rewrite Hr. reflexivity. }
    rewrite Er.
    split; [exact Hr|]. split; [exact Hne|]. split; [exact Hpoc|].
    intros E. rewrite E in Hne. apply Hne. reflexivity.
  - intros observed.
    unfold calculate_volume_profile_under, volume_profile_try_under, cut,
      cut_edges.
    destruct (bins <? 1)%nat; reflexivity.
Qed.

Lemma volume_profile_identical_closes_witness :
  volume_profile (calculate_volume_profile_under true Bars.flat_bars 20) <> []
  /\ calculate_volume_profile_under false Bars.flat_bars 20
     <> volume_profile_fallback Bars.flat_bars.
Proof.
  assert (Hc : Forall (fun b => close b == 10) Bars.flat_bars).
  { repeat constructor. }
  assert (Hdf : Bars.flat_bars <> []) by discriminate.
  assert (Hb : (1 <= 20)%nat) by lia.
  destruct (volume_profile_identical_closes Bars.flat_bars 20 10 Hdf Hb Hc)
    as [_ [H _]].
  split.
  - exact (proj1 (proj2 (H true))).
  - exact (proj2 (proj2 (proj2 (H false)))).
Defined.

(** * Further properties of the position book *)






Lemma update_position_sell_lt (positions : gmap string position)
    (stock_code : string) (cur : position) (qty : Z) (price : Q) :
  positions !! stock_code = Some cur ->
  (qty < quantity cur)%Z ->
  update_position stock_code "SELL" qty price positions
  = (Returned tt,
     <[stock_code := Position (quantity cur - qty) (avg_price cur)]> positions).
Proof.
  intros Hs Hq. unfold update_position. rewrite Hs. simpl. rewrite Hs. simpl.
  destruct (Z.leb_spec (quantity cur - qty) 0); [lia | reflexivity].
Qed.

(** A fill for one instrument leaves the entry of every other instrument
    as it was, whatever the action, the quantity and the outcome. *)
Theorem update_position_other_instruments
    (positions : gmap string position) (stock_code action other : string)
    (qty : Z) (price : Q) :
  other <> stock_code ->
  snd (update_position stock_code action qty price positions) !! other
  = positions !! other.
Proof.
  intros Hne. unfold update_position.
  set (p1 := match positions !! stock_code with
             | Some _ => positions
             | None => <[stock_code:=zero_position]> positions
             end).
  assert (H1 : p1 !! other = positions !! other).
  { subst p1. destruct (positions !! stock_code); [reflexivity|].
    apply lookup_insert_ne. congruence. }
  destruct (String.eqb action "BUY").
  - destruct (p1 !! stock_code) as [cur|]; [|exact H1].
    destruct (_ =? 0)%Z; simpl; [exact H1|].
    rewrite lookup_insert_ne by congruence. exact H1.
  - destruct (String.eqb action "SELL"); [|exact H1].
    destruct (p1 !! stock_code) as [cur|]; [|exact H1].
    destruct (_ <=? 0)%Z; simpl.
    + rewrite lookup_delete_ne, lookup_insert_ne by congruence. exact H1.
    + rewrite lookup_insert_ne by congruence. exact H1.
Qed.

Lemma update_position_other_instruments_witness :
  snd (update_position "005930" "SELL" 8 (100 # 1)
         (<["000660" := Position 3 (50 # 1)]> sample_book)) !! "000660"
  = (<["000660" := Position 3 (50 # 1)]> sample_book) !! "000660".
Proof.
  apply (update_position_other_instruments
           (<["000660" := Position 3 (50 # 1)]> sample_book)
           "005930" "SELL" "000660" 8 (100 # 1)).
  discriminate.
Defined.

(** A book in which every entry has a positive quantity stays so under
    every BUY and SELL of at least one share, and such a fill never
    raises: entries are removed, not kept, once sold out. *)
Theorem update_position_keeps_quantities_positive
    (positions : gmap string position) (stock_code action : string)
    (qty : Z) (price : Q) :
  (forall k p, positions !! k = Some p -> (0 < quantity p)%Z) ->
  (1 <= qty)%Z ->
  action = "BUY" \/ action = "SELL" ->
  fst (update_position stock_code action qty price positions) = Returned tt
  /\ forall k p,
       snd (update_position stock_code action qty price positions) !! k
       = Some p ->
       (0 < quantity p)%Z.
Proof.
  intros Hinv Hq [-> | ->].
  - destruct (positions !! stock_code) as [cur|] eqn:E.
    + pose proof (Hinv _ _ E) as Hc.
      rewrite (update_position_buy_more _ _ cur) by (assumption || lia).
      split; [reflexivity|]. intros k p. simpl.
      destruct (decide (k = stock_code)) as [->|Hne].
      * rewrite lookup_insert_eq. intros [= <-]. simpl. lia.
      * rewrite lookup_insert_ne by congruence. apply Hinv.
    + rewrite update_position_buy_new by (assumption || lia).
      split; [reflexivity|]. intros k p. simpl.
      destruct (decide (k = stock_code)) as [->|Hne].
      * rewrite lookup_insert_eq. intros [= <-]. simpl. lia.
      * rewrite lookup_insert_ne by congruence. apply Hinv.
  - destruct (Z_le_gt_dec (held positions stock_code) qty) as [Hle|Hgt].
    + rewrite update_position_sell_ge by exact Hle.
      split; [reflexivity|]. intros k p. simpl.
      destruct (decide (k = stock_code)) as [->|Hne].
      * rewrite lookup_delete_eq. discriminate.
      * rewrite lookup_delete_ne by congruence. apply Hinv.
    + unfold held in Hgt.
      destruct (positions !! stock_code) as [cur|] eqn:E; simpl in Hgt; [|lia].
      rewrite (update_position_sell_lt _ _ cur) by (assumption || lia).
      split; [reflexivity|]. intros k p. simpl.
      destruct (decide (k = stock_code)) as [->|Hne].
      * rewrite lookup_insert_eq. intros [= <-]. simpl. lia.
      * rewrite lookup_insert_ne by congruence. apply Hinv.
Qed.

Lemma sample_book_positive (k : string) (p : position) :
  sample_book !! k = Some p -> (0 < quantity p)%Z.
Proof.
  unfold sample_book. intros H.
  apply lookup_singleton_Some in H as [_ <-]. simpl. lia.
Qed.

Lemma update_position_keeps_quantities_positive_witness :
  fst (update_position "005930" "SELL" 2 (100 # 1) sample_book) = Returned tt
  /\ forall k p,
       snd (update_position "005930" "SELL" 2 (100 # 1) sample_book) !! k
       = Some p ->
       (0 < quantity p)%Z.
Proof.
  apply (update_position_keeps_quantities_positive sample_book "005930"
           "SELL" 2 (100 # 1) sample_book_positive).
  - lia.
  - right. reflexivity.
Defined.



(** Selling in two parts leaves the same book as selling the total at
    once, and neither raises. *)
Theorem sell_in_two_parts (positions : gmap string position)
    (stock_code : string) (q1 q2 : Z) (price1 price2 price : Q) :
  (0 <= q1)%Z -> (0 <= q2)%Z ->
  exists b1,
    update_position stock_code "SELL" q1 price1 positions = (Returned tt, b1)
    /\ update_position stock_code "SELL" q2 price2 b1
       = update_position stock_code "SELL" (q1 + q2) price positions
    /\ fst (update_position stock_code "SELL" (q1 + q2) price positions)
       = Returned tt.
Proof.
  intros H1 H2.
  destruct (Z_le_gt_dec (held positions stock_code) q1) as [Hle|Hgt].
  - exists (delete stock_code positions).
    split; [apply update_position_sell_ge; exact Hle|].
    rewrite (update_position_sell_ge positions) by lia.
    split; [|reflexivity].
    rewrite update_position_sell_ge.
    + rewrite delete_delete_eq. reflexivity.
    + unfold held. rewrite lookup_delete_eq. simpl. exact H2.
  - unfold held in Hgt.
    destruct (positions !! stock_code) as [cur|] eqn:E; simpl in Hgt; [|lia].
    eexists. split; [apply (update_position_sell_lt _ _ cur); [exact E | lia]|].
    destruct (Z_le_gt_dec (quantity cur) (q1 + q2)) as [Hle2|Hgt2].
    + rewrite (update_position_sell_ge positions)
        by (unfold held; rewrite E; simpl; exact Hle2).
      split; [|reflexivity].
      rewrite update_position_sell_ge.
      * rewrite delete_insert_eq. reflexivity.
      * unfold held. rewrite lookup_insert_eq. simpl. lia.
    + rewrite (update_position_sell_lt positions _ cur) by (assumption || lia).
      split; [|reflexivity].
      erewrite update_position_sell_lt;
        [| apply lookup_insert_eq | simpl; lia].
      simpl. rewrite insert_insert_eq.
      replace (quantity cur - q1 - q2)%Z with (quantity cur - (q1 + q2))%Z
        by lia.
      reflexivity.
Qed.

Lemma sell_in_two_parts_witness :
  exists b1,
    update_position "005930" "SELL" 2 (100 # 1) sample_book = (Returned tt, b1)
    /\ update_position "005930" "SELL" 1 (110 # 1) b1
       = update_position "005930" "SELL" (2 + 1) (120 # 1) sample_book
    /\ fst (update_position "005930" "SELL" (2 + 1) (120 # 1) sample_book)
       = Returned tt.
Proof.
  apply (sell_in_two_parts sample_book "005930" 2 1
           (100 # 1) (110 # 1) (120 # 1)); lia.
Defined.

(** A BUY whose quantity brings the holding to exactly zero (a BUY of 0
    shares of an instrument that is not held, for one) raises
    [ZeroDivisionError]; the entry is not updated, and an instrument that
    had no entry is left with an empty one. *)
Theorem buy_to_zero_raises (positions : gmap string position)
    (stock_code : string) (qty : Z) (price : Q) :
  (held positions stock_code + qty = 0)%Z ->
  update_position stock_code "BUY" qty price positions
  = (Raised ZeroDivisionError,
     match positions !! stock_code with
     | Some _ => positions
     | None => <[stock_code := zero_position]> positions
     end).
Proof.
  intros H. unfold update_position, held in *.
  destruct (positions !! stock_code) as [cur|] eqn:E; simpl in *.
  - rewrite E. destruct (Z.eqb_spec (quantity cur + qty) 0); [reflexivity|lia].
  - rewrite lookup_insert_eq. simpl.
    destruct (Z.eqb_spec (0 + qty) 0); [reflexivity|lia].
Qed.

Lemma buy_to_zero_raises_witness :
  update_position "005930" "BUY" 0 (100 # 1) ∅
  = (Raised ZeroDivisionError, <["005930" := zero_position]> ∅).
Proof.
  assert (Hz : (held ∅ "005930" + 0 = 0)%Z).
  { unfold held. rewrite lookup_empty. reflexivity. }
  pose proof (buy_to_zero_raises ∅ "005930" 0 (100 # 1) Hz) as H.
  rewrite lookup_empty in H. exact H.
Defined.

(** * Further properties of the indicators *)

Import Ranges.

(** ** Windows, means and extrema of numbers *)

Lemma Forall_window_at (P : float -> Prop) (w i : nat) (s : list float) :
  Forall P s -> Forall P (window_at w i s).
Proof.
  intros H. unfold window_at. apply Forall_drop, Forall_take, H.
Qed.

Lemma dropna_within (lo hi : Q) (l : list float) :
  Forall (nan_or_within lo hi) l -> Forall (within lo hi) (dropna l).
Proof.
  induction 1 as [|x l [-> | Hx] _ IH]; simpl.
  - constructor.
  - exact IH.
  - destruct Hx as [q [-> Hq]]. simpl. constructor; [|exact IH].
    exists q. auto.
Qed.

Lemma sum_from_within (lo hi : Q) (l : list float) (a : Q) :
  Forall (within lo hi) l ->
  exists s,
    fold_left add l (Num a) = Num s
    /\ a + inject_Z (Z.of_nat (length l)) * lo <= s
    /\ s <= a + inject_Z (Z.of_nat (length l)) * hi.
Proof.
  intros H. revert a.
  induction H as [|x l [q [-> [Hlo Hhi]]] _ IH]; intros a.
  - exists a. split; [reflexivity|].
    change (inject_Z (Z.of_nat (length (@nil float)))) with 0. lra.
  - simpl fold_left. destruct (IH (a + q)) as [s [-> [H1 H2]]].
    exists s. split; [reflexivity|].
    change (length (Num q :: l)) with (S (length l)).
    rewrite Nat2Z.inj_succ. unfold Z.succ. rewrite inject_Z_plus.
    change (inject_Z 1) with 1.
    set (n := inject_Z (Z.of_nat (length l))) in *.
    assert (E1 : (n + 1) * lo == n * lo + lo) by ring.
    assert (E2 : (n + 1) * hi == n * hi + hi) by ring.
    rewrite E1, E2.
    set (t1 := n * lo) in *. set (t2 := n * hi) in *. lra.
Qed.

Lemma mean_within (lo hi : Q) (l : list float) :
  l <> [] -> Forall (within lo hi) l -> within lo hi (mean l).
Proof.
  intros Hne H. unfold mean, sum.
  destruct (sum_from_within lo hi l 0 H) as [s [-> [H1 H2]]].
  assert (Hl : (1 <= length l)%nat) by (destruct l; [contradiction | simpl; lia]).
  pose proof (of_nat_pos _ Hl) as Hp.
  unfold of_nat, of_Z, div.
  destruct (Qeq_bool _ 0) eqn:E.
  - apply Qeq_bool_iff in E. lra.
  - eexists. split; [reflexivity|]. split.
    + apply Qle_shift_div_l; lra.
    + apply Qle_shift_div_r; lra.
Qed.

(** A rolling mean never leaves the range of the numbers it averages. *)
Lemma rolling_mean_within (lo hi : Q) (w : nat) (s : list float) :
  Forall (nan_or_within lo hi) s ->
  Forall (nan_or_within lo hi) (rolling w mean s).
Proof.
  intros H. apply Forall_lookup. intros i x Hx.
  assert (Hi : (i < length s)%nat).
  { apply lookup_lt_Some in Hx. rewrite length_rolling in Hx. exact Hx. }
  rewrite rolling_lookup in Hx by exact Hi. injection Hx as <-.
  destruct (_ <? w)%nat; [left; reflexivity|].
  pose proof (dropna_within lo hi _ (Forall_window_at _ w i s H)) as Hw.
  destruct (dropna (window_at w i s)) as [|y l] eqn:E.
  - left. reflexivity.
  - right. apply mean_within; [discriminate | exact Hw].
Qed.

Lemma col_within (c : bar -> Q) (lo hi : Q) (df : list bar) :
  Forall (fun b => lo <= c b /\ c b <= hi) df ->
  Forall (within lo hi) (col c df).
Proof.
  induction 1 as [|b df Hb _ IH]; simpl; constructor; [|exact IH].
  exists (c b). split; [reflexivity | exact Hb].
Qed.

Lemma within_nan_or (lo hi : Q) (l : list float) :
  Forall (within lo hi) l -> Forall (nan_or_within lo hi) l.
Proof.
  intros H. eapply Forall_impl; [exact H|]. intros x Hx. right. exact Hx.
Qed.

(** Every SMA entry is missing or lies between the smallest and the
    largest close. *)
Theorem sma_within_range (df : list bar) (period : nat) (lo hi : Q) :
  Forall (fun b => lo <= close b /\ close b <= hi) df ->
  Forall (nan_or_within lo hi) (calculate_sma (col close df) period).
Proof.
  intros H. unfold calculate_sma.
  apply rolling_mean_within, within_nan_or, col_within, H.
Qed.

Lemma sma_within_range_witness :
  Forall (nan_or_within 10 11) (calculate_sma (col close Bars.two_bars) 2).
Proof.
  apply (sma_within_range Bars.two_bars 2 10 11).
  repeat constructor; simpl; lra.
Defined.

(** ** EMA and MACD *)

Lemma ewm_step_within (lo hi a p x : Q) :
  0 < a -> a <= 1 -> lo <= p <= hi -> lo <= x <= hi ->
  lo <= (1 + - a) * p + a * x <= hi.
Proof.
  intros Ha0 Ha1 [Hp1 Hp2] [Hx1 Hx2].
  assert (H1 : 0 <= 1 + - a) by lra.
  assert (a * lo <= a * x) by (apply Qmult_le_l; lra).
  assert (a * x <= a * hi) by (apply Qmult_le_l; lra).
  assert (lo * (1 + - a) <= p * (1 + - a))
    by (apply Qmult_le_compat_r; lra).
  assert (p * (1 + - a) <= hi * (1 + - a))
    by (apply Qmult_le_compat_r; lra).
  lra.
Qed.

Lemma ewm_from_within (lo hi a p : Q) (s : list float) :
  0 < a -> a <= 1 -> lo <= p <= hi -> Forall (within lo hi) s ->
  Forall (within lo hi) (ewm_from (Num a) (Num p) s).
Proof.
  intros Ha0 Ha1 Hp H. revert p Hp.
  induction H as [|x s [q [-> Hq]] _ IH]; intros p Hp; simpl; [constructor|].
  pose proof (ewm_step_within lo hi a p q Ha0 Ha1 Hp (conj (proj1 Hq) (proj2 Hq)))
    as Hy.
  constructor.
  - eexists. split; [reflexivity | exact Hy].
  - apply IH. exact Hy.
Qed.

(** The EMA of numbers is a series of numbers of the same length that
    never leaves the range of its input. *)
Lemma ewm_mean_within (lo hi : Q) (span : nat) (s : list float) :
  (1 <= span)%nat -> Forall (within lo hi) s ->
  exists e,
    ewm_mean span s = Returned e
    /\ length e = length s
    /\ Forall (within lo hi) e.
Proof.
  intros Hs H. unfold ewm_mean.
  destruct (Nat.ltb_spec span 1); [lia|].
  eexists. split; [reflexivity|].
  unfold div, of_nat, of_Z. rewrite of_nat_succ_nonzero.
  destruct s as [|x s]; [split; [reflexivity | constructor]|].
  apply Forall_cons in H as [[q [-> Hq]] Hs'].
  simpl. rewrite length_ewm_from. split; [reflexivity|].
  constructor; [exists q; auto|].
  assert (Hb : 0 < 2 / inject_Z (Z.of_nat (span + 1))
               /\ 2 / inject_Z (Z.of_nat (span + 1)) <= 1).
  { assert (Hp : 2 <= inject_Z (Z.of_nat (span + 1))).
    { change 2 with (inject_Z 2). rewrite <- Zle_Qle. lia. }
    split; [apply Qlt_shift_div_l; lra | apply Qle_shift_div_r; lra]. }
  apply ewm_from_within; [apply Hb | apply Hb | lra | exact Hs'].
Qed.

Lemma within_weaken (lo hi lo' hi' : Q) (x : float) :
  lo' <= lo -> hi <= hi' -> within lo hi x -> within lo' hi' x.
Proof.
  intros H1 H2 [q [-> [Ha Hb]]]. exists q. split; [reflexivity | lra].
Qed.

Lemma zip_with_sub_within (a b c d : Q) (xs ys : list float) :
  Forall (within a b) xs -> Forall (within c d) ys ->
  Forall (within (a - d) (b - c)) (zip_with sub xs ys).
Proof.
  intros Hx. revert ys.
  induction Hx as [|x xs [p [-> Hp]] _ IH]; intros ys Hy; [constructor|].
  destruct Hy as [|y ys [q [-> Hq]] Hys]; [constructor|].
  simpl. constructor; [|apply IH; exact Hys].
  eexists. split; [reflexivity | lra].
Qed.

Lemma ewm_mean_returns (span : nat) (s : list float) :
  (1 <= span)%nat ->
  exists e,
    ewm_mean span s = Returned e
    /\ length e = length s
    /\ e !! 0%nat = s !! 0%nat.
Proof.
  intros Hs. unfold ewm_mean. destruct (Nat.ltb_spec span 1); [lia|].
  eexists. split; [reflexivity|].
  destruct s as [|x s]; [split; reflexivity|].
  simpl. rewrite length_ewm_from. split; reflexivity.
Qed.

(** The EMA of a series of numbers has the length of its input and never
    leaves the range of its input; a period of 0 raises [ValueError]. *)
Theorem ema_within_range (s : list float) (period : nat) (lo hi : Q) :
  calculate_ema s 0 = Raised ValueError
  /\ ((1 <= period)%nat -> Forall (within lo hi) s ->
      exists e,
        calculate_ema s period = Returned e
        /\ length e = length s
        /\ Forall (within lo hi) e).
Proof.
  split; [reflexivity|]. intros Hp H. apply ewm_mean_within; assumption.
Qed.

Lemma ema_within_range_witness :
  exists e,
    calculate_ema (col close Bars.rising_bars) 3 = Returned e
    /\ length e = length (col close Bars.rising_bars)
    /\ Forall (within 1 4) e.
Proof.
  apply (proj2 (ema_within_range (col close Bars.rising_bars) 3 1 4)).
  - lia.
  - apply col_within. repeat constructor; simpl; lra.
Defined.

Lemma macd_returns (df : list bar) (fast slow sig : nat) :
  (1 <= fast)%nat -> (1 <= slow)%nat -> (1 <= sig)%nat ->
  exists ema_fast ema_slow macd_signal,
    calculate_ema (col close df) fast = Returned ema_fast
    /\ calculate_ema (col close df) slow = Returned ema_slow
    /\ calculate_ema (zip_with sub ema_fast ema_slow) sig = Returned macd_signal
    /\ calculate_macd df fast slow sig
       = Returned {| macd := zip_with sub ema_fast ema_slow;
                     signal := macd_signal;
                     histogram :=
                       zip_with sub (zip_with sub ema_fast ema_slow)
                                macd_signal |}.
Proof.
  intros Hf Hs Hg. unfold calculate_macd, calculate_ema.
  destruct (ewm_mean_returns fast (col close df) Hf) as [ef [Ef _]].
  destruct (ewm_mean_returns slow (col close df) Hs) as [es [Es _]].
  destruct (ewm_mean_returns sig (zip_with sub ef es) Hg) as [eg [Eg _]].
  exists ef, es, eg. rewrite Ef, Es. simpl. rewrite Eg. simpl. auto.
Qed.

(** [calculate_macd] raises [ValueError] when one of its periods is 0; with
    positive periods it returns three series of the length of the frame,
    all three 0 at the first bar whatever the prices. *)
Theorem macd_aligned_and_zero_at_first_bar (df : list bar)
    (fast slow sig : nat) :
  (fast = 0%nat \/ slow = 0%nat \/ sig = 0%nat ->
   calculate_macd df fast slow sig = Raised ValueError)
  /\ ((1 <= fast)%nat -> (1 <= slow)%nat -> (1 <= sig)%nat ->
      exists md,
        calculate_macd df fast slow sig = Returned md
        /\ length (macd md) = length df
        /\ length (signal md) = length df
        /\ length (histogram md) = length df
        /\ (forall x, macd md !! 0%nat = Some x -> within 0 0 x)
        /\ (forall x, signal md !! 0%nat = Some x -> within 0 0 x)
        /\ (forall x, histogram md !! 0%nat = Some x -> within 0 0 x)).
Proof.
  split.
  - unfold calculate_macd, calculate_ema, ewm_mean.
    intros [-> | [-> | ->]]; simpl; [reflexivity | |].
    + destruct (fast <? 1)%nat; reflexivity.
    + destruct (fast <? 1)%nat; [reflexivity|].
      destruct (slow <? 1)%nat; reflexivity.
  - intros Hf Hs Hg. unfold calculate_macd, calculate_ema.
    destruct (ewm_mean_returns fast (col close df) Hf) as [ef [Ef [Lf Hf0]]].
    destruct (ewm_mean_returns slow (col close df) Hs) as [es [Es [Ls Hs0]]].
    destruct (ewm_mean_returns sig (zip_with sub ef es) Hg)
      as [eg [Eg [Lg Hg0]]].
    rewrite Ef, Es. simpl. rewrite Eg. simpl.
    eexists. split; [reflexivity|]. simpl.
    rewrite length_col in Lf, Ls.
    assert (Lm : length (zip_with sub ef es) = length df)
      by (rewrite length_zip_with; lia).
    split; [exact Lm|]. split; [lia|].
    split; [rewrite length_zip_with; lia|].
    assert (Hm : forall x, zip_with sub ef es !! 0%nat = Some x ->
                 exists c, x = Num (c - c)).
    { intros x Hx. apply lookup_zip_with_Some in Hx as [a [b [-> [Ha Hb]]]].
      rewrite Hf0 in Ha. rewrite Hs0 in Hb. unfold col in Ha, Hb.
      rewrite lookup_map in Ha, Hb.
      destruct (df !! 0%nat) as [b0|]; [|discriminate].
      injection Ha as <-. injection Hb as <-. exists (close b0). reflexivity. }
    split; [|split].
    + intros x Hx. destruct (Hm x Hx) as [c ->].
      eexists. split; [reflexivity | lra].
    + intros x Hx. rewrite Hg0 in Hx. destruct (Hm x Hx) as [c ->].
      eexists. split; [reflexivity | lra].
    + intros x Hx. apply lookup_zip_with_Some in Hx as [a [b [-> [Ha Hb]]]].
      rewrite Hg0 in Hb. rewrite Ha in Hb. injection Hb as <-.
      destruct (Hm a Ha) as [c ->].
      eexists. split; [reflexivity | lra].
Qed.

Lemma macd_aligned_and_zero_at_first_bar_witness :
  exists md,
    calculate_macd Bars.rising_bars 12 26 9 = Returned md
    /\ length (macd md) = length Bars.rising_bars
    /\ length (signal md) = length Bars.rising_bars
    /\ length (histogram md) = length Bars.rising_bars
    /\ (forall x, macd md !! 0%nat = Some x -> within 0 0 x)
    /\ (forall x, signal md !! 0%nat = Some x -> within 0 0 x)
    /\ (forall x, histogram md !! 0%nat = Some x -> within 0 0 x).
Proof.
  apply (proj2 (macd_aligned_and_zero_at_first_bar Bars.rising_bars 12 26 9));
    lia.
Defined.

Lemma macd_flat_core (df : list bar) (fast slow sig : nat) (c : Q) :
  (1 <= fast)%nat -> (1 <= slow)%nat -> (1 <= sig)%nat ->
  Forall (fun b => close b == c) df ->
  exists md,
    calculate_macd df fast slow sig = Returned md
    /\ Forall (within 0 0) (macd md)
    /\ Forall (within 0 0) (signal md)
    /\ Forall (within 0 0) (histogram md)
    /\ length (macd md) = length df
    /\ length (signal md) = length df
    /\ length (histogram md) = length df.
Proof.
  intros Hf Hs Hg Hc.
  assert (Hcol : Forall (within c c) (col close df)).
  { apply col_within. eapply Forall_impl; [exact Hc|].
    intros b Hb. simpl in Hb. lra. }
  unfold calculate_macd, calculate_ema.
  destruct (ewm_mean_within c c fast _ Hf Hcol) as [ef [-> [Lf Wf]]].
  destruct (ewm_mean_within c c slow _ Hs Hcol) as [es [-> [Ls Ws]]].
  simpl.
  assert (Wm : Forall (within 0 0) (zip_with sub ef es)).
  { eapply Forall_impl; [apply (zip_with_sub_within c c c c); assumption|].
    intros x. apply within_weaken; lra. }
  destruct (ewm_mean_within 0 0 sig _ Hg Wm) as [eg [-> [Lg Wg]]].
  simpl. eexists. split; [reflexivity|]. simpl.
  split; [exact Wm|]. split; [exact Wg|].
  rewrite length_col in Lf, Ls.
  assert (Lm : length (zip_with sub ef es) = length df)
    by (rewrite length_zip_with; lia).
  split.
  { eapply Forall_impl; [apply (zip_with_sub_within 0 0 0 0); assumption|].
    intros x. apply within_weaken; lra. }
  split; [exact Lm|]. split; [lia|].
  rewrite length_zip_with. lia.
Qed.

(** On flat closes the MACD line, the signal line and the histogram are 0
    at every bar. *)
Theorem macd_flat_closes_zero (df : list bar) (fast slow sig : nat) (c : Q) :
  (1 <= fast)%nat -> (1 <= slow)%nat -> (1 <= sig)%nat ->
  Forall (fun b => close b == c) df ->
  exists md,
    calculate_macd df fast slow sig = Returned md
    /\ Forall (within 0 0) (macd md)
    /\ Forall (within 0 0) (signal md)
    /\ Forall (within 0 0) (histogram md).
Proof.
  intros Hf Hs Hg Hc.
  destruct (macd_flat_core df fast slow sig c Hf Hs Hg Hc)
    as [md [E [H1 [H2 [H3 _]]]]].
  exists md. auto.
Qed.

Lemma macd_flat_closes_zero_witness :
  exists md,
    calculate_macd Bars.flat_bars 12 26 9 = Returned md
    /\ Forall (within 0 0) (macd md)
    /\ Forall (within 0 0) (signal md)
    /\ Forall (within 0 0) (histogram md).
Proof.
  apply (macd_flat_closes_zero Bars.flat_bars 12 26 9 10); try lia.
  repeat constructor.
Defined.

Lemma iloc_last_Forall {A} (P : A -> Prop) (l : list A) (x : A) :
  Forall P l -> iloc_last l = Returned x -> P x.
Proof.
  intros H. unfold iloc_last. destruct (last l) as [y|] eqn:E; [|discriminate].
  intros [= <-]. apply last_Some in E as [l' ->].
  apply Forall_app in H as [_ H]. apply Forall_cons in H as [H _]. exact H.
Qed.

Lemma iloc_last_nonempty {A} (l : list A) :
  (0 < length l)%nat -> exists x, iloc_last l = Returned x.
Proof.
  intros H. apply iloc_last_returns. destruct l; [simpl in H; lia | discriminate].
Qed.

Lemma length_calculate_rsi (df : list bar) (period : nat) :
  (1 <= period)%nat -> length (calculate_rsi df period) = length df.
Proof.
  intros Hp. unfold calculate_rsi, rsi_avg_gain, rsi_avg_loss.
  rewrite length_map, length_zip_with, !length_wilder_smooth by exact Hp.
  rewrite length_rsi_gain, length_rsi_loss. lia.
Qed.

(** On a non-empty series of flat closes the MACD strategy's analysis goes
    through and no signal comes out of it, whatever the positions are. *)
Theorem macd_strategy_flat_closes_no_signal (self : MACDStrategy.strategy)
    (code : string) (df : list bar) (c : Q) :
  df <> [] ->
  Forall (fun b => close b == c) df ->
  exists a,
    MACDStrategy.analyze df = Returned a
    /\ MACDStrategy.generate_signals self code a = Returned [].
Proof.
  intros Hdf Hc.
  assert (Hlen : (0 < length df)%nat)
    by (destruct df; [contradiction | simpl; lia]).
  destruct (macd_flat_core df 12 26 9 c) as [md [E [_ [_ [Wh [L1 [L2 L3]]]]]]];
    try lia; [exact Hc|].
  unfold MACDStrategy.analyze. rewrite E. simpl.
  destruct (iloc_last_nonempty (col close df)) as [px ->];
    [rewrite length_col; exact Hlen|].
  destruct (iloc_last_nonempty (col volume df)) as [vol ->];
    [rewrite length_col; exact Hlen|].
  cbn [obind]. eexists. split; [reflexivity|].
  unfold MACDStrategy.generate_signals.
  cbn [MACDStrategy.macd_data MACDStrategy.rsi].
  destruct (iloc_last_nonempty (macd md)) as [m ->]; [lia|].
  destruct (iloc_last_nonempty (signal md)) as [s ->]; [lia|].
  destruct (iloc_last_nonempty (histogram md)) as [h Eh]; [lia|].
  rewrite Eh.
  destruct (iloc_last_nonempty (calculate_rsi df 14)) as [r ->];
    [rewrite length_calculate_rsi; lia|].
  cbn [obind].
  destruct (iloc_last_Forall _ _ _ Wh Eh) as [q [-> [Hq1 Hq2]]].
  assert (G : gtb (Num q) (Num 0) = false) by (apply Qltb_ge; exact Hq2).
  assert (L : ltb (Num q) (Num 0) = false) by (apply Qltb_ge; exact Hq1).
  rewrite G, L. rewrite ?andb_false_r. cbn [andb]. rewrite ?andb_false_r.
  reflexivity.
Qed.

Lemma macd_strategy_flat_closes_no_signal_witness :
  exists a,
    MACDStrategy.analyze Bars.flat_bars = Returned a
    /\ MACDStrategy.generate_signals MACDStrategy.init "005930" a = Returned [].
Proof.
  apply (macd_strategy_flat_closes_no_signal MACDStrategy.init "005930"
           Bars.flat_bars 10).
  - discriminate.
  - repeat constructor.
Defined.

(** ** RSI: range and monotone closes *)

Lemma wilder_value_within (lo hi a v : Q) (period : nat) :
  (1 <= period)%nat -> lo <= a <= hi -> lo <= v <= hi ->
  within lo hi (wilder_value period (Num a) (Num v)).
Proof.
  intros Hp [Ha1 Ha2] [Hv1 Hv2]. unfold wilder_value, of_nat, of_Z. simpl.
  pose proof (of_nat_pos _ Hp) as Hpos.
  assert (Hk : 0 <= inject_Z (Z.of_nat period - 1)).
  { change 0 with (inject_Z 0). rewrite <- Zle_Qle. lia. }
  assert (HP : inject_Z (Z.of_nat period)
               == inject_Z (Z.of_nat period - 1) + 1).
  { replace (Z.of_nat period) with (Z.of_nat period - 1 + 1)%Z at 1 by lia.
    rewrite inject_Z_plus. reflexivity. }
  destruct (Qeq_bool _ 0) eqn:E.
  - apply Qeq_bool_iff in E. lra.
  - eexists. split; [reflexivity|].
    set (k := inject_Z (Z.of_nat period - 1)) in *.
    set (P := inject_Z (Z.of_nat period)) in *.
    assert (lo * k <= a * k) by (apply Qmult_le_compat_r; lra).
    assert (a * k <= hi * k) by (apply Qmult_le_compat_r; lra).
    split.
    + apply Qle_shift_div_l; [lra|]. rewrite HP. lra.
    + apply Qle_shift_div_r; [lra|]. rewrite HP. lra.
Qed.

Lemma wilder_value_nan (period : nat) (v : float) :
  wilder_value period NaN v = NaN.
Proof. reflexivity. Qed.

(** The smoothed average never leaves the range of the values it
    smooths. *)
Lemma wilder_smooth_within (lo hi : Q) (period : nat) (value : list float)
    (i : nat) (x : float) :
  (1 <= period)%nat -> Forall (within lo hi) value ->
  wilder_smooth period value !! i = Some x -> nan_or_within lo hi x.
Proof.
  intros Hp Hv. revert x. induction i as [|j IH]; intros x Hx.
  - assert (Hr := rolling_mean_within lo hi period value (within_nan_or _ _ _ Hv)).
    rewrite wilder_smooth_seed in Hx by lia.
    rewrite Forall_lookup in Hr. exact (Hr _ _ Hx).
  - assert (Hlen : (S j < length value)%nat).
    { apply lookup_lt_Some in Hx.
      rewrite length_wilder_smooth in Hx by exact Hp. exact Hx. }
    destruct (Nat.lt_ge_cases (S j) period) as [Hlt|Hge].
    + assert (Hr := rolling_mean_within lo hi period value
                      (within_nan_or _ _ _ Hv)).
      rewrite wilder_smooth_seed in Hx by lia.
      rewrite Forall_lookup in Hr. exact (Hr _ _ Hx).
    + rewrite wilder_smooth_rec in Hx by lia.
      replace (S j - 1)%nat with j in Hx by lia.
      destruct (lookup_lt_is_Some_2 (wilder_smooth period value) j)
        as [prev Hprev]; [rewrite length_wilder_smooth by exact Hp; lia|].
      destruct (lookup_lt_is_Some_2 value (S j) Hlen) as [v Hlk].
      rewrite Hprev, Hlk in Hx. simpl in Hx. injection Hx as <-.
      destruct (IH prev Hprev) as [-> | [a [-> Ha]]]; [left; reflexivity|].
      rewrite Forall_lookup in Hv. destruct (Hv _ _ Hlk) as [q [-> Hq]].
      right. apply wilder_value_within; [exact Hp | lra | lra].
Qed.


Lemma rsi_entry (df : list bar) (period i : nat) (x : float) :
  (1 <= period)%nat ->
  calculate_rsi df period !! i = Some x ->
  x = NaN
  \/ exists g l,
       rsi_avg_gain df period !! i = Some (Num g) /\ 0 <= g
       /\ rsi_avg_loss df period !! i = Some (Num l) /\ 0 <= l
       /\ x = rsi_of_rs (div (Num g) (Num l)).
Proof.
  intros Hp Hx.
  assert (Hi : (i < length df)%nat).
  { apply lookup_lt_Some in Hx.
    rewrite length_calculate_rsi in Hx by exact Hp. exact Hx. }
  destruct (wilder_smooth_defined period (rsi_gain df) i Hp
              (rsi_gain_nonneg df)) as [Gn Gd];
    [rewrite length_rsi_gain; exact Hi|].
  destruct (wilder_smooth_defined period (rsi_loss df) i Hp
              (rsi_loss_nonneg df)) as [Ln Ld];
    [rewrite length_rsi_loss; exact Hi|].
  destruct (Nat.lt_ge_cases (i + 1) period) as [Hlt|Hge].
  - left. rewrite (calculate_rsi_lookup df period i NaN NaN) in Hx;
      [injection Hx as <-; reflexivity | apply Gn; exact Hlt
       | apply Ln; exact Hlt].
  - right. destruct (Gd Hge) as [g [Eg Hg]]. destruct (Ld Hge) as [l [El Hl]].
    exists g, l.
    rewrite (calculate_rsi_lookup df period i (Num g) (Num l) Eg El) in Hx.
    injection Hx as <-. auto 10.
Qed.



Lemma rsi_gain_within_zero (df : list bar) :
  Forall (fun d => d <= 0) (deltas (map close df)) ->
  Forall (within 0 0) (rsi_gain df).
Proof.
  intros H. destruct df as [|b0 df]; [constructor|].
  rewrite rsi_gain_shape. constructor; [exists 0; split; [reflexivity|lra]|].
  induction H as [|d ds Hd _ IH]; simpl; constructor; [|exact IH].
  exists (gain_of d). split; [reflexivity|]. unfold gain_of.
  destruct (Qltb 0 d) eqn:E; [apply Qltb_lt in E; lra | lra].
Qed.

Lemma rsi_loss_within_zero (df : list bar) :
  Forall (fun d => 0 <= d) (deltas (map close df)) ->
  Forall (within 0 0) (rsi_loss df).
Proof.
  intros H. destruct df as [|b0 df]; [constructor|].
  rewrite rsi_loss_shape. constructor; [exists 0; split; [reflexivity|lra]|].
  induction H as [|d ds Hd _ IH]; simpl; constructor; [|exact IH].
  exists (loss_of d). split; [reflexivity|]. unfold loss_of.
  destruct (Qltb d 0) eqn:E; [apply Qltb_lt in E; lra | lra].
Qed.

(** On closes that never fall every RSI entry is missing or exactly 100;
    on closes that never rise every RSI entry is missing or exactly 0. *)
Theorem rsi_monotone_closes (df : list bar) (period : nat) :
  (1 <= period)%nat ->
  (Forall (fun d => 0 <= d) (deltas (map close df)) ->
   Forall (nan_or_within 100 100) (calculate_rsi df period))
  /\ (Forall (fun d => d <= 0) (deltas (map close df)) ->
      Forall (nan_or_within 0 0) (calculate_rsi df period)).
Proof.
  intros Hp. split; intros Hd; apply Forall_lookup; intros i x Hx.
  - destruct (rsi_entry df period i x Hp Hx)
      as [-> | [g [l [_ [Hg [El [Hl ->]]]]]]]; [left; reflexivity|].
    destruct (wilder_smooth_within 0 0 period (rsi_loss df) i (Num l) Hp
                (rsi_loss_within_zero df Hd) El)
      as [Hn | [q [[= <-] Hq]]]; [discriminate|].
    unfold div. assert (Ez : Qeq_bool l 0 = true) by (apply Qeq_bool_iff; lra).
    rewrite Ez. unfold signed. destruct (g ?= 0) eqn:C.
    + left. reflexivity.
    + apply Qlt_alt in C. lra.
    + right. exists (100 + - 0). split; [reflexivity | lra].
  - destruct (rsi_entry df period i x Hp Hx)
      as [-> | [g [l [Eg [Hg [_ [Hl ->]]]]]]]; [left; reflexivity|].
    destruct (wilder_smooth_within 0 0 period (rsi_gain df) i (Num g) Hp
                (rsi_gain_within_zero df Hd) Eg)
      as [Hn | [q [[= <-] Hq]]]; [discriminate|].
    assert (Eg0 : g == 0) by lra.
    unfold div. destruct (Qeq_bool l 0) eqn:E.
    + unfold signed. apply Qeq_alt in Eg0. rewrite Eg0. left. reflexivity.
    + assert (Hl0 : 0 < l).
      { destruct (Qlt_le_dec 0 l) as [H|H]; [exact H|].
        assert (l == 0) by lra. apply Qeq_bool_iff in H0. congruence. }
      unfold rsi_of_rs. simpl.
      assert (Er : g / l == 0) by (rewrite Eg0; field; lra).
      destruct (Qeq_bool (1 + g / l) 0) eqn:E1.
      { apply Qeq_bool_iff in E1. lra. }
      right. eexists. split; [reflexivity|].
      assert (E100 : 100 / (1 + g / l) == 100) by (rewrite Er; reflexivity).
      lra.
Qed.

Lemma rsi_monotone_closes_witness :
  Forall (nan_or_within 100 100) (calculate_rsi Bars.rising_bars 2).
Proof.
  apply (proj1 (rsi_monotone_closes Bars.rising_bars 2 ltac:(lia))).
  repeat constructor; discriminate.
Defined.

(** ** True range and ATR *)

Lemma shift_lookup_0 (s : list float) : s <> [] -> shift s !! 0%nat = Some NaN.
Proof. destruct s; [contradiction | reflexivity]. Qed.

Lemma shift_lookup_S (s : list float) (i : nat) :
  (S i < length s)%nat -> shift s !! S i = s !! i.
Proof.
  intros H. unfold shift. rewrite lookup_take_lt by exact H. reflexivity.
Qed.

Lemma shift_col_lookup (c : bar -> Q) (df : list bar) (i : nat) :
  (i < length df)%nat ->
  exists p, shift (col c df) !! i = Some p /\ (p = NaN \/ is_num p).
Proof.
  intros Hi. destruct i as [|j].
  - exists NaN. split; [|left; reflexivity].
    apply shift_lookup_0. destruct df; [simpl in Hi; lia | discriminate].
  - rewrite shift_lookup_S by (rewrite length_col; exact Hi).
    unfold col. rewrite lookup_map.
    destruct (lookup_lt_is_Some_2 df j) as [b ->]; [lia|].
    eexists. split; [reflexivity|]. right. eexists. reflexivity.
Qed.

Lemma true_range_lookup (df : list bar) (i : nat) (b : bar) :
  df !! i = Some b ->
  exists p,
    (p = NaN \/ is_num p)
    /\ true_range df !! i
       = Some (row_max [Num (high b - low b);
                        abs (sub (Num (high b)) p);
                        abs (sub (Num (low b)) p)]).
Proof.
  intros Hb.
  destruct (shift_col_lookup close df i) as [p [Hp Hk]];
    [apply lookup_lt_Some in Hb; exact Hb|].
  exists p. split; [exact Hk|].
  assert (Hh : col high df !! i = Some (Num (high b)))
    by (unfold col; rewrite lookup_map, Hb; reflexivity).
  assert (Hl : col low df !! i = Some (Num (low b)))
    by (unfold col; rewrite lookup_map, Hb; reflexivity).
  unfold true_range.
  rewrite !lookup_zip_with, !lookup_map, !lookup_zip_with, Hh, Hl, Hp.
  reflexivity.
Qed.

Lemma pymax_nonneg (a : Q) (y : float) :
  0 <= a -> is_num y -> nonneg_num (pymax (Num a) y).
Proof.
  intros Ha [b ->]. unfold pymax. simpl.
  destruct (Qltb a b) eqn:E.
  - apply Qltb_lt in E. exists b. split; [reflexivity | lra].
  - exists a. auto.
Qed.

Lemma row_max3_nonneg (a : Q) (x y : float) :
  0 <= a -> (x = NaN \/ is_num x) -> (y = NaN \/ is_num y) ->
  nonneg_num (row_max [Num a; x; y]).
Proof.
  intros Ha [-> | [b ->]] [-> | [c ->]]; unfold row_max; simpl.
  - exists a. auto.
  - apply pymax_nonneg; [exact Ha | eexists; reflexivity].
  - apply pymax_nonneg; [exact Ha | eexists; reflexivity].
  - destruct (pymax_nonneg a (Num b) Ha) as [m [-> Hm]];
      [eexists; reflexivity|].
    apply pymax_nonneg; [exact Hm | eexists; reflexivity].
Qed.

Lemma abs_sub_shape (h : Q) (p : float) :
  p = NaN \/ is_num p ->
  abs (sub (Num h) p) = NaN \/ is_num (abs (sub (Num h) p)).
Proof.
  intros [-> | [c ->]]; [left; reflexivity|].
  right. eexists. reflexivity.
Qed.

Lemma true_range_nonneg (df : list bar) :
  Forall (fun b => low b <= high b) df -> Forall nonneg_num (true_range df).
Proof.
  intros H. apply Forall_lookup. intros i x Hx.
  assert (Hi : (i < length df)%nat).
  { apply lookup_lt_Some in Hx. rewrite length_true_range in Hx. exact Hx. }
  destruct (lookup_lt_is_Some_2 df i Hi) as [b Hb].
  destruct (true_range_lookup df i b Hb) as [p [Hp E]].
  rewrite E in Hx. injection Hx as <-.
  rewrite Forall_lookup in H. pose proof (H _ _ Hb) as Hlh. simpl in Hlh.
  apply row_max3_nonneg; [lra | apply abs_sub_shape, Hp
                          | apply abs_sub_shape, Hp].
Qed.

Lemma rolling_mean_nonneg (w : nat) (s : list float) :
  Forall nonneg_num s ->
  Forall (fun x => x = NaN \/ nonneg_num x) (rolling w mean s).
Proof.
  intros H. apply Forall_lookup. intros i x Hx.
  assert (Hi : (i < length s)%nat).
  { apply lookup_lt_Some in Hx. rewrite length_rolling in Hx. exact Hx. }
  rewrite rolling_lookup in Hx by exact Hi. injection Hx as <-.
  destruct (_ <? w)%nat; [left; reflexivity|].
  pose proof (Forall_window_at _ w i s H) as Hw.
  rewrite (dropna_nonneg _ Hw).
  destruct (window_at w i s) as [|y l] eqn:E; [left; reflexivity|].
  right. apply mean_nonneg; [simpl; lia | exact Hw].
Qed.

(** With no bar whose high is below its low, every ATR entry is missing or
    a non-negative number. *)
Theorem atr_never_negative (df : list bar) (period : nat) :
  Forall (fun b => low b <= high b) df ->
  Forall (fun x => x = NaN \/ nonneg_num x) (calculate_atr df period).
Proof.
  intros H. unfold calculate_atr.
  apply rolling_mean_nonneg, true_range_nonneg, H.
Qed.

Lemma atr_never_negative_witness :
  Forall (fun x => x = NaN \/ nonneg_num x) (calculate_atr Bars.straddle_bars 2).
Proof.
  apply (atr_never_negative Bars.straddle_bars 2).
  repeat constructor; simpl; lra.
Defined.

(** ** Bollinger bands *)


Lemma signed_not_num (a t : Q) (x : float) :
  x = PInf \/ x = NInf -> signed a x <> Num t.
Proof.
  intros [-> | ->]; unfold signed; destruct (a ?= 0); simpl; discriminate.
Qed.





(** ** Windows of bars *)

Lemma window_col (c : bar -> Q) (w i : nat) (df : list bar) :
  window_at w i (col c df) = col c (drop (i + 1 - w) (take (i + 1) df)).
Proof.
  unfold window_at, col. rewrite firstn_map, skipn_map. reflexivity.
Qed.

Lemma dropna_col (c : bar -> Q) (l : list bar) : dropna (col c l) = col c l.
Proof.
  induction l as [|b l IH]; [reflexivity|].
  unfold dropna, col in *. simpl. f_equal. exact IH.
Qed.

Lemma bar_window_length (w i : nat) (df : list bar) :
  (w <= i + 1)%nat -> (i < length df)%nat ->
  length (drop (i + 1 - w) (take (i + 1) df)) = w.
Proof.
  intros Hw Hi. rewrite length_drop, length_take. lia.
Qed.

Lemma bar_in_window (w i : nat) (df : list bar) (b : bar) :
  (1 <= w)%nat -> df !! i = Some b ->
  b ∈ drop (i + 1 - w) (take (i + 1) df).
Proof.
  intros Hw Hb. apply (list_elem_of_lookup_2 _ (i - (i + 1 - w))).
  rewrite lookup_drop, lookup_take_lt by lia.
  replace (i + 1 - w + (i - (i + 1 - w)))%nat with i by lia. exact Hb.
Qed.

Lemma rolling_col_lookup (c : bar -> Q) (agg : list float -> float)
    (w i : nat) (df : list bar) :
  (i < length df)%nat ->
  rolling w agg (col c df) !! i
  = Some (if (length (drop (i + 1 - w) (take (i + 1) df)) <? w)%nat then NaN
          else agg (col c (drop (i + 1 - w) (take (i + 1) df)))).
Proof.
  intros Hi. rewrite rolling_lookup by (rewrite length_col; exact Hi).
  rewrite window_col, dropna_col, length_col. reflexivity.
Qed.

Lemma fold_pymin_col (c : bar -> Q) (r : list bar) (b0 : bar) :
  exists m,
    fold_left pymin (col c r) (Num (c b0)) = Num m
    /\ (forall b, b ∈ b0 :: r -> m <= c b)
    /\ (exists b, b ∈ b0 :: r /\ m = c b).
Proof.
  revert b0. induction r as [|x r IH]; intros b0; simpl.
  - exists (c b0). split; [reflexivity|]. split.
    + intros b Hb. apply list_elem_of_singleton in Hb as ->. lra.
    + exists b0. split; [left | reflexivity].
  - unfold pymin at 2. simpl.
    destruct (Qltb (c x) (c b0)) eqn:E.
    + apply Qltb_lt in E. destruct (IH x) as [m [-> [Hle [b [Hb ->]]]]].
      eexists. split; [reflexivity|]. split.
      * intros b' Hb'. apply elem_of_cons in Hb' as [-> | Hb'].
        -- pose proof (Hle x ltac:(left)). lra.
        -- apply Hle. exact Hb'.
      * exists b. split; [right; exact Hb | reflexivity].
    + apply Qltb_ge in E. destruct (IH b0) as [m [-> [Hle [b [Hb ->]]]]].
      eexists. split; [reflexivity|]. split.
      * intros b' Hb'. apply elem_of_cons in Hb' as [-> | Hb'].
        -- apply Hle. left.
        -- apply elem_of_cons in Hb' as [-> | Hb'].
           ++ pose proof (Hle b0 ltac:(left)). lra.
           ++ apply Hle. right. exact Hb'.
      * exists b. split; [|reflexivity].
        apply elem_of_cons in Hb as [-> | Hb]; [left | right; right; exact Hb].
Qed.

Lemma fold_pymax_col (c : bar -> Q) (r : list bar) (b0 : bar) :
  exists m,
    fold_left pymax (col c r) (Num (c b0)) = Num m
    /\ (forall b, b ∈ b0 :: r -> c b <= m)
    /\ (exists b, b ∈ b0 :: r /\ m = c b).
Proof.
  revert b0. induction r as [|x r IH]; intros b0; simpl.
  - exists (c b0). split; [reflexivity|]. split.
    + intros b Hb. apply list_elem_of_singleton in Hb as ->. lra.
    + exists b0. split; [left | reflexivity].
  - unfold pymax at 2. simpl.
    destruct (Qltb (c b0) (c x)) eqn:E.
    + apply Qltb_lt in E. destruct (IH x) as [m [-> [Hle [b [Hb ->]]]]].
      eexists. split; [reflexivity|]. split.
      * intros b' Hb'. apply elem_of_cons in Hb' as [-> | Hb'].
        -- pose proof (Hle x ltac:(left)). lra.
        -- apply Hle. exact Hb'.
      * exists b. split; [right; exact Hb | reflexivity].
    + apply Qltb_ge in E. destruct (IH b0) as [m [-> [Hle [b [Hb ->]]]]].
      eexists. split; [reflexivity|]. split.
      * intros b' Hb'. apply elem_of_cons in Hb' as [-> | Hb'].
        -- apply Hle. left.
        -- apply elem_of_cons in Hb' as [-> | Hb'].
           ++ pose proof (Hle b0 ltac:(left)). lra.
           ++ apply Hle. right. exact Hb'.
      * exists b. split; [|reflexivity].
        apply elem_of_cons in Hb as [-> | Hb]; [left | right; right; exact Hb].
Qed.

(** The rolling lowest low and highest high at one bar: both missing, or
    both numbers that bracket the bar and are attained inside the
    window. *)
Lemma rolling_extremes (df : list bar) (w i : nat) (b : bar) :
  df !! i = Some b ->
  exists L H,
    rolling w minimum (col low df) !! i = Some L
    /\ rolling w maximum (col high df) !! i = Some H
    /\ ((L = NaN /\ H = NaN)
        \/ exists lo hi bl bh,
             L = Num lo /\ H = Num hi
             /\ lo <= low b /\ high b <= hi
             /\ bl ∈ df /\ lo = low bl /\ bh ∈ df /\ hi = high bh).
Proof.
  intros Hb. assert (Hi : (i < length df)%nat) by (eapply lookup_lt_Some, Hb).
  rewrite !rolling_col_lookup by exact Hi.
  set (W := drop (i + 1 - w) (take (i + 1) df)).
  do 2 eexists. split; [reflexivity|]. split; [reflexivity|].
  destruct (Nat.ltb_spec (length W) w) as [Hlt|Hge]; [left; auto|].
  destruct (Nat.eq_dec w 0%nat) as [->|Hw0].
  { left. assert (HW : W = []).
    { subst W. replace (i + 1 - 0)%nat with (i + 1)%nat by lia.
      apply drop_ge. rewrite length_take. lia. }
    rewrite HW. auto. }
  assert (HbW : b ∈ W) by (apply bar_in_window; [lia | exact Hb]).
  assert (Hsub : forall x, x ∈ W -> x ∈ df).
  { intros x Hx. subst W. apply subseteq_drop in Hx.
    apply elem_of_take in Hx as [j [Hj _]].
    exact (list_elem_of_lookup_2 _ _ _ Hj). }
  destruct W as [|b0 r] eqn:EW; [inversion HbW|].
  right. simpl.
  destruct (fold_pymin_col low r b0) as [lo [-> [Hlo [bl [Hbl ->]]]]].
  destruct (fold_pymax_col high r b0) as [hi [-> [Hhi [bh [Hbh ->]]]]].
  exists (low bl), (high bh), bl, bh.
  repeat split; auto.
Qed.

(** ** Stochastic oscillator and Williams %R *)

Lemma col_lookup (c : bar -> Q) (df : list bar) (i : nat) (b : bar) :
  df !! i = Some b -> col c df !! i = Some (Num (c b)).
Proof. intros H. unfold col. rewrite lookup_map, H. reflexivity. Qed.

Lemma stochastic_k_lookup (df : list bar) (k d i : nat) (b : bar)
    (L H : float) :
  df !! i = Some b ->
  rolling k minimum (col low df) !! i = Some L ->
  rolling k maximum (col high df) !! i = Some H ->
  k_percent (calculate_stochastic df k d) !! i
  = Some (mul (Num 100) (div (sub (Num (close b)) L) (sub H L))).
Proof.
  intros Hb HL HH. unfold calculate_stochastic. simpl.
  rewrite lookup_map, !lookup_zip_with, (col_lookup close df i b Hb), HL, HH.
  reflexivity.
Qed.

Lemma williams_r_lookup (df : list bar) (period i : nat) (b : bar)
    (L H : float) :
  df !! i = Some b ->
  rolling period minimum (col low df) !! i = Some L ->
  rolling period maximum (col high df) !! i = Some H ->
  calculate_williams_r df period !! i
  = Some (mul (Num (-100)) (div (sub H (Num (close b))) (sub H L))).
Proof.
  intros Hb HL HH. unfold calculate_williams_r.
  rewrite lookup_map, !lookup_zip_with, (col_lookup close df i b Hb), HL, HH.
  reflexivity.
Qed.

Lemma ratio_percent (n d : Q) :
  0 <= n -> n <= d ->
  nan_or_within 0 100 (mul (Num 100) (div (Num n) (Num d))).
Proof.
  intros Hn Hd. unfold div. destruct (Qeq_bool d 0) eqn:E.
  - apply Qeq_bool_iff in E. assert (En : n == 0) by lra.
    unfold signed. apply Qeq_alt in En. rewrite En. left. reflexivity.
  - assert (Hd0 : 0 < d).
    { destruct (Qlt_le_dec 0 d) as [H|H]; [exact H|].
      assert (d == 0) by lra. apply Qeq_bool_iff in H0. congruence. }
    right. eexists. split; [reflexivity|].
    assert (0 <= n / d) by (apply Qle_shift_div_l; lra).
    assert (n / d <= 1) by (apply Qle_shift_div_r; lra).
    lra.
Qed.

Lemma ratio_neg_percent (n d : Q) :
  0 <= n -> n <= d ->
  nan_or_within (-100) 0 (mul (Num (-100)) (div (Num n) (Num d))).
Proof.
  intros Hn Hd. unfold div. destruct (Qeq_bool d 0) eqn:E.
  - apply Qeq_bool_iff in E. assert (En : n == 0) by lra.
    unfold signed. apply Qeq_alt in En. rewrite En. left. reflexivity.
  - assert (Hd0 : 0 < d).
    { destruct (Qlt_le_dec 0 d) as [H|H]; [exact H|].
      assert (d == 0) by lra. apply Qeq_bool_iff in H0. congruence. }
    right. eexists. split; [reflexivity|].
    assert (0 <= n / d) by (apply Qle_shift_div_l; lra).
    assert (n / d <= 1) by (apply Qle_shift_div_r; lra).
    lra.
Qed.

Lemma length_k_percent (df : list bar) (k d : nat) :
  length (k_percent (calculate_stochastic df k d)) = length df.
Proof.
  unfold calculate_stochastic. simpl.
  rewrite length_map, !length_zip_with, !length_rolling, !length_col. lia.
Qed.

Lemma length_williams_r (df : list bar) (period : nat) :
  length (calculate_williams_r df period) = length df.
Proof.
  unfold calculate_williams_r.
  rewrite length_map, !length_zip_with, !length_rolling, !length_col. lia.
Qed.

Lemma stochastic_k_within (df : list bar) (k d : nat) :
  Forall (fun b => low b <= close b /\ close b <= high b) df ->
  Forall (nan_or_within 0 100) (k_percent (calculate_stochastic df k d)).
Proof.
  intros Hwf. apply Forall_lookup. intros i x Hx.
  assert (Hi : (i < length df)%nat).
  { apply lookup_lt_Some in Hx. rewrite length_k_percent in Hx. exact Hx. }
  destruct (lookup_lt_is_Some_2 df i Hi) as [b Hb].
  destruct (rolling_extremes df k i b Hb) as [L [H [HL [HH Hc]]]].
  rewrite (stochastic_k_lookup df k d i b L H Hb HL HH) in Hx.
  injection Hx as <-.
  destruct Hc as [[-> ->] | [lo [hi [bl [bh [-> [-> [Hlo [Hhi _]]]]]]]]].
  - left. reflexivity.
  - rewrite Forall_lookup in Hwf. pose proof (Hwf _ _ Hb) as [H1 H2].
    simpl. apply (ratio_percent (close b + - lo) (hi + - lo)); lra.
Qed.

(** On bars with low <= close <= high, every %K and every %D entry of the
    stochastic oscillator is missing or a number between 0 and 100; %K is
    missing where the window has no range. *)
Theorem stochastic_within_0_100 (df : list bar) (k_period d_period : nat) :
  Forall (fun b => low b <= close b /\ close b <= high b) df ->
  Forall (nan_or_within 0 100)
         (k_percent (calculate_stochastic df k_period d_period))
  /\ Forall (nan_or_within 0 100)
            (d_percent (calculate_stochastic df k_period d_period)).
Proof.
  intros Hwf. split; [apply stochastic_k_within; exact Hwf|].
  change (d_percent (calculate_stochastic df k_period d_period))
    with (rolling d_period mean
            (k_percent (calculate_stochastic df k_period d_period))).
  apply rolling_mean_within, stochastic_k_within, Hwf.
Qed.

Lemma stochastic_within_0_100_witness :
  Forall (nan_or_within 0 100)
         (k_percent (calculate_stochastic Bars.straddle_bars 2 2))
  /\ Forall (nan_or_within 0 100)
            (d_percent (calculate_stochastic Bars.straddle_bars 2 2)).
Proof.
  apply (stochastic_within_0_100 Bars.straddle_bars 2 2).
  repeat constructor; simpl; lra.
Defined.

(** On bars with low <= close <= high, every Williams %R entry is missing
    or a number between -100 and 0. *)
Theorem williams_r_within_range (df : list bar) (period : nat) :
  Forall (fun b => low b <= close b /\ close b <= high b) df ->
  Forall (nan_or_within (-100) 0) (calculate_williams_r df period).
Proof.
  intros Hwf. apply Forall_lookup. intros i x Hx.
  assert (Hi : (i < length df)%nat).
  { apply lookup_lt_Some in Hx. rewrite length_williams_r in Hx. exact Hx. }
  destruct (lookup_lt_is_Some_2 df i Hi) as [b Hb].
  destruct (rolling_extremes df period i b Hb) as [L [H [HL [HH Hc]]]].
  rewrite (williams_r_lookup df period i b L H Hb HL HH) in Hx.
  injection Hx as <-.
  destruct Hc as [[-> ->] | [lo [hi [bl [bh [-> [-> [Hlo [Hhi _]]]]]]]]].
  - left. reflexivity.
  - rewrite Forall_lookup in Hwf. pose proof (Hwf _ _ Hb) as [H1 H2].
    simpl. apply (ratio_neg_percent (hi + - close b) (hi + - lo)); lra.
Qed.

Lemma williams_r_within_range_witness :
  Forall (nan_or_within (-100) 0) (calculate_williams_r Bars.straddle_bars 2).
Proof.
  apply (williams_r_within_range Bars.straddle_bars 2).
  repeat constructor; simpl; lra.
Defined.

Lemma mul_num_l (c : Q) (x : float) (a : Q) :
  mul (Num c) x = Num a -> exists r, x = Num r /\ a = c * r.
Proof.
  destruct x as [r| | |]; simpl.
  - intros [= <-]. eauto.
  - intros H. exfalso. apply (signed_not_num c a PInf); auto.
  - intros H. exfalso. apply (signed_not_num c a NInf); auto.
  - discriminate.
Qed.

Lemma div_nums (n d r : Q) :
  div (Num n) (Num d) = Num r -> ~ d == 0 /\ r = n / d.
Proof.
  unfold div. destruct (Qeq_bool d 0) eqn:E.
  - intros H. exfalso. apply (signed_not_num n r PInf); auto.
  - intros [= <-]. split; [|reflexivity].
    intros Hd. apply Qeq_bool_iff in Hd. congruence.
Qed.

(** Where %K of the stochastic oscillator is a number, Williams %R over the
    same period is a number too, and %K - %R = 100. *)
Theorem stochastic_williams_complement (df : list bar)
    (period d_period i : nat) (k : Q) :
  k_percent (calculate_stochastic df period d_period) !! i = Some (Num k) ->
  exists w,
    calculate_williams_r df period !! i = Some (Num w)
    /\ k - w == 100.
Proof.
  intros Hk.
  assert (Hi : (i < length df)%nat).
  { apply lookup_lt_Some in Hk. rewrite length_k_percent in Hk. exact Hk. }
  destruct (lookup_lt_is_Some_2 df i Hi) as [b Hb].
  destruct (rolling_extremes df period i b Hb) as [L [H [HL [HH Hc]]]].
  rewrite (stochastic_k_lookup df period d_period i b L H Hb HL HH) in Hk.
  rewrite (williams_r_lookup df period i b L H Hb HL HH).
  injection Hk as Hk.
  destruct Hc as [[-> ->] | [lo [hi [bl [bh [-> [-> _]]]]]]];
    [discriminate|].
  destruct (mul_num_l _ _ _ Hk) as [r [Hr ->]].
  simpl in Hr. destruct (div_nums _ _ _ Hr) as [Hd ->].
  simpl. unfold div. destruct (Qeq_bool (hi + - lo) 0) eqn:E.
  { apply Qeq_bool_iff in E. contradiction. }
  eexists. split; [reflexivity|]. field. exact Hd.
Qed.

Lemma stochastic_williams_complement_witness :
  exists w,
    calculate_williams_r Bars.straddle_bars 2 !! 2%nat = Some (Num w)
    /\ (100 # 2) - w == 100.
Proof.
  apply (stochastic_williams_complement Bars.straddle_bars 2 2 2 (100 # 2)).
  vm_compute. reflexivity.
Defined.

(** ** On-balance volume *)

Import Totals.

Lemma total_volume_nonneg (df : list bar) :
  Forall (fun b => 0 <= volume b) df -> 0 <= total_volume df.
Proof.
  unfold total_volume. induction 1 as [|b df Hb _ IH]; simpl; lra.
Qed.

Lemma length_obv_from (pc : Q) (p : float) (rest : list bar) :
  length (obv_from pc p rest) = length rest.
Proof.
  revert pc p. induction rest as [|b r IH]; intros pc p; simpl;
    [reflexivity | rewrite IH; reflexivity].
Qed.

Lemma obv_from_bounded (rest : list bar) (pc p a : Q) :
  Forall (fun b => 0 <= volume b) rest ->
  - a <= p -> p <= a ->
  Forall (within (- (a + total_volume rest)) (a + total_volume rest))
         (obv_from pc (Num p) rest).
Proof.
  intros H. revert pc p a.
  induction H as [|b r Hb Hr IH]; intros pc p a H1 H2; [constructor|].
  pose proof (total_volume_nonneg r Hr) as Hn.
  change (total_volume (b :: r)) with (volume b + total_volume r).
  assert (Hstep : forall p',
            - (a + volume b) <= p' -> p' <= a + volume b ->
            Forall (within (- (a + (volume b + total_volume r)))
                           (a + (volume b + total_volume r)))
                   (Num p' :: obv_from (close b) (Num p') r)).
  { intros p' Hp1 Hp2. constructor.
    - exists p'. split; [reflexivity | lra].
    - eapply Forall_impl; [apply (IH (close b) p' (a + volume b) Hp1 Hp2)|].
      intros x. apply within_weaken; lra. }
  simpl. destruct (Qltb pc (close b)).
  - apply Hstep; lra.
  - destruct (Qltb (close b) pc); apply Hstep; lra.
Qed.

(** [calculate_obv] raises [IndexError] on an empty frame; on a non-empty
    frame with non-negative volumes it returns one entry per bar, each a
    number whose magnitude is at most the total volume of the frame. *)
Theorem obv_bounded_by_total_volume (df : list bar) :
  calculate_obv [] = Raised IndexError
  /\ (df <> [] -> Forall (fun b => 0 <= volume b) df ->
      exists o,
        calculate_obv df = Returned o
        /\ length o = length df
        /\ Forall (within (- total_volume df) (total_volume df)) o).
Proof.
  split; [reflexivity|]. intros Hne H.
  destruct df as [|b0 rest]; [contradiction|].
  apply Forall_cons in H as [H0 Hr].
  eexists. split; [reflexivity|]. split.
  { simpl. rewrite length_obv_from. reflexivity. }
  pose proof (total_volume_nonneg rest Hr) as Hn.
  change (total_volume (b0 :: rest)) with (volume b0 + total_volume rest).
  constructor.
  - exists (volume b0). split; [reflexivity | lra].
  - apply obv_from_bounded; [exact Hr | lra | lra].
Qed.

Lemma obv_bounded_by_total_volume_witness :
  exists o,
    calculate_obv Bars.rising_bars = Returned o
    /\ length o = length Bars.rising_bars
    /\ Forall (within (- total_volume Bars.rising_bars)
                      (total_volume Bars.rising_bars)) o.
Proof.
  apply (proj2 (obv_bounded_by_total_volume Bars.rising_bars)).
  - discriminate.
  - repeat constructor; discriminate.
Defined.

Lemma obv_from_flat (rest : list bar) (pc c : Q) (p : float) :
  pc == c -> Forall (fun b => close b == c) rest ->
  obv_from pc p rest = replicate (length rest) p.
Proof.
  intros Hpc H. revert pc Hpc.
  induction H as [|b r Hb _ IH]; intros pc Hpc; [reflexivity|].
  simpl.
  assert (E1 : Qltb pc (close b) = false) by (apply Qltb_ge; lra).
  assert (E2 : Qltb (close b) pc = false) by (apply Qltb_ge; lra).
  rewrite E1, E2. f_equal. apply IH. exact Hb.
Qed.

(** On flat closes the OBV stays at the volume of the first bar. *)
Theorem obv_flat_closes_constant (df : list bar) (b0 : bar) (c : Q) :
  df !! 0%nat = Some b0 ->
  Forall (fun b => close b == c) df ->
  calculate_obv df = Returned (replicate (length df) (Num (volume b0))).
Proof.
  intros H0 H. destruct df as [|b rest]; [discriminate|].
  injection H0 as ->. apply Forall_cons in H as [Hb Hr].
  simpl. f_equal. f_equal. apply (obv_from_flat rest (close b0) c); assumption.
Qed.

Lemma obv_flat_closes_constant_witness :
  calculate_obv Bars.flat_bars
  = Returned (replicate (length Bars.flat_bars) (Num 500)).
Proof.
  apply (obv_flat_closes_constant Bars.flat_bars (Bar 10 10 10 500) 10).
  - reflexivity.
  - repeat constructor.
Defined.

Lemma obv_from_rising (rest : list bar) (pc p : Q) :
  Forall (fun d => 0 < d) (deltas (pc :: map close rest)) ->
  obv_from pc (Num p) rest = map Num (running_total p (map volume rest)).
Proof.
  revert pc p. induction rest as [|b r IH]; intros pc p H; [reflexivity|].
  change (deltas (pc :: map close (b :: r)))
    with ((close b - pc) :: deltas (close b :: map close r)) in H.
  apply Forall_cons in H as [Hd Hr]. simpl.
  assert (E : Qltb pc (close b) = true) by (apply Qltb_lt; lra).
  rewrite E. f_equal. apply IH. exact Hr.
Qed.

Lemma obv_from_falling (rest : list bar) (pc p : Q) :
  Forall (fun d => d < 0) (deltas (pc :: map close rest)) ->
  obv_from pc (Num p) rest = map Num (running_difference p (map volume rest)).
Proof.
  revert pc p. induction rest as [|b r IH]; intros pc p H; [reflexivity|].
  change (deltas (pc :: map close (b :: r)))
    with ((close b - pc) :: deltas (close b :: map close r)) in H.
  apply Forall_cons in H as [Hd Hr]. simpl.
  assert (E1 : Qltb pc (close b) = false) by (apply Qltb_ge; lra).
  assert (E2 : Qltb (close b) pc = true) by (apply Qltb_lt; lra).
  rewrite E1, E2. f_equal. apply IH. exact Hr.
Qed.

(** On closes that rise at every bar the OBV is the running total of the
    volumes; on closes that fall at every bar it is the first volume less
    the running total of the later ones. *)
Theorem obv_strictly_monotone_closes (b0 : bar) (rest : list bar) :
  (Forall (fun d => 0 < d) (deltas (map close (b0 :: rest))) ->
   calculate_obv (b0 :: rest)
   = Returned (Num (volume b0)
               :: map Num (running_total (volume b0) (map volume rest))))
  /\ (Forall (fun d => d < 0) (deltas (map close (b0 :: rest))) ->
      calculate_obv (b0 :: rest)
      = Returned (Num (volume b0)
                  :: map Num (running_difference (volume b0)
                                                 (map volume rest)))).
Proof.
  split; intros H; simpl; do 2 f_equal.
  - apply obv_from_rising. exact H.
  - apply obv_from_falling. exact H.
Qed.

Lemma obv_strictly_monotone_closes_witness :
  calculate_obv Bars.rising_bars
  = Returned [Num 100; Num (100 + 100); Num (100 + 100 + 100)].
Proof.
  apply (proj1 (obv_strictly_monotone_closes (Bar 1 1 1 100)
                  [Bar 2 2 2 100; Bar 4 4 4 100])).
  repeat constructor.
Defined.

(** ** Commodity channel index *)

Lemma length_typical_price (df : list bar) :
  length (typical_price df) = length df.
Proof.
  unfold typical_price.
  rewrite length_map, !length_zip_with, !length_col. lia.
Qed.

(** The CCI has one entry per bar, and the entries at the first
    [period - 1] bars are missing whatever the prices: both the moving
    average and the mean deviation need a full window. *)
Theorem cci_aligned_and_warm_up (df : list bar) (period i : nat) :
  (i + 1 < period)%nat -> (i < length df)%nat ->
  length (calculate_cci df period) = length df
  /\ calculate_cci df period !! i = Some NaN
  /\ rolling period mean_abs_deviation (typical_price df) !! i = Some NaN.
Proof.
  intros Hw Hi.
  assert (Hl : (i < length (typical_price df))%nat)
    by (rewrite length_typical_price; exact Hi).
  split.
  { unfold calculate_cci.
    rewrite !length_zip_with, length_map, !length_rolling,
      length_typical_price. lia. }
  pose proof (rolling_warmup period mean (typical_price df) i Hw Hl) as Hs.
  pose proof (rolling_warmup period mean_abs_deviation (typical_price df) i
                Hw Hl) as Hm.
  split; [|exact Hm].
  unfold calculate_cci.
  rewrite !lookup_zip_with, lookup_map, Hs, Hm.
  destruct (typical_price df !! i) as [p|] eqn:Ep.
  - cbn. destruct p; reflexivity.
  - apply lookup_ge_None in Ep. lia.
Qed.

Lemma cci_aligned_and_warm_up_witness :
  length (calculate_cci Bars.rising_bars 3) = length Bars.rising_bars
  /\ calculate_cci Bars.rising_bars 3 !! 1%nat = Some NaN
  /\ rolling 3 mean_abs_deviation (typical_price Bars.rising_bars) !! 1%nat
     = Some NaN.
Proof.
  apply (cci_aligned_and_warm_up Bars.rising_bars 3 1); simpl; lia.
Defined.

(** ** Directional movement and ADX *)

Lemma diff_col (c : bar -> Q) (b0 : bar) (df : list bar) :
  diff (col c (b0 :: df)) = NaN :: map Num (deltas (map c (b0 :: df))).
Proof.
  unfold diff, shift, col, deltas. simpl. f_equal.
  rewrite <- (map_map c Num). apply diff_tail.
Qed.

Lemma diff_col_shape (c : bar -> Q) (df : list bar) :
  Forall (fun x => x = NaN \/ is_num x) (diff (col c df)).
Proof.
  destruct df as [|b0 df]; [constructor|].
  rewrite diff_col. constructor; [left; reflexivity|].
  induction (deltas (map c (b0 :: df))) as [|d ds IH]; simpl; constructor;
    [right; eexists; reflexivity | exact IH].
Qed.

Lemma length_diff_col (c : bar -> Q) (df : list bar) :
  length (diff (col c df)) = length df.
Proof.
  unfold diff. rewrite length_zip_with, length_shift, length_col. lia.
Qed.

Lemma length_adx_plus_dm (df : list bar) :
  length (adx_plus_dm df) = length df.
Proof.
  unfold adx_plus_dm.
  rewrite length_zip_with, length_map, !length_diff_col. lia.
Qed.

Lemma length_adx_minus_dm (df : list bar) :
  length (adx_minus_dm df) = length df.
Proof.
  unfold adx_minus_dm.
  rewrite length_zip_with, length_map, length_diff_col, length_adx_plus_dm.
  lia.
Qed.

Lemma kept_positive (x y : float) :
  x = NaN \/ is_num x ->
  nonneg_num (if gtb x y && gtb x (Num 0) then x else Num 0).
Proof.
  intros Hx. destruct (gtb x y && gtb x (Num 0)) eqn:E.
  - apply andb_prop in E as [_ E]. unfold gtb in E.
    destruct Hx as [-> | [q ->]]; [discriminate|].
    simpl in E. apply Qltb_lt in E. exists q. split; [reflexivity | lra].
  - exists 0. split; [reflexivity | lra].
Qed.

Lemma adx_dm_lookup (df : list bar) (i : nat) (p m : float) :
  adx_plus_dm df !! i = Some p ->
  adx_minus_dm df !! i = Some m ->
  exists p0 m0,
    (p0 = NaN \/ is_num p0) /\ (m0 = NaN \/ is_num m0)
    /\ p = (if gtb p0 m0 && gtb p0 (Num 0) then p0 else Num 0)
    /\ m = (if gtb m0 p && gtb m0 (Num 0) then m0 else Num 0).
Proof.
  intros Hp Hm. unfold adx_minus_dm in Hm.
  rewrite lookup_zip_with, Hp in Hm. unfold adx_plus_dm in Hp.
  rewrite lookup_zip_with in Hp. rewrite lookup_map in Hp, Hm.
  destruct (diff (col high df) !! i) as [p0|] eqn:Eh; [|discriminate].
  destruct (diff (col low df) !! i) as [l0|] eqn:El; [|discriminate].
  simpl in Hp, Hm. injection Hp as Hp. injection Hm as Hm.
  exists p0, (neg l0).
  pose proof (diff_col_shape high df) as Sh.
  pose proof (diff_col_shape low df) as Sl.
  rewrite Forall_lookup in Sh, Sl.
  split; [exact (Sh _ _ Eh)|]. split.
  - destruct (Sl _ _ El) as [-> | [q ->]];
      [left; reflexivity | right; eexists; reflexivity].
  - split; symmetry; assumption.
Qed.

(** The two directional movements of a bar are non-negative numbers and at
    most one of them is positive. *)
Theorem adx_directional_movement_exclusive (df : list bar) (i : nat)
    (p m : float) :
  adx_plus_dm df !! i = Some p ->
  adx_minus_dm df !! i = Some m ->
  nonneg_num p /\ nonneg_num m
  /\ ~ (ltb (Num 0) p = true /\ ltb (Num 0) m = true).
Proof.
  intros Hp Hm.
  destruct (adx_dm_lookup df i p m Hp Hm) as [p0 [m0 [Sp [Sm [Ep Em]]]]].
  split; [rewrite Ep; apply kept_positive, Sp|].
  split; [rewrite Em; apply kept_positive, Sm|].
  intros [H1 H2].
  destruct (gtb p0 m0 && gtb p0 (Num 0)) eqn:E1.
  - subst p. apply andb_prop in E1 as [E1 _].
    destruct (gtb m0 p0 && gtb m0 (Num 0)) eqn:E2.
    + apply andb_prop in E2 as [E2 _]. unfold gtb in *.
      apply ltb_asym in E1. congruence.
    + subst m. simpl in H2. apply Qltb_lt in H2. lra.
  - subst p. simpl in H1. apply Qltb_lt in H1. lra.
Qed.

Lemma adx_directional_movement_exclusive_witness :
  nonneg_num (Num 2) /\ nonneg_num (Num 0)
  /\ ~ (ltb (Num 0) (Num 2) = true /\ ltb (Num 0) (Num 0) = true).
Proof.
  apply (adx_directional_movement_exclusive Bars.straddle_bars 2
           (Num 2) (Num 0)); reflexivity.
Defined.













Lemma dropna_lt (l : list float) :
  NaN ∈ l -> (length (dropna l) < length l)%nat.
Proof.
  induction l as [|x l IH]; intros H; [inversion H|].
  apply elem_of_cons in H as [<- | H].
  - simpl. pose proof (length_dropna_le l). unfold dropna in *. lia.
  - specialize (IH H). unfold dropna in *. simpl.
    destruct (negb (is_nan x)); simpl; lia.
Qed.

Lemma window_at_lookup (w i j : nat) (s : list float) :
  (i + 1 - w + j < i + 1)%nat ->
  window_at w i s !! j = s !! (i + 1 - w + j)%nat.
Proof.
  intros H. unfold window_at. rewrite lookup_drop, lookup_take_lt by exact H.
  reflexivity.
Qed.

Lemma length_adx_dx (df : list bar) (period : nat) :
  length (zip_with dx_at (plus_di (calculate_adx df period))
                         (minus_di (calculate_adx df period)))
  = length df.
Proof.
  simpl. unfold directional_index, calculate_atr.
  rewrite !length_zip_with, !length_map, !length_zip_with, !length_rolling,
    length_map, length_rolling, length_true_range, length_adx_plus_dm,
    length_adx_minus_dm.
  lia.
Qed.

Lemma adx_dx_warmup (df : list bar) (period j : nat) :
  (j + 1 < period)%nat -> (j < length df)%nat ->
  zip_with dx_at (plus_di (calculate_adx df period))
                 (minus_di (calculate_adx df period)) !! j
  = Some NaN.
Proof.
  intros Hj Hlen.
  destruct (lookup_lt_is_Some_2
              (zip_with dx_at (plus_di (calculate_adx df period))
                              (minus_di (calculate_adx df period))) j)
    as [x Hx]; [rewrite length_adx_dx; exact Hlen|].
  rewrite Hx. f_equal. simpl in Hx.
  rewrite lookup_zip_with in Hx. unfold directional_index in Hx.
  rewrite !lookup_map, !lookup_zip_with in Hx.
  rewrite (rolling_warmup period mean (adx_plus_dm df) j Hj) in Hx
    by (rewrite length_adx_plus_dm; exact Hlen).
  simpl in Hx.
  destruct (rolling period mean _ !! j) as [t|]; simpl in Hx; [|discriminate].
  destruct (rolling period mean (adx_minus_dm df) !! j) as [m|];
    simpl in Hx; [|discriminate].
  injection Hx as <-. reflexivity.
Qed.

(** The ADX needs two windows: it is missing at each of the first
    2 * (period - 1) bars. *)
Theorem adx_warm_up (df : list bar) (period i : nat) :
  (i + 2 < 2 * period)%nat -> (i < length df)%nat ->
  adx (calculate_adx df period) !! i = Some NaN.
Proof.
  intros Hi Hlen.
  change (adx (calculate_adx df period))
    with (rolling period mean
            (zip_with dx_at (plus_di (calculate_adx df period))
                            (minus_di (calculate_adx df period)))).
  set (dx := zip_with dx_at (plus_di (calculate_adx df period))
                            (minus_di (calculate_adx df period))).
  assert (Ldx : length dx = length df) by apply length_adx_dx.
  destruct (Nat.lt_ge_cases (i + 1) period) as [Hlt|Hge].
  { apply rolling_warmup; [exact Hlt | rewrite Ldx; exact Hlen]. }
  rewrite rolling_lookup by (rewrite Ldx; exact Hlen).
  assert (Hnan : NaN ∈ window_at period i dx).
  { apply (list_elem_of_lookup_2 _ 0).
    rewrite window_at_lookup by lia.
    replace (i + 1 - period + 0)%nat with (i + 1 - period)%nat by lia.
    apply adx_dx_warmup; lia. }
  pose proof (dropna_lt _ Hnan) as Hlt.
  pose proof (length_window_at_le period i dx) as Hle.
  assert (Hw : (length (window_at period i dx) <= period)%nat).
  { unfold window_at. rewrite length_drop, length_take. lia. }
  destruct (Nat.ltb_spec (length (dropna (window_at period i dx))) period);
    [reflexivity | lia].
Qed.

Lemma adx_warm_up_witness :
  adx (calculate_adx Bars.straddle_bars 3) !! 2%nat = Some NaN.
Proof.
  apply (adx_warm_up Bars.straddle_bars 3 2); simpl; lia.
Defined.

(** ** Volume profile: fallback, point of control, conservation *)

(** The fallback dictionary is returned exactly when the frame is empty or
    no bucket is asked for. *)
Theorem volume_profile_fallback_iff (df : list bar) (bins : nat) :
  calculate_volume_profile df bins = volume_profile_fallback df
  <-> df = [] \/ bins = 0%nat.
Proof.
  split.
  - intros E. destruct df as [|b df]; [left; reflexivity|].
    destruct bins as [|n]; [right; reflexivity|]. exfalso.
    destruct (volume_profile_try_returns (b :: df) (S n))
      as [r [Hr [Hl _]]]; [discriminate | lia |].
    unfold calculate_volume_profile in E. rewrite Hr in E.
    rewrite E in Hl. simpl in Hl. lia.
  - intros [-> | ->].
    + unfold calculate_volume_profile, volume_profile_try, cut, cut_edges.
      destruct (bins <? 1)%nat; reflexivity.
    + reflexivity.
Qed.

Lemma idxmax_from_max (best : interval * Q) (rest : list (interval * Q)) :
  exists v,
    (idxmax_from best rest, v) ∈ best :: rest
    /\ snd best <= v
    /\ forall c, c ∈ rest -> snd c <= v.
Proof.
  revert best. induction rest as [|c rest IH]; intros best; simpl.
  - exists (snd best). split; [destruct best; left|].
    split; [lra|]. intros c Hc. inversion Hc.
  - destruct (IH (if Qltb (snd best) (snd c) then c else best))
      as [v [Hin [Hb Hr]]].
    exists v. destruct (Qltb (snd best) (snd c)) eqn:E.
    + apply Qltb_lt in E. split; [right; exact Hin|]. split; [lra|].
      intros c' Hc'. apply elem_of_cons in Hc' as [-> | Hc']; [exact Hb|].
      apply Hr. exact Hc'.
    + apply Qltb_ge in E. split.
      * apply elem_of_cons in Hin as [-> | Hin]; [left | right; right; exact Hin].
      * split; [exact Hb|].
        intros c' Hc'. apply elem_of_cons in Hc' as [-> | Hc']; [lra|].
        apply Hr. exact Hc'.
Qed.

(** On a non-empty frame with at least one bucket, the point of control
    is the middle of a bucket of the profile that holds at least as much
    volume as every other bucket. *)
Theorem poc_is_a_heaviest_bucket (df : list bar) (bins : nat) :
  df <> [] -> (1 <= bins)%nat ->
  exists iv v,
    (iv, v) ∈ volume_profile (calculate_volume_profile df bins)
    /\ poc (calculate_volume_profile df bins) = mid iv
    /\ forall c, c ∈ volume_profile (calculate_volume_profile df bins) ->
                 snd c <= v.
Proof.
  intros Hdf Hb. unfold calculate_volume_profile, volume_profile_try.
  destruct (cut_returns (map close df) bins) as [cats [-> Hl]];
    [destruct df; [contradiction | discriminate] | exact Hb |].
  cbn [obind].
  pose proof (length_groupby_volume cats df) as Hg.
  destruct (groupby_volume cats df) as [|c rest] eqn:E;
    [simpl in Hg; lia|].
  cbn [idxmax obind volume_profile poc].
  destruct (idxmax_from_max c rest) as [v [Hin [Hc Hr]]].
  exists (idxmax_from c rest), v. split; [exact Hin|].
  split; [reflexivity|].
  intros c' Hc'. apply elem_of_cons in Hc' as [-> | Hc']; [exact Hc|].
  apply Hr. exact Hc'.
Qed.

Lemma poc_is_a_heaviest_bucket_witness :
  exists iv v,
    (iv, v) ∈ volume_profile (calculate_volume_profile Bars.flat_bars 20)
    /\ poc (calculate_volume_profile Bars.flat_bars 20) = mid iv
    /\ forall c,
         c ∈ volume_profile (calculate_volume_profile Bars.flat_bars 20) ->
         snd c <= v.
Proof.
  apply (poc_is_a_heaviest_bucket Bars.flat_bars 20); [discriminate | lia].
Defined.

Lemma fold_left_Qplus_right (l : list Q) (a : Q) :
  fold_left Qplus l a == a + fold_right Qplus 0 l.
Proof.
  revert a. induction l as [|x l IH]; intros a; simpl; [lra|].
  rewrite IH. lra.
Qed.

Lemma sum_filter_volume (P : bar -> bool) (df : list bar) :
  fold_right Qplus 0 (map volume (List.filter P df))
  == fold_right Qplus 0 (map (fun b => if P b then volume b else 0) df).
Proof.
  induction df as [|b df IH]; simpl; [reflexivity|].
  destruct (P b); simpl; rewrite IH; lra.
Qed.

Lemma sum_map_add (f g h : bar -> Q) (df : list bar) :
  (forall b, f b == g b + h b) ->
  fold_right Qplus 0 (map f df)
  == fold_right Qplus 0 (map g df) + fold_right Qplus 0 (map h df).
Proof.
  intros H. induction df as [|b df IH]; simpl; [lra|].
  rewrite IH, H. lra.
Qed.

Lemma sum_map_zero (f : bar -> Q) (df : list bar) :
  (forall b, f b == 0) -> fold_right Qplus 0 (map f df) == 0.
Proof.
  intros H. induction df as [|b df IH]; simpl; [reflexivity|].
  rewrite IH, H. lra.
Qed.

(** The volume in a profile is the volume of every bar counted once for
    each category that contains its close. *)
Lemma profile_volume_by_hits (cats : list interval) (df : list bar) :
  profile_volume (groupby_volume cats df)
  == fold_right Qplus 0
       (map (fun b => inject_Z (Z.of_nat (hits cats (close b))) * volume b) df).
Proof.
  induction cats as [|iv cats IH].
  - unfold profile_volume. simpl. symmetry. apply sum_map_zero.
    intros b. unfold hits. simpl. ring.
  - unfold profile_volume in *. simpl. rewrite IH.
    rewrite fold_left_Qplus_right, sum_filter_volume.
    rewrite (sum_map_add
               (fun b => inject_Z (Z.of_nat (hits (iv :: cats) (close b)))
                         * volume b)
               (fun b => if contains iv (close b) then volume b else 0)
               (fun b => inject_Z (Z.of_nat (hits cats (close b))) * volume b)).
    + lra.
    + intros b. rewrite hits_cons. destruct (contains iv (close b)).
      * rewrite Nat2Z.inj_succ. unfold Z.succ. rewrite inject_Z_plus.
        change (inject_Z 1) with 1. ring.
      * ring.
Qed.

Lemma sum_single_hits (cats : list interval) (df : list bar) :
  Forall (fun b => hits cats (close b) = 1%nat) df ->
  fold_right Qplus 0
    (map (fun b => inject_Z (Z.of_nat (hits cats (close b))) * volume b) df)
  == total_volume df.
Proof.
  unfold total_volume. induction 1 as [|b df Hb _ IH]; simpl; [reflexivity|].
  rewrite IH, Hb. change (inject_Z (Z.of_nat 1)) with 1. ring.
Qed.

Lemma volume_profile_under_rows (observed : bool) (df : list bar)
    (bins : nat) (cats : list interval) :
  df <> [] -> (1 <= bins)%nat ->
  cut (map close df) bins = Returned cats ->
  volume_profile (calculate_volume_profile_under observed df bins)
  = groupby_volume (observed_categories observed cats df) df.
Proof.
  intros Hdf Hb Hc.
  destruct (volume_profile_try_under_returns observed df bins Hdf Hb)
    as [r [Hr _]].
  unfold calculate_volume_profile_under. rewrite Hr.
  unfold volume_profile_try_under in Hr. rewrite Hc in Hr. cbn [obind] in Hr.
  destruct (idxmax _); cbn [obind] in Hr; [|discriminate].
  injection Hr as <-. reflexivity.
Qed.

Lemma int64_wrap_small (z : Z) :
  (- 2 ^ 63 <= z < 2 ^ 63)%Z -> Int64.wrap z = z.
Proof.
  intros H. unfold Int64.wrap. rewrite Z.mod_small by lia. lia.
Qed.

Lemma whole_volumes_nonneg (l : list bar) :
  Forall whole_volume l -> 0 <= fold_right Qplus 0 (map volume l).
Proof.
  induction 1 as [|b l [Hb _] _ IH]; cbn [map fold_right]; lra.
Qed.

Lemma whole_volumes_filter (P : bar -> bool) (l : list bar) :
  Forall whole_volume l ->
  Forall whole_volume (List.filter P l)
  /\ fold_right Qplus 0 (map volume (List.filter P l))
     <= fold_right Qplus 0 (map volume l).
Proof.
  induction 1 as [|b l Hb Hl [IH1 IH2]]; cbn [List.filter map fold_right].
  - split; [constructor | lra].
  - destruct Hb as [Hb0 Hbw]. destruct (P b); cbn [map fold_right].
    + split; [constructor; [split|]; assumption | lra].
    + split; [exact IH1 | lra].
Qed.

(** Without overflow the wrapping sum of an [int64] column is the sum. *)
Lemma int64_sum_exact (l : list bar) (acc : Z) :
  Forall whole_volume l -> (0 <= acc)%Z ->
  inject_Z acc + fold_right Qplus 0 (map volume l) < inject_Z (2 ^ 63) ->
  inject_Z (fold_left Int64.add (map int64_volume l) acc)
  == inject_Z acc + fold_right Qplus 0 (map volume l)
  /\ (0 <= fold_left Int64.add (map int64_volume l) acc)%Z.
Proof.
  intros Hw. revert acc.
  induction Hw as [|b l [Hb0 Hbw] Hl IH]; intros acc Ha Hlt;
    cbn [map fold_left fold_right] in *.
  - split; [lra | exact Ha].
  - pose proof (whole_volumes_nonneg l Hl) as Hs.
    set (v := Qfloor (volume b)) in *.
    assert (Hv0 : (0 <= v)%Z).
    { change 0%Z with (Qfloor 0). apply Qfloor_resp_le. exact Hb0. }
    assert (Ha0 : 0 <= inject_Z acc).
    { rewrite Zle_Qle in Ha. exact Ha. }
    assert (Hv63 : (acc + v < 2 ^ 63)%Z).
    { rewrite Zlt_Qlt, inject_Z_plus. lra. }
    assert (Ev : int64_volume b = v).
    { unfold int64_volume. apply int64_wrap_small. fold v. lia. }
    assert (Ea : Int64.add acc v = (acc + v)%Z).
    { unfold Int64.add. apply int64_wrap_small. lia. }
    rewrite Ev, Ea.
    destruct (IH (acc + v)%Z) as [IH1 IH2];
      [lia | rewrite inject_Z_plus; lra |].
    split; [rewrite IH1, inject_Z_plus; lra | exact IH2].
Qed.

(** On whole-number volumes that do not overflow, the [int64] profile is
    the exact one, row by row. *)
Lemma groupby_volume_int64_exact (cats : list interval) (df : list bar) :
  Forall whole_volume df -> total_volume df < inject_Z (2 ^ 63) ->
  Forall2 (fun r q => fst r = fst q /\ inject_Z (snd r) == snd q)
          (groupby_volume_int64 cats df) (groupby_volume cats df)
  /\ Forall (fun r => (0 <= snd r)%Z /\ inject_Z (snd r) <= total_volume df)
            (groupby_volume_int64 cats df)
  /\ inject_Z (fold_right Z.add 0%Z (map snd (groupby_volume_int64 cats df)))
     == profile_volume (groupby_volume cats df).
Proof.
  intros Hw Ht. unfold total_volume in Ht.
  assert (Hrow : forall iv,
            let l := List.filter (fun b => contains iv (close b)) df in
            inject_Z (Int64.sum (map int64_volume l))
            == fold_left Qplus (map volume l) 0
            /\ (0 <= Int64.sum (map int64_volume l))%Z
            /\ inject_Z (Int64.sum (map int64_volume l)) <= total_volume df).
  { intros iv l.
    destruct (whole_volumes_filter (fun b => contains iv (close b)) df Hw)
      as [Hwl Hle]. fold l in Hwl, Hle.
    destruct (int64_sum_exact l 0 Hwl) as [E1 E2];
      [lia | change (inject_Z 0) with 0; lra |].
    change (inject_Z 0) with 0 in E1. unfold Int64.sum.
    split; [rewrite E1, fold_left_Qplus_right; reflexivity|].
    split; [exact E2|]. unfold total_volume. rewrite E1. lra. }
  induction cats as [|iv cats [IH1 [IH2 IH3]]].
  - split; [constructor|]. split; [constructor | reflexivity].
  - destruct (Hrow iv) as [R1 [R2 R3]].
    unfold groupby_volume_int64, groupby_volume, profile_volume in *.
    cbn [map fold_right fst snd] in *.
    split; [constructor; [split; [reflexivity | exact R1] | exact IH1]|].
    split; [constructor; [split; assumption | exact IH2]|].
    rewrite inject_Z_plus, IH3, R1. reflexivity.
Qed.

(** Bucketing loses nothing and counts nothing twice.  On a non-empty
    frame with at least one bucket and whole-number, non-negative volumes
    whose total is below 2^53, the sums of the [int64] volume column by
    bucket, under either default of [groupby], are the exact sums (no sum
    wraps around), each lies between 0 and the volume of the frame, and
    together they add up to the volume of the frame. *)
Theorem volume_profile_conserves_volume (observed : bool) (df : list bar)
    (bins : nat) :
  df <> [] -> (1 <= bins)%nat ->
  Forall whole_volume df ->
  total_volume df < inject_Z (2 ^ 53) ->
  exists pv,
    price_volume_int64 observed df bins = Returned pv
    /\ Forall2 (fun r q => fst r = fst q /\ inject_Z (snd r) == snd q) pv
         (volume_profile (calculate_volume_profile_under observed df bins))
    /\ Forall (fun r => (0 <= snd r)%Z /\ inject_Z (snd r) <= total_volume df)
              pv
    /\ inject_Z (fold_right Z.add 0%Z (map snd pv)) == total_volume df.
Proof.
  intros Hdf Hb Hw Ht.
  destruct (cut_returns (map close df) bins) as [cats [Hc _]];
    [destruct df; [contradiction | discriminate] | exact Hb |].
  unfold price_volume_int64. rewrite Hc. cbn [obind].
  eexists. split; [reflexivity|].
  rewrite (volume_profile_under_rows observed df bins cats Hdf Hb Hc).
  assert (H63 : total_volume df < inject_Z (2 ^ 63)).
  { assert (Hp : inject_Z (2 ^ 53) <= inject_Z (2 ^ 63)).
    { rewrite <- Zle_Qle. apply Z.pow_le_mono_r; lia. }
    lra. }
  destruct (groupby_volume_int64_exact
              (observed_categories observed cats df) df Hw H63)
    as [E1 [E2 E3]].
  split; [exact E1|]. split; [exact E2|].
  rewrite E3, profile_volume_by_hits. apply sum_single_hits.
  apply Forall_forall. intros b Hbin. apply list_elem_of_In in Hbin.
  rewrite observed_hits by exact Hbin.
  apply (cut_hits_once _ _ _ Hc). apply in_map. exact Hbin.
Qed.

Lemma volume_profile_conserves_volume_witness :
  exists pv,
    price_volume_int64 true Bars.rising_bars 20 = Returned pv
    /\ Forall2 (fun r q => fst r = fst q /\ inject_Z (snd r) == snd q) pv
         (volume_profile
            (calculate_volume_profile_under true Bars.rising_bars 20))
    /\ Forall (fun r => (0 <= snd r)%Z
                        /\ inject_Z (snd r) <= total_volume Bars.rising_bars)
              pv
    /\ inject_Z (fold_right Z.add 0%Z (map snd pv))
       == total_volume Bars.rising_bars.
Proof.
  apply (volume_profile_conserves_volume true Bars.rising_bars 20).
  - discriminate.
  - lia.
  - repeat constructor; discriminate.
  - reflexivity.
Defined.

(** * Further properties of the strategies *)

Lemma iloc_last_replicate {A} (n : nat) (x : A) :
  (1 <= n)%nat -> iloc_last (replicate n x) = Returned x.
Proof.
  intros Hn. unfold iloc_last.
  rewrite last_lookup, length_replicate, lookup_replicate_2 by lia.
  reflexivity.
Qed.

Lemma iloc_prev_replicate {A} (n : nat) (x : A) :
  iloc_prev (replicate n x) x = x.
Proof.
  unfold iloc_prev. rewrite length_replicate.
  destruct (Nat.ltb_spec 1 n); [|reflexivity].
  rewrite lookup_replicate_2 by lia. reflexivity.
Qed.

(** Up to [mom_length] bars the loop of [calculate_squeeze_momentum] only
    takes its first branch. *)
Lemma squeeze_momentum_short (sqrt : Q -> Q) (df : list bar)
    (bb_length kc_length : nat) (kc_mult : float) (mom_length : nat) :
  (length df <= mom_length)%nat ->
  momentum (calculate_squeeze_momentum sqrt df bb_length kc_length kc_mult
              mom_length)
  = replicate (length df) (Num 0).
Proof.
  intros Hn. unfold calculate_squeeze_momentum, calculate_bollinger_bands,
    calculate_sma.
  cbn [momentum].
  rewrite map_const_replicate with (y := Num 0).
  - rewrite length_seq, !length_zip_with, !length_map, !length_zip_with,
      !length_map, !length_zip_with, !length_rolling, !length_col.
    f_equal. lia.
  - intros i Hi. apply in_seq in Hi.
    rewrite !length_zip_with, !length_map, !length_zip_with,
      !length_map, !length_zip_with, !length_rolling, !length_col in Hi.
    destruct (Nat.ltb_spec i mom_length); [reflexivity | lia].
Qed.

Lemma length_squeeze_off (sqrt : Q -> Q) (df : list bar)
    (bb_length kc_length : nat) (kc_mult : float) (mom_length : nat) :
  length (squeeze_off (calculate_squeeze_momentum sqrt df bb_length kc_length
                         kc_mult mom_length))
  = length df.
Proof.
  unfold calculate_squeeze_momentum, calculate_bollinger_bands,
    calculate_sma, calculate_atr, per_bar. cbn [squeeze_off].
  rewrite !length_zip_with, !length_map, !length_rolling, !length_map,
    !length_zip_with, !length_col, length_true_range.
  lia.
Qed.

Lemma avg_volume_of_profile (df : list bar) (bins : nat) :
  avg_volume (calculate_volume_profile df bins)
  = rolling 20 mean (col volume df).
Proof.
  unfold calculate_volume_profile, volume_profile_try.
  destruct (cut (map close df) bins); cbn [obind]; [|reflexivity].
  destruct (idxmax _); cbn [obind]; reflexivity.
Qed.

(** With twelve bars or fewer the squeeze strategy stays silent: [analyze]
    returns, every momentum value of its analysis is 0, and
    [generate_signals] returns the empty list, whatever the prices, the
    strategy's parameters and its positions. *)
Theorem squeeze_strategy_silent_on_short_frame (sqrt : Q -> Q)
    (self : SqueezeMomentumStrategy.strategy) (code : string)
    (df : list bar) :
  (1 <= length df)%nat -> (length df <= 12)%nat ->
  exists a,
    SqueezeMomentumStrategy.analyze sqrt df = Returned a
    /\ momentum (SqueezeMomentumStrategy.squeeze_data a)
       = replicate (length df) (Num 0)
    /\ SqueezeMomentumStrategy.generate_signals self code a = Returned [].
Proof.
  intros H1 H12.
  assert (Hne : forall f : bar -> Q, col f df <> []).
  { intros f E. apply (f_equal length) in E. rewrite length_col in E.
    simpl in E. lia. }
  destruct (iloc_last_returns _ (Hne close)) as [p Hp].
  destruct (iloc_last_returns _ (Hne volume)) as [v Hv].
  unfold SqueezeMomentumStrategy.analyze. rewrite Hp, Hv. cbn [obind].
  eexists. split; [reflexivity|].
  cbn [SqueezeMomentumStrategy.squeeze_data].
  pose proof (squeeze_momentum_short sqrt df 20 20 (Num (3 # 2)) 12 H12) as Hm.
  split; [exact Hm|].
  match goal with
  | |- SqueezeMomentumStrategy.generate_signals _ _ ?a0 = _ => set (a := a0)
  end.
  destruct (squeeze_generate_signals_returns self code a) as [sigs Hs].
  - cbn [a SqueezeMomentumStrategy.squeeze_data]. rewrite Hm.
    intros E. apply (f_equal length) in E. rewrite length_replicate in E.
    simpl in E. lia.
  - cbn [a SqueezeMomentumStrategy.squeeze_data].
    intros E. apply (f_equal length) in E. rewrite length_squeeze_off in E.
    simpl in E. lia.
  - cbn [a SqueezeMomentumStrategy.volume_analysis].
    rewrite avg_volume_of_profile.
    intros E. apply (f_equal length) in E.
    rewrite length_rolling, length_col in E. simpl in E. lia.
  - rewrite Hs. f_equal.
    destruct (squeeze_generate_signals_inv _ _ _ _ Hs) as [cur [Hc Hcases]].
    cbn [a SqueezeMomentumStrategy.squeeze_data] in Hc, Hcases.
    rewrite Hm in Hc, Hcases.
    rewrite iloc_last_replicate in Hc by exact H1. injection Hc as <-.
    rewrite iloc_prev_replicate in Hcases. cbv zeta in Hcases.
    destruct Hcases as [[_ [_ Hg]] | [[_ [Hl _]] | [-> _]]].
    + discriminate Hg.
    + discriminate Hl.
    + reflexivity.
Qed.

Lemma squeeze_strategy_silent_on_short_frame_witness :
  exists a,
    SqueezeMomentumStrategy.analyze Bars.sqrt_floor Bars.rising_bars
    = Returned a
    /\ momentum (SqueezeMomentumStrategy.squeeze_data a)
       = replicate (length Bars.rising_bars) (Num 0)
    /\ SqueezeMomentumStrategy.generate_signals Samples.squeeze_holding
         "005930" a = Returned [].
Proof.
  apply (squeeze_strategy_silent_on_short_frame Bars.sqrt_floor
           Samples.squeeze_holding "005930" Bars.rising_bars);
    simpl; lia.
Defined.

(** The MACD strategy's decision, read off the last two bars of its
    analysis: a BUY signal exactly when the MACD line is above the signal
    line, the histogram went from at most 0 to above both 0 and the
    minimum histogram, and the RSI is below 50; a SELL signal exactly when
    the MACD line is below the signal line, the histogram went from at least
    0 to below 0, the RSI is above 50 and a position is open.  The
    thresholds [rsi_oversold] and [rsi_overbought] of the parameters play no
    part. *)
Theorem macd_signal_iff (self : MACDStrategy.strategy) (code : string)
    (a : MACDStrategy.analysis) (sigs : list MACDStrategy.signal)
    (m s h r : float) :
  MACDStrategy.generate_signals self code a = Returned sigs ->
  iloc_last (macd (MACDStrategy.macd_data a)) = Returned m ->
  iloc_last (signal (MACDStrategy.macd_data a)) = Returned s ->
  iloc_last (histogram (MACDStrategy.macd_data a)) = Returned h ->
  iloc_last (MACDStrategy.rsi a) = Returned r ->
  let prev := iloc_prev (histogram (MACDStrategy.macd_data a)) (Num 0) in
  ((exists x, In x sigs /\ MACDStrategy.action x = "BUY")
   <-> (gtb m s = true /\ leb prev (Num 0) = true /\ gtb h (Num 0) = true
        /\ ltb r (Num 50) = true
        /\ gtb h (MACDStrategy.min_histogram
                    (MACDStrategy.strategy_params self)) = true))
  /\ ((exists x, In x sigs /\ MACDStrategy.action x = "SELL")
      <-> (ltb m s = true /\ geb prev (Num 0) = true /\ ltb h (Num 0) = true
           /\ gtb r (Num 50) = true
           /\ is_Some (MACDStrategy.positions self !! code))).
Proof.
  intros H Hm Hs Hh Hr prev.
  unfold MACDStrategy.generate_signals in H. cbv zeta in H.
  rewrite Hm, Hs, Hh, Hr in H. cbn [obind] in H. fold prev in H.
  match type of H with
  | (if ?c then _ else _) = _ => destruct c eqn:Eb
  end.
  - injection H as <-.
    apply andb_prop in Eb as [Eb E5]. apply andb_prop in Eb as [Eb E4].
    apply andb_prop in Eb as [Eb E3]. apply andb_prop in Eb as [E1 E2].
    split; split.
    + intros _. auto.
    + intros _. eexists. split; [left; reflexivity | reflexivity].
    + intros [x [[<- | []] Hx]]. discriminate Hx.
    + intros [Hlt _]. exfalso. unfold gtb in E1.
      pose proof (ltb_asym _ _ Hlt). congruence.
    - match type of H with
      | (if ?c then _ else _) = _ => destruct c eqn:Es
      end.
      + injection H as <-.
        apply andb_prop in Es as [Es E5]. apply andb_prop in Es as [Es E4].
        apply andb_prop in Es as [Es E3]. apply andb_prop in Es as [E1 E2].
        apply bool_decide_eq_true_1 in E5.
        split; split.
        * intros [x [[<- | []] Hx]]. discriminate Hx.
        * intros (B1 & B2 & B3 & B4 & B5).
          rewrite B1, B2, B3, B4, B5 in Eb. discriminate Eb.
        * intros _. auto.
        * intros _. eexists. split; [left; reflexivity | reflexivity].
      + injection H as <-. split; split.
        * intros [x [[] _]].
        * intros (B1 & B2 & B3 & B4 & B5).
          rewrite B1, B2, B3, B4, B5 in Eb. discriminate Eb.
        * intros [x [[] _]].
        * intros (B1 & B2 & B3 & B4 & B5).
          rewrite B1, B2, B3, B4 in Es.
          rewrite (bool_decide_eq_true_2 _ B5) in Es. discriminate Es.
Qed.

Lemma macd_signal_iff_witness :
  (exists x, In x Expected.macd_golden_cross_signals
             /\ MACDStrategy.action x = "BUY")
  /\ ~ (exists x, In x Expected.macd_golden_cross_signals
                  /\ MACDStrategy.action x = "SELL").
Proof.
  destruct (macd_signal_iff MACDStrategy.init "005930"
              Samples.macd_golden_cross Expected.macd_golden_cross_signals
              (Num 1) (Num (2 # 5)) (Num (3 # 5)) (Num 45)
              eq_refl eq_refl eq_refl eq_refl eq_refl) as [Hb Hsell].
  split.
  - apply Hb. repeat split.
  - intros Hx. apply Hsell in Hx. destruct Hx as [Hlt _]. discriminate Hlt.
Defined.
